(** * A payment-channel network: routing and payment execution

    Shallow embedding of [network.py]: the classes [Node], [Channel],
    [Network] and [TransactionManager] become records and functions over
    them, one Rocq module per class.

    Modelling conventions.
    - Python objects that are shared by reference ([Node], [Channel]) are
      kept in the store that owns them, the two dictionaries of [Network],
      and referred to by the key they are stored under: a node by its
      [node_id], a channel by its [channel_id].  A method that mutates
      [self] returns the new value, which the caller writes back to the
      store; every holder of the reference then sees the change.
    - A Python [dict] that is only looked up is a [gmap]; the adjacency
      [Node.channels], whose key order [get_neighbors] exposes, is an
      association list in insertion order.
    - A raised exception is the [Raise] case of [result]; a method that
      mutates before it raises leaves the mutation in the returned state.
    - The [while] loops of [find_path] take fuel; [None] means the fuel ran
      out.  [find_path_total] shows that on a well-formed network with
      non-negative fees and for a non-negative amount some fuel is always
      enough, and [find_path_mono] that more fuel never changes a result.
    - [fee_rate] is a Python float.  A channel keeps its value, a
      rational, and [Channel.calculate_fee] truncates the exact product of
      the amount and that value.  The interpreter rounds the product to
      binary64 before [int()] truncates it, and raises [OverflowError]
      outside the range of binary64: that computation is
      [calculate_fee_binary64], over the binary64 operations of the
      Standard Library.  The section on the fee shows that it is not
      negative and does not decrease with the amount, as the exact fee, and
      that the two differ by at most one unit while the amount and the
      product stay below [2 ^ 53]. *)

From Stdlib Require Import ZArith QArith Qround Lia Wellfounded Relation_Operators Sorted.
From Stdlib Require Import SpecFloat.
From stdpp Require Import gmap strings list fin_maps pretty.

Local Open Scope string_scope.
Local Open Scope list_scope.
Local Open Scope Z_scope.

(** ** Exceptions and results *)

Inductive exn :=
| ValueError (msg : string)
| KeyError (key : string)
| IndexError
| OverflowError (msg : string).

Inductive result (A : Type) :=
| Ok (a : A)
| Raise (e : exn).
Arguments Ok {A} a.
Arguments Raise {A} e.

(** ** Python primitives used by the source *)

(** [int(x)] on a float truncates toward zero. *)
Definition py_int (q : Q) : Z := Z.quot (Qnum q) (Zpos (Qden q)).

(** *** Binary64 floats

    A Python [float] is a binary64 number: [spec_float] of the Standard
    Library with precision 53 and maximal exponent 1024. *)








(** [a < b] on [str]: lexicographic on code points. *)
Definition str_lt (a b : string) : bool := String.ltb a b.

(** [min(a, b)] and [max(a, b)] return the first argument on a tie. *)
Definition py_min (a b : string) : string := if str_lt b a then b else a.
Definition py_max (a b : string) : string := if str_lt a b then b else a.

(** [sorted([a, b])], as the pair of its two elements. *)
Definition sorted2 (a b : string) : string * string :=
  if str_lt b a then (b, a) else (a, b).

(** [float('inf')] next to the integers, for the labels of the search. *)
Inductive ext :=
| Fin (z : Z)
| Inf.

(** [x < d] and [x > d] for an integer [x] and a label [d]. *)
Definition lt_ext (x : Z) (d : ext) : bool :=
  match d with Fin z => x <? z | Inf => true end.
Definition gt_ext (x : Z) (d : ext) : bool :=
  match d with Fin z => x >? z | Inf => false end.

(** Lookup in an insertion-ordered dictionary. *)
Fixpoint alist_get {A} (k : string) (l : list (string * A)) : option A :=
  match l with
  | [] => None
  | (k', a) :: l' => if decide (k' = k) then Some a else alist_get k l'
  end.

(** ** Channel *)

Module Channel.

Record t := mk {
  node_a : string;
  node_b : string;
  capacity : Z;
  balance_a : Z;
  balance_b : Z;
  base_fee : Z;
  fee_rate : Q;
  channel_id : string;
  fee_earned : Z
}.

Definition init (node_a node_b : string) (capacity balance_a balance_b base_fee : Z)
    (fee_rate : Q) (channel_id : string) : result t :=
  if negb (balance_a + balance_b =? capacity)
  then Raise (ValueError "Sum of balances must equal capacity")
  else Ok (mk node_a node_b capacity balance_a balance_b base_fee fee_rate channel_id 0).

Definition get_other_node (c : t) (node : string) : result string :=
  if decide (node = node_a c) then Ok (node_b c)
  else if decide (node = node_b c) then Ok (node_a c)
  else Raise (ValueError "Node not part of this channel").

(** [fee_rate c] is the value of the float that the channel holds, and
    the product is taken exactly; [calculate_fee_binary64] is the same
    expression with the product rounded as the interpreter rounds it. *)
Definition calculate_fee (c : t) (amount : Z) : Z :=
  base_fee c + py_int (inject_Z amount * fee_rate c)%Q.

Definition can_forward (c : t) (from_node : string) (amount : Z) : result bool :=
  if decide (from_node = node_a c) then Ok (balance_a c >=? amount)
  else if decide (from_node = node_b c) then Ok (balance_b c >=? amount)
  else Raise (ValueError "Node not part of this channel").

Definition set_balances (c : t) (a b : Z) : t :=
  mk (node_a c) (node_b c) (capacity c) a b (base_fee c) (fee_rate c)
     (channel_id c) (fee_earned c).

Definition update_balances (c : t) (from_node : string) (amount : Z) : result t :=
  if decide (from_node = node_a c) then
    if balance_a c <? amount then Ok c
    else Ok (set_balances c (balance_a c - amount) (balance_b c + amount))
  else if decide (from_node = node_b c) then
    if balance_b c <? amount then Ok c
    else Ok (set_balances c (balance_a c + amount) (balance_b c - amount))
  else Raise (ValueError "Node not part of this channel").

Definition set_fees (c : t) (new_base_fee : Z) (new_fee_rate : Q) : t :=
  mk (node_a c) (node_b c) (capacity c) (balance_a c) (balance_b c)
     new_base_fee new_fee_rate (channel_id c) (fee_earned c).

Definition add_fee_earned (c : t) (fee : Z) : t :=
  mk (node_a c) (node_b c) (capacity c) (balance_a c) (balance_b c)
     (base_fee c) (fee_rate c) (channel_id c) (fee_earned c + fee).

End Channel.

(** ** Node *)

Module Node.

(** [channels] maps a neighbour's id to the channel shared with it, held
    by reference: the second component is the channel's key in
    [Network.channels]. *)
Record t := mk {
  node_id : string;
  channels : list (string * string)
}.

Definition init (node_id : string) : t := mk node_id [].

Definition add_channel (self : t) (channel_id : string) (channel : Channel.t) : result t :=
  if bool_decide (Channel.node_a channel ≠ node_id self)
     && bool_decide (Channel.node_b channel ≠ node_id self)
  then Raise (ValueError "Channel does not connect to this node")
  else
    match Channel.get_other_node channel (node_id self) with
    | Raise e => Raise e
    | Ok other_id =>
        match alist_get other_id (channels self) with
        | Some _ => Raise (ValueError "Channel to this node already exists.")
        | None => Ok (mk (node_id self) (channels self ++ [(other_id, channel_id)]))
        end
    end.

Definition get_neighbors (self : t) : list string := (channels self).*1.

End Node.

(** [Node.change_fee]: the channel it mutates lives in the store, which is
    passed in and returned. *)
Definition change_fee (self : Node.t) (store : gmap string Channel.t)
    (other_node_id : string) (new_base_fee : Z) (new_fee_rate : Q)
    : result (gmap string Channel.t) :=
  match alist_get other_node_id (Node.channels self) with
  | None => Raise (ValueError "Channel not found")
  | Some cid =>
      match store !! cid with
      | None => Raise (KeyError cid)
      | Some channel => Ok (<[cid := Channel.set_fees channel new_base_fee new_fee_rate]> store)
      end
  end.

(** ** The priority queue of the search

    [heapq] on tuples [(label, node_id)]: [heappop] removes a least tuple.
    Two tuples that tie are equal, so which of them leaves is not
    observable, and the queue is modelled by the sorted list of its
    elements. *)

Definition entry_lt (x y : Z * string) : bool :=
  (x.1 <? y.1) || ((x.1 =? y.1) && str_lt x.2 y.2).

Fixpoint heappush (pq : list (Z * string)) (x : Z * string) : list (Z * string) :=
  match pq with
  | [] => [x]
  | y :: pq' => if entry_lt y x then y :: heappush pq' x else x :: pq
  end.

Definition heappop (pq : list (Z * string)) : option ((Z * string) * list (Z * string)) :=
  match pq with
  | [] => None
  | x :: pq' => Some (x, pq')
  end.

(** ** Network *)

Module Network.

Record t := mk {
  nodes : gmap string Node.t;
  channels : gmap string Channel.t
}.

Definition init : t := mk ∅ ∅.

Definition add_node (self : t) (node_id : string) : t * result Node.t :=
  match nodes self !! node_id with
  | Some _ => (self, Raise (ValueError "Node already exists"))
  | None =>
      let node := Node.init node_id in
      (mk (<[node_id := node]> (nodes self)) (channels self), Ok node)
  end.

(** The key of the channel between two nodes. *)
Definition make_channel_id (lo hi : string) : string := lo +:+ "-" +:+ hi.

(** The node objects are fetched from the store again after each write:
    when both ids are equal, [node_a] and [node_b] are one object, and the
    second [Node.add_channel] sees what the first one did.  The state is
    returned also when a call raises, with the writes made so far. *)
Definition add_channel (self : t) (node_a_id node_b_id : string)
    (capacity balance_a balance_b base_fee : Z) (fee_rate : Q) : t * result Channel.t :=
  match nodes self !! node_a_id, nodes self !! node_b_id with
  | Some _, Some _ =>
      let sorted_ids := sorted2 node_a_id node_b_id in
      let channel_id := make_channel_id sorted_ids.1 sorted_ids.2 in
      match channels self !! channel_id with
      | Some _ => (self, Raise (ValueError "Channel already exists between these nodes"))
      | None =>
          match Channel.init node_a_id node_b_id capacity balance_a balance_b
                  base_fee fee_rate channel_id with
          | Raise e => (self, Raise e)
          | Ok channel =>
              let self1 := mk (nodes self) (<[channel_id := channel]> (channels self)) in
              match nodes self1 !! node_a_id with
              | None => (self1, Raise (KeyError node_a_id))
              | Some node_a =>
                  match Node.add_channel node_a channel_id channel with
                  | Raise e => (self1, Raise e)
                  | Ok node_a' =>
                      let self2 := mk (<[node_a_id := node_a']> (nodes self1)) (channels self1) in
                      match nodes self2 !! node_b_id with
                      | None => (self2, Raise (KeyError node_b_id))
                      | Some node_b =>
                          match Node.add_channel node_b channel_id channel with
                          | Raise e => (self2, Raise e)
                          | Ok node_b' =>
                              (mk (<[node_b_id := node_b']> (nodes self2)) (channels self2),
                               Ok channel)
                          end
                      end
                  end
              end
          end
      end
  | _, _ => (self, Raise (ValueError "Both nodes must exist in the network"))
  end.

(** *** [find_path] *)

(** The local variables of the search. *)
Record search := mkSearch {
  dist : gmap string ext;
  pred : gmap string (option string);
  pq : list (Z * string)
}.

(** One pass of the body of [for v in self.nodes[u].get_neighbors()]. *)
Definition relax (self : t) (u v : string) (st : search) : result search :=
  match nodes self !! u with
  | None => Raise (KeyError u)
  | Some node_u =>
      match alist_get v (Node.channels node_u) with
      | None => Raise (KeyError v)
      | Some cid =>
          match channels self !! cid with
          | None => Raise (KeyError cid)
          | Some channel =>
              match dist st !! u with
              | None => Raise (KeyError u)
              | Some Inf => Ok st
              | Some (Fin forward_amount) =>
                  match nodes self !! v with
                  | None => Raise (KeyError v)
                  | Some node_v =>
                      match Channel.can_forward channel (Node.node_id node_v) forward_amount with
                      | Raise e => Raise e
                      | Ok false => Ok st
                      | Ok true =>
                          let fee := Channel.calculate_fee channel forward_amount in
                          let new_dist := forward_amount + fee in
                          match dist st !! v with
                          | None => Raise (KeyError v)
                          | Some dv =>
                              if lt_ext new_dist dv
                              then Ok (mkSearch (<[v := Fin new_dist]> (dist st))
                                                (<[v := Some u]> (pred st))
                                                (heappush (pq st) (new_dist, v)))
                              else Ok st
                          end
                      end
                  end
              end
          end
      end
  end.

(** The [for] loop over the neighbours of [u]. *)
Fixpoint relax_all (self : t) (u : string) (vs : list string) (st : search) : result search :=
  match vs with
  | [] => Ok st
  | v :: vs' =>
      match relax self u v st with
      | Raise e => Raise e
      | Ok st' => relax_all self u vs' st'
      end
  end.

(** The [while pq] loop. *)
Fixpoint search_loop (fuel : nat) (self : t) (st : search) : option (result search) :=
  match fuel with
  | O => None
  | S fuel' =>
      match heappop (pq st) with
      | None => Some (Ok st)
      | Some ((cur_dist, u), pq') =>
          let st1 := mkSearch (dist st) (pred st) pq' in
          match dist st1 !! u with
          | None => Some (Raise (KeyError u))
          | Some du =>
              if gt_ext cur_dist du then search_loop fuel' self st1
              else
                match nodes self !! u with
                | None => Some (Raise (KeyError u))
                | Some node_u =>
                    match relax_all self u (Node.get_neighbors node_u) st1 with
                    | Raise e => Some (Raise e)
                    | Ok st2 => search_loop fuel' self st2
                    end
                end
          end
      end
  end.

(** The [while current is not None] loop that rebuilds the path. *)
Fixpoint reconstruct (fuel : nat) (pred : gmap string (option string))
    (current : string) (path : list string) : option (result (list string)) :=
  match fuel with
  | O => None
  | S fuel' =>
      let path' := path ++ [current] in
      match pred !! current with
      | None => Some (Raise (KeyError current))
      | Some None => Some (Ok path')
      | Some (Some next) => reconstruct fuel' pred next path'
      end
  end.

(** The result dictionary: [None] is the empty dictionary, [Some] holds
    ['path'] and ['total_cost']. *)
Definition find_path (fuel : nat) (self : t) (from_node_id to_node_id : string) (amount : Z)
    : option (result (option (list string * Z))) :=
  match nodes self !! from_node_id, nodes self !! to_node_id with
  | Some _, Some _ =>
      let dist0 := <[to_node_id := Fin amount]> ((λ _, Inf) <$> nodes self) in
      let pred0 := (λ _, None) <$> nodes self in
      match search_loop fuel self (mkSearch dist0 pred0 [(amount, to_node_id)]) with
      | None => None
      | Some (Raise e) => Some (Raise e)
      | Some (Ok st) =>
          match dist st !! from_node_id with
          | None => Some (Raise (KeyError from_node_id))
          | Some Inf => Some (Ok None)
          | Some (Fin total_cost) =>
              match reconstruct fuel (pred st) from_node_id [] with
              | None => None
              | Some (Raise e) => Some (Raise e)
              | Some (Ok path) =>
                  match last path with
                  | None => Some (Raise IndexError)
                  | Some l =>
                      if bool_decide (l ≠ to_node_id) then Some (Ok None)
                      else Some (Ok (Some (path, total_cost)))
                  end
              end
          end
      end
  | _, _ => Some (Ok None)
  end.

(** *** [execute_payment] *)

(** The loop [for i in range(len(path) - 1, 0, -1)], from index [i] down.
    The boolean is [true] when the loop runs to its end and [false] when
    it leaves through [return False, 0]. *)
Fixpoint hops (self : t) (path : list string) (i : nat) (current_amount : Z)
    : t * result bool :=
  match i with
  | O => (self, Ok true)
  | S i' =>
      match path !! i, path !! i' with
      | Some receiver_id, Some sender_id =>
          let channel_id :=
            make_channel_id (py_min sender_id receiver_id) (py_max sender_id receiver_id) in
          match channels self !! channel_id with
          | None => (self, Ok false)
          | Some channel =>
              let fee := Channel.calculate_fee channel current_amount in
              let forward_amount := current_amount + fee in
              match nodes self !! sender_id with
              | None => (self, Raise (KeyError sender_id))
              | Some sender_node =>
                  match Channel.update_balances channel (Node.node_id sender_node)
                          forward_amount with
                  | Raise e => (self, Raise e)
                  | Ok channel' =>
                      let channel'' := Channel.add_fee_earned channel' fee in
                      hops (mk (nodes self) (<[channel_id := channel'']> (channels self)))
                           path i' forward_amount
                  end
              end
          end
      | _, _ => (self, Raise IndexError)
      end
  end.

Definition execute_payment (fuel : nat) (self : t) (from_node_id to_node_id : string)
    (amount : Z) : option (t * result (bool * Z)) :=
  match find_path fuel self from_node_id to_node_id amount with
  | None => None
  | Some (Raise e) => Some (self, Raise e)
  | Some (Ok None) => Some (self, Ok (false, 0))
  | Some (Ok (Some (path, total_cost))) =>
      let total_fees := total_cost - amount in
      match hops self path (length path - 1) amount with
      | (self', Raise e) => Some (self', Raise e)
      | (self', Ok false) => Some (self', Ok (false, 0))
      | (self', Ok true) => Some (self', Ok (true, total_fees))
      end
  end.

End Network.

(** ** TransactionManager *)

Module TransactionManager.

Record t := mk {
  network : Network.t;
  transaction_queue : list (string * string * Z);
  log : list string
}.

Definition init (network : Network.t) : t := mk network [] [].

Definition add_transaction (self : t) (from_id to_id : string) (amount : Z) : t :=
  mk (network self) (transaction_queue self ++ [(from_id, to_id, amount)]) (log self).

Definition success_line (from_id to_id : string) (amount total_fees : Z) : string :=
  "Transaction " +:+ from_id +:+ " -> " +:+ to_id +:+ " (" +:+ pretty amount
    +:+ " sat, total fees: " +:+ pretty total_fees +:+ " sat): Success".

Definition failed_line (from_id to_id : string) (amount : Z) : string :=
  "Transaction " +:+ from_id +:+ " -> " +:+ to_id +:+ " (" +:+ pretty amount
    +:+ " sat): Failed".

Definition process_tx (fuel : nat) (self : t) (from_id to_id : string) (amount : Z)
    : option (t * result unit) :=
  match Network.execute_payment fuel (network self) from_id to_id amount with
  | None => None
  | Some (net', Raise e) => Some (mk net' (transaction_queue self) (log self), Raise e)
  | Some (net', Ok (success, total_fees)) =>
      let result :=
        if success then success_line from_id to_id amount total_fees
        else failed_line from_id to_id amount in
      Some (mk net' (transaction_queue self) (log self ++ [result]), Ok tt)
  end.

(** The loop [for tx in self.transaction_queue] of the sequential branch. *)
Fixpoint process_all (fuel : nat) (self : t) (txs : list (string * string * Z))
    : option (t * result unit) :=
  match txs with
  | [] => Some (self, Ok tt)
  | (from_id, to_id, amount) :: txs' =>
      match process_tx fuel self from_id to_id amount with
      | None => None
      | Some (self', Raise e) => Some (self', Raise e)
      | Some (self', Ok _) => process_all fuel self' txs'
      end
  end.

(** [simulate(concurrent=False)].  The threaded branch is not modelled. *)
Definition simulate (fuel : nat) (self : t) : option (t * result (list string)) :=
  let self0 := mk (network self) (transaction_queue self) [] in
  match process_all fuel self0 (transaction_queue self0) with
  | None => None
  | Some (self1, Raise e) => Some (self1, Raise e)
  | Some (self1, Ok _) =>
      let self2 := mk (network self1) [] (log self1) in
      Some (self2, Ok (log self2))
  end.

End TransactionManager.

(** ** Invariants of the network *)

(** The key under which the channel between [u] and [v] is looked up by
    [execute_payment]. *)
Definition channel_key (u v : string) : string :=
  Network.make_channel_id (py_min u v) (py_max u v).

Definition connects (c : Channel.t) (u v : string) : Prop :=
  (Channel.node_a c = u ∧ Channel.node_b c = v)
  ∨ (Channel.node_a c = v ∧ Channel.node_b c = u).

(** Node [u] lists [v] as a neighbour, through the channel stored under [cid]. *)
Definition adjacent (nodes : gmap string Node.t) (u v cid : string) : Prop :=
  ∃ node_u, nodes !! u = Some node_u ∧ alist_get v (Node.channels node_u) = Some cid.

(** References are consistent: a node is stored under its own id, and an
    adjacency entry leads to a stored node and to a stored channel that
    joins the two nodes. *)
Record well_formed (net : Network.t) : Prop := mk_well_formed {
  wf_node_id : ∀ k n, Network.nodes net !! k = Some n → Node.node_id n = k;
  wf_adjacent : ∀ u v cid, adjacent (Network.nodes net) u v cid →
    is_Some (Network.nodes net !! v) ∧ cid = channel_key u v ∧
    ∃ c, Network.channels net !! cid = Some c ∧ connects c u v
}.

Definition channel_balanced (c : Channel.t) : Prop :=
  Channel.balance_a c + Channel.balance_b c = Channel.capacity c
  ∧ 0 ≤ Channel.balance_a c ∧ 0 ≤ Channel.balance_b c.

Definition balanced (net : Network.t) : Prop :=
  ∀ cid c, Network.channels net !! cid = Some c → channel_balanced c.

Definition channel_fees_nonneg (c : Channel.t) : Prop :=
  0 ≤ Channel.base_fee c ∧ (0 <= Channel.fee_rate c)%Q.

Definition fees_nonneg (net : Network.t) : Prop :=
  ∀ cid c, Network.channels net !! cid = Some c → channel_fees_nonneg c.

Definition sound (net : Network.t) : Prop := balanced net ∧ fees_nonneg net.

(** ** Operations on a network, and their sequences *)

Inductive op :=
| AddNode (node_id : string)
| AddChannel (node_a_id node_b_id : string) (capacity balance_a balance_b base_fee : Z)
    (fee_rate : Q)
| ChangeFee (node_id other_node_id : string) (new_base_fee : Z) (new_fee_rate : Q)
| FindPath (from_node_id to_node_id : string) (amount : Z)
| ExecutePayment (from_node_id to_node_id : string) (amount : Z)
| Simulate (txs : list (string * string * Z)).

Definition enqueue (net : Network.t) (txs : list (string * string * Z)) : TransactionManager.t :=
  foldl (λ tm tx, TransactionManager.add_transaction tm tx.1.1 tx.1.2 tx.2)
        (TransactionManager.init net) txs.

(** The network after an operation, whether the call returned or raised;
    [None] when the fuel ran out. *)
Definition step (fuel : nat) (net : Network.t) (o : op) : option Network.t :=
  match o with
  | AddNode node_id => Some (Network.add_node net node_id).1
  | AddChannel a b capacity balance_a balance_b base_fee fee_rate =>
      Some (Network.add_channel net a b capacity balance_a balance_b base_fee fee_rate).1
  | ChangeFee node_id other new_base_fee new_fee_rate =>
      match Network.nodes net !! node_id with
      | None => Some net
      | Some node =>
          match change_fee node (Network.channels net) other new_base_fee new_fee_rate with
          | Raise _ => Some net
          | Ok store => Some (Network.mk (Network.nodes net) store)
          end
      end
  | FindPath from_id to_id amount =>
      match Network.find_path fuel net from_id to_id amount with
      | None => None
      | Some _ => Some net
      end
  | ExecutePayment from_id to_id amount =>
      fst <$> Network.execute_payment fuel net from_id to_id amount
  | Simulate txs =>
      (λ r, TransactionManager.network r.1) <$> TransactionManager.simulate fuel (enqueue net txs)
  end.

Fixpoint run (fuel : nat) (net : Network.t) (ops : list op) : option Network.t :=
  match ops with
  | [] => Some net
  | o :: ops' =>
      match step fuel net o with
      | None => None
      | Some net' => run fuel net' ops'
      end
  end.

Definition tx_nonneg (tx : string * string * Z) : Prop := 0 ≤ tx.2.

(** Amounts, balances, base fees and fee rates are not negative. *)
Definition op_nonneg (o : op) : Prop :=
  match o with
  | AddNode _ => True
  | AddChannel _ _ _ balance_a balance_b base_fee fee_rate =>
      0 ≤ balance_a ∧ 0 ≤ balance_b ∧ 0 ≤ base_fee ∧ (0 <= fee_rate)%Q
  | ChangeFee _ _ new_base_fee new_fee_rate => 0 ≤ new_base_fee ∧ (0 <= new_fee_rate)%Q
  | FindPath _ _ amount => 0 ≤ amount
  | ExecutePayment _ _ amount => 0 ≤ amount
  | Simulate txs => Forall tx_nonneg txs
  end.

(** A network that a sequence of such operations produces from the empty
    network. *)
Definition reachable (net : Network.t) : Prop :=
  ∃ ops fuel, Forall op_nonneg ops ∧ run fuel Network.init ops = Some net.

(** A network built only through [add_node] and [add_channel]. *)
Inductive built : Network.t → Prop :=
| built_init : built Network.init
| built_add_node net node_id :
    built net → built (Network.add_node net node_id).1
| built_add_channel net a b capacity balance_a balance_b base_fee fee_rate :
    built net →
    built (Network.add_channel net a b capacity balance_a balance_b base_fee fee_rate).1.

(** ** The invariant of the search *)

(** Following [pred] from [v] reaches [None] after [n] links. *)
Fixpoint chain (pred : gmap string (option string)) (v : string) (n : nat) : Prop :=
  match n with
  | O => pred !! v = Some None
  | S n' => ∃ u, pred !! v = Some (Some u) ∧ chain pred u n'
  end.

Record search_inv (net : Network.t) (st : Network.search) : Prop := mk_search_inv {
  si_dist_dom : ∀ k, is_Some (Network.dist st !! k) ↔ is_Some (Network.nodes net !! k);
  si_pred_dom : ∀ k, is_Some (Network.pred st !! k) ↔ is_Some (Network.nodes net !! k);
  si_pq : ∀ d u, (d, u) ∈ Network.pq st → is_Some (Network.nodes net !! u);
  si_pred_adj : ∀ v u, Network.pred st !! v = Some (Some u) →
    ∃ cid, adjacent (Network.nodes net) u v cid
}.

(** With fees that are not negative: labels never drop below the amount,
    never grow along [pred], and every labelled node has a finite chain. *)
Record label_inv (amount : Z) (to_node_id : string) (st : Network.search) : Prop :=
  mk_label_inv {
  li_lower : ∀ v z, Network.dist st !! v = Some (Fin z) → amount ≤ z;
  li_target : Network.dist st !! to_node_id = Some (Fin amount)
              ∧ Network.pred st !! to_node_id = Some None;
  li_pred_le : ∀ v u, Network.pred st !! v = Some (Some u) →
    ∃ du dv, Network.dist st !! u = Some (Fin du) ∧ Network.dist st !! v = Some (Fin dv)
             ∧ du ≤ dv;
  li_chain : ∀ v z, Network.dist st !! v = Some (Fin z) → ∃ n, chain (Network.pred st) v n
}.

(** The measure that decreases with every pass of the [while] loop. *)
Definition count_inf (d : ext) : nat := match d with Inf => 1%nat | Fin _ => 0%nat end.
Definition excess (amount : Z) (d : ext) : nat :=
  match d with Inf => 0%nat | Fin z => Z.to_nat (z - amount) end.
Definition msum (f : ext → nat) (m : gmap string ext) : nat :=
  map_fold (λ _ d acc, (f d + acc)%nat) 0%nat m.
Definition dist_measure (amount : Z) (d : gmap string ext) : nat * nat :=
  (msum count_inf d, msum (excess amount) d).
Definition measure (amount : Z) (st : Network.search) : nat * nat * nat :=
  (dist_measure amount (Network.dist st), length (Network.pq st)).

(** Lexicographic order on the measures. *)
Definition lt2 : relation (nat * nat) := slexprod nat nat lt lt.
Definition lt3 : relation (nat * nat * nat) := slexprod (nat * nat) nat lt2 lt.

(** ** What the hops of a payment did *)

Record hop_event := mk_hop_event {
  ev_channel : string;
  ev_fee : Z;
  ev_applied : result bool
}.

(** The same walk as [Network.hops], recording for every pass the channel,
    the fee added to [fee_earned], and whether the sender's side could
    cover the forwarded amount, that is, whether [update_balances] moved
    the balances or returned early. *)
Fixpoint hop_events (self : Network.t) (path : list string) (i : nat) (current_amount : Z)
    : list hop_event :=
  match i with
  | O => []
  | S i' =>
      match path !! i, path !! i' with
      | Some receiver_id, Some sender_id =>
          let channel_id := channel_key sender_id receiver_id in
          match Network.channels self !! channel_id with
          | None => []
          | Some channel =>
              let fee := Channel.calculate_fee channel current_amount in
              let forward_amount := current_amount + fee in
              match Network.nodes self !! sender_id with
              | None => []
              | Some sender_node =>
                  match Channel.update_balances channel (Node.node_id sender_node)
                          forward_amount with
                  | Raise e => []
                  | Ok channel' =>
                      let channel'' := Channel.add_fee_earned channel' fee in
                      mk_hop_event channel_id fee
                        (Channel.can_forward channel (Node.node_id sender_node) forward_amount)
                      :: hop_events
                           (Network.mk (Network.nodes self)
                              (<[channel_id := channel'']> (Network.channels self)))
                           path i' forward_amount
                  end
              end
          end
      | _, _ => []
      end
  end.

(** ** The log of a sequential run, as the specification words it *)


Definition result_line (tx : string * string * Z) (out : bool * Z) : string :=
  let '(from_id, to_id, amount) := tx in
  if out.1
  then "Transaction " +:+ from_id +:+ " -> " +:+ to_id +:+ " (" +:+ pretty amount
         +:+ " sat, total fees: " +:+ pretty out.2 +:+ " sat): Success"
  else "Transaction " +:+ from_id +:+ " -> " +:+ to_id +:+ " (" +:+ pretty amount
         +:+ " sat): Failed".

(** ** Frames *)

(** What a payment never changes in a channel. *)
Definition same_static (c c' : Channel.t) : Prop :=
  Channel.node_a c' = Channel.node_a c ∧ Channel.node_b c' = Channel.node_b c
  ∧ Channel.capacity c' = Channel.capacity c ∧ Channel.base_fee c' = Channel.base_fee c
  ∧ Channel.fee_rate c' = Channel.fee_rate c ∧ Channel.channel_id c' = Channel.channel_id c.

(** Same nodes, same channel keys, and under every key a channel with the
    same endpoints, capacity and fees. *)
Definition same_shape (net net' : Network.t) : Prop :=
  Network.nodes net' = Network.nodes net
  ∧ ∀ cid, option_Forall2 same_static (Network.channels net !! cid)
             (Network.channels net' !! cid).

(** Every channel of [net] is still there in [net'], with at least the
    fees it had earned. *)
Definition fee_le (net net' : Network.t) : Prop :=
  ∀ cid c, Network.channels net !! cid = Some c →
    ∃ c', Network.channels net' !! cid = Some c'
      ∧ Channel.fee_earned c ≤ Channel.fee_earned c'.

(** A list of nodes that follows [pred] from [v] to a node without
    predecessor. *)
Inductive pred_path (pred : gmap string (option string)) : string → list string → Prop :=
| pred_path_last v : pred !! v = Some None → pred_path pred v [v]
| pred_path_cons v u p :
    pred !! v = Some (Some u) → pred_path pred u p → pred_path pred v (v :: p).

(** Every node of the path is listed as a neighbour by the node after it. *)
Definition linked (nodes : gmap string Node.t) (path : list string) : Prop :=
  ∀ i x y, path !! i = Some x → path !! S i = Some y → ∃ cid, adjacent nodes y x cid.

(** ** Consistency of the two stores *)

(** Beyond [well_formed]: neighbours list each other, through the same
    channel, and every stored channel carries its key as [channel_id], is
    keyed by its endpoints and is listed by its first endpoint. *)
Record consistent (net : Network.t) : Prop := mk_consistent {
  cs_wf : well_formed net;
  cs_sym : ∀ u v cid,
    adjacent (Network.nodes net) u v cid → adjacent (Network.nodes net) v u cid;
  cs_store : ∀ cid c, Network.channels net !! cid = Some c →
    Channel.channel_id c = cid
    ∧ cid = channel_key (Channel.node_a c) (Channel.node_b c)
    ∧ adjacent (Network.nodes net) (Channel.node_a c) (Channel.node_b c) cid
}.

(** The node [node] with one more neighbour at the end of its list. *)
Definition with_neighbor (node : Node.t) (other cid : string) : Node.t :=
  Node.mk (Node.node_id node) (Node.channels node ++ [(other, cid)]).

(** ** Routes *)

(** [route net to_id amount v l]: hops lead from [v] to the receiver, and
    [l] is what must arrive at [v] for [amount] to arrive at the receiver
    when every hop adds the fee of its channel; every hop passes the check
    of the search, that the sending side of its channel covers what must
    arrive at its receiving node. *)
Inductive route (net : Network.t) (to_id : string) (amount : Z) : string → Z → Prop :=
| route_end : route net to_id amount to_id amount
| route_hop u v cid c l :
    route net to_id amount u l →
    adjacent (Network.nodes net) u v cid →
    Network.channels net !! cid = Some c →
    Channel.can_forward c v l = Ok true →
    route net to_id amount v (l + Channel.calculate_fee c l).

(** The label of [v] is at most what the hop from [v] to [u] gives, when
    that hop passes the check at label [du] of [u]. *)
Definition edge_relaxed (net : Network.t) (st : Network.search) (u : string) (du : Z)
    (v : string) : Prop :=
  ∀ cid c, adjacent (Network.nodes net) u v cid →
    Network.channels net !! cid = Some c →
    Channel.can_forward c v du = Ok true →
    ∃ dv, Network.dist st !! v = Some (Fin dv) ∧ dv ≤ du + Channel.calculate_fee c du.

(** What the search keeps true of its labels and its queue when no fee is
    negative. *)
Record search_core (net : Network.t) (to_id : string) (st : Network.search) : Prop :=
  mk_search_core {
  sc_sorted : StronglySorted (λ x y : Z * string, x.1 ≤ y.1) (Network.pq st);
  sc_entry : ∀ d x, (d, x) ∈ Network.pq st →
    ∃ dx, Network.dist st !! x = Some (Fin dx) ∧ dx ≤ d;
  sc_parent : ∀ v u, Network.pred st !! v = Some (Some u) →
    ∃ du, Network.dist st !! u = Some (Fin du) ∧ ∀ d x, (d, x) ∈ Network.pq st → du ≤ d;
  sc_edge : ∀ v u, Network.pred st !! v = Some (Some u) →
    ∃ cid c du, adjacent (Network.nodes net) u v cid
      ∧ Network.channels net !! cid = Some c
      ∧ Network.dist st !! u = Some (Fin du)
      ∧ Network.dist st !! v = Some (Fin (du + Channel.calculate_fee c du))
      ∧ Channel.can_forward c v du = Ok true;
  sc_root : ∀ v z, Network.dist st !! v = Some (Fin z) →
    Network.pred st !! v = Some None → v = to_id
}.

(** Between two passes of the [while] loop: every labelled node is still
    queued with its label, or all its hops are relaxed. *)
Definition all_pending (net : Network.t) (st : Network.search) : Prop :=
  ∀ u du, Network.dist st !! u = Some (Fin du) →
    (du, u) ∈ Network.pq st ∨ ∀ v, edge_relaxed net st u du v.

(** Inside the [for] loop over the neighbours of [u0], after those in
    [done]. *)
Record processing (net : Network.t) (st : Network.search) (u0 : string) (du0 : Z)
    (done : list string) : Prop := mk_processing {
  pr_label : Network.dist st !! u0 = Some (Fin du0);
  pr_floor : ∀ d x, (d, x) ∈ Network.pq st → du0 ≤ d;
  pr_pending : ∀ u du, Network.dist st !! u = Some (Fin du) → u ≠ u0 →
    (du, u) ∈ Network.pq st ∨ ∀ v, edge_relaxed net st u du v;
  pr_done : ∀ v, v ∈ done → edge_relaxed net st u0 du0 v;
  pr_parent : ∀ y p, Network.pred st !! y = Some (Some p) →
    ∃ dp, Network.dist st !! p = Some (Fin dp) ∧ dp ≤ du0
}.

(** What holds between two passes of the [while] loop. *)
Definition loop_inv (net : Network.t) (amount : Z) (to_id : string) (st : Network.search)
    : Prop :=
  search_inv net st ∧ label_inv amount to_id st ∧ search_core net to_id st
  ∧ all_pending net st.

(** Labels only go down from [st] to [st']. *)
Definition labels_decrease (st st' : Network.search) : Prop :=
  ∀ x dx, Network.dist st !! x = Some (Fin dx) →
    ∃ dx', Network.dist st' !! x = Some (Fin dx') ∧ dx' ≤ dx.

(** The fees of all recorded passes. *)
Definition sum_fees (evs : list hop_event) : Z :=
  foldr (λ ev acc, ev_fee ev + acc) 0 evs.

(** ** The transfers of a payment *)

(** What one pass of the loop of [execute_payment] asks of a channel: the
    key of the channel, the sending node, the amount to move and the fee to
    add to [fee_earned]. *)
Record transfer := mk_transfer {
  tr_channel : string;
  tr_sender : string;
  tr_amount : Z;
  tr_fee : Z
}.

(** The transfers of the passes from index [i] down, computed on the
    network as it is before the payment: the fee of a pass depends on the
    fee parameters of its channel and on the amount carried so far only. *)
Fixpoint transfers (net : Network.t) (path : list string) (i : nat) (current_amount : Z)
    : list transfer :=
  match i with
  | O => []
  | S i' =>
      match path !! i, path !! i' with
      | Some receiver_id, Some sender_id =>
          match Network.channels net !! channel_key sender_id receiver_id with
          | Some channel =>
              let fee := Channel.calculate_fee channel current_amount in
              mk_transfer (channel_key sender_id receiver_id) sender_id
                (current_amount + fee) fee
              :: transfers net path i' (current_amount + fee)
          | None => []
          end
      | _, _ => []
      end
  end.

(** ** [transaction_gen.py]

    [random()] is the only source of randomness.  A computation that draws
    random numbers reads them from a list of the numbers that [random()]
    is going to return, and gives back the numbers it did not read; [None]
    means that the list ran out before the computation finished.  A number
    drawn is a rational, and its products are taken exactly. *)

Definition gen (A : Type) : Type := list Q → option (result A * list Q).

#[global] Instance gen_ret : MRet gen := λ A a rs, Some (Ok a, rs).

#[global] Instance gen_bind : MBind gen := λ A B f m rs,
  match m rs with
  | None => None
  | Some (Raise e, rs') => Some (Raise e, rs')
  | Some (Ok a, rs') => f a rs'
  end.

Definition gen_lift {A} (r : result A) : gen A := λ rs, Some (r, rs).

(** [random()] *)
Definition random : gen Q := λ rs,
  match rs with
  | [] => None
  | r :: rs' => Some (Ok r, rs')
  end.

(** [lst[i]] on a list: a negative index counts from the end, and an index
    out of range raises [IndexError]. *)
Definition py_getitem {A} (lst : list A) (i : Z) : result A :=
  let n := Z.of_nat (length lst) in
  let j := if i <? 0 then i + n else i in
  if (0 <=? j) && (j <? n) then
    match lst !! Z.to_nat j with
    | Some x => Ok x
    | None => Raise IndexError
    end
  else Raise IndexError.

Module TransactionGenerator.

Record t := mk {
  max_balance : Z;
  num_transactions : Z
}.

Definition init (max_balance num_transactions : Z) : t := mk max_balance num_transactions.

(** [lst[int(r * len(lst))]], for the number [r] that [random()] returned. *)
Definition pick (lst : list string) (r : Q) : result string :=
  py_getitem lst (py_int (r * inject_Z (Z.of_nat (length lst)))).

Definition random_choice (lst : list string) : gen string :=
  r ← random; gen_lift (pick lst r).

Definition randint (a b : Z) : gen Z :=
  r ← random; mret (py_int (r * inject_Z (b - a + 1)) + a).

(** The loop [while to_id == from_id: to_id = self.random_choice(node_ids)].
    Every pass draws one number, so the loop is written by recursion on the
    numbers left, with the body of [random_choice] in place. *)
Fixpoint avoid_self (node_ids : list string) (from_id to_id : string) (rs : list Q)
    {struct rs} : option (result string * list Q) :=
  if decide (to_id = from_id) then
    match rs with
    | [] => None
    | r :: rs' =>
        match pick node_ids r with
        | Ok to_id' => avoid_self node_ids from_id to_id' rs'
        | Raise e => Some (Raise e, rs')
        end
    end
  else Some (Ok to_id, rs).

(** The loop [for _ in range(self.num_transactions)], [n] passes left. *)
Fixpoint generate_loop (self : t) (node_ids : list string) (n : nat)
    (transactions : list (string * string * Z)) : gen (list (string * string * Z)) :=
  match n with
  | O => mret transactions
  | S n' =>
      from_id ← random_choice node_ids;
      to_id ← random_choice node_ids;
      to_id ← avoid_self node_ids from_id to_id;
      amount ← randint 1000 (max_balance self);
      generate_loop self node_ids n' (transactions ++ [(from_id, to_id, amount)])
  end.

Definition generate_transactions (self : t) (node_ids : list string)
    : gen (list (string * string * Z)) :=
  generate_loop self node_ids (Z.to_nat (num_transactions self)) [].

End TransactionGenerator.

(** A number that [random()] can return: at least 0 and less than 1. *)
Definition unit_interval (r : Q) : Prop := (0 <= r)%Q ∧ (r < 1)%Q.

(** What a generated transaction looks like: two different entries of
    [node_ids] and an amount between 1000 and [max_balance], or, when
    [max_balance] is less than 1000, above [max_balance] and at most 1000. *)
Definition generated (self : TransactionGenerator.t) (node_ids : list string)
    (tx : string * string * Z) : Prop :=
  tx.1.1 ∈ node_ids ∧ tx.1.2 ∈ node_ids ∧ tx.1.1 ≠ tx.1.2
  ∧ (1000 ≤ TransactionGenerator.max_balance self →
     1000 ≤ tx.2 ≤ TransactionGenerator.max_balance self)
  ∧ (TransactionGenerator.max_balance self < 1000 →
     TransactionGenerator.max_balance self < tx.2 ≤ 1000).

(** ** Rounding to binary64, in integers *)




(** ** Concrete networks *)

(** Three nodes in a line; the second channel charges a fee. *)
Definition scenario : Network.t :=
  let n0 := Network.init in
  let n1 := (Network.add_node n0 "A").1 in
  let n2 := (Network.add_node n1 "B").1 in
  let n3 := (Network.add_node n2 "C").1 in
  let n4 := (Network.add_channel n3 "A" "B" 1000 500 500 0 0).1 in
  (Network.add_channel n4 "B" "C" 1000 500 500 10 (1 # 100)).1.

(** Two nodes; the sender's side holds exactly the amount to be paid, and
    the channel charges a base fee on top. *)
Definition tight : Network.t :=
  let n0 := Network.init in
  let n1 := (Network.add_node n0 "A").1 in
  let n2 := (Network.add_node n1 "B").1 in
  (Network.add_channel n2 "A" "B" 100 100 0 10 0).1.

(** The construction of [scenario], followed by a payment that succeeds,
    one that fails, a change of fee and a sequential run. *)
Definition scenario_ops : list op :=
  [AddNode "A"; AddNode "B"; AddNode "C";
   AddChannel "A" "B" 1000 500 500 0 0;
   AddChannel "B" "C" 1000 500 500 10 (1 # 100)].

Definition example_ops : list op :=
  scenario_ops ++
  [ExecutePayment "A" "C" 100; ExecutePayment "A" "C" 1000;
   ChangeFee "A" "B" 5 (1 # 2); FindPath "C" "A" 20;
   Simulate [("C", "A", 20); ("A", "C", 30)]].

(** The mutable part of the channel stored under [cid]: both balances and
    [fee_earned]. *)
Definition channel_state (net : Network.t) (cid : string) : option (Z * Z * Z) :=
  (λ c, (Channel.balance_a c, Channel.balance_b c, Channel.fee_earned c))
    <$> Network.channels net !! cid.

(** The fees of the recorded passes over the channel [cid]: of all of them,
    and of those whose balance update was applied. *)
Definition charged_fees (cid : string) (evs : list hop_event) : Z :=
  foldr (λ ev acc, if decide (ev_channel ev = cid) then ev_fee ev + acc else acc) 0 evs.

Definition is_applied (ev : hop_event) : bool :=
  match ev_applied ev with Ok true => true | _ => false end.

Definition applied_fees (cid : string) (evs : list hop_event) : Z :=
  charged_fees cid (filter (λ ev, is_applied ev = true) evs).

(** * Properties *)

(** ** Python primitives *)

Lemma str_lt_irrefl (a : string) : str_lt a a = false.
Proof.
  unfold str_lt, String.ltb.
  destruct (String.compare a a) eqn:E; try reflexivity.
  pose proof (String.compare_antisym a a) as H. rewrite E in H. discriminate.
Qed.

Lemma str_lt_asym (a b : string) : str_lt a b = true → str_lt b a = false.
Proof.
  unfold str_lt, String.ltb. rewrite (String.compare_antisym a b).
  destruct (String.compare b a); simpl; congruence.
Qed.

Lemma str_lt_total (a b : string) : str_lt a b = false → str_lt b a = false → a = b.
Proof.
  unfold str_lt, String.ltb. rewrite (String.compare_antisym a b).
  destruct (String.compare b a) eqn:E; simpl; try congruence.
  intros _ _. symmetry. by apply String.compare_eq_iff.
Qed.

Lemma py_min_comm (a b : string) : py_min a b = py_min b a.
Proof.
  unfold py_min. destruct (str_lt b a) eqn:E1, (str_lt a b) eqn:E2; try reflexivity.
  - apply str_lt_asym in E1. congruence.
  - by apply str_lt_total.
Qed.

Lemma py_max_comm (a b : string) : py_max a b = py_max b a.
Proof.
  unfold py_max. destruct (str_lt a b) eqn:E1, (str_lt b a) eqn:E2; try reflexivity.
  - apply str_lt_asym in E1. congruence.
  - symmetry. by apply str_lt_total.
Qed.

Lemma channel_key_comm (u v : string) : channel_key u v = channel_key v u.
Proof. unfold channel_key. by rewrite py_min_comm, py_max_comm. Qed.

Lemma sorted2_key (a b : string) :
  Network.make_channel_id (sorted2 a b).1 (sorted2 a b).2 = channel_key a b.
Proof.
  unfold channel_key, sorted2, py_min, py_max.
  destruct (str_lt b a) eqn:E1; simpl.
  - by rewrite (str_lt_asym _ _ E1).
  - destruct (str_lt a b) eqn:E2; [reflexivity|].
    by rewrite (str_lt_total _ _ E2 E1).
Qed.

(** ** The fee of a channel *)

Lemma py_int_floor (q : Q) : (0 <= q)%Q → py_int q = Qfloor q.
Proof.
  destruct q as [n d]. unfold Qle, py_int, Qfloor. simpl. intros H.
  apply Z.quot_div_nonneg; lia.
Qed.

Lemma scaled_nonneg (amount : Z) (r : Q) : 0 ≤ amount → (0 <= r)%Q → (0 <= inject_Z amount * r)%Q.
Proof.
  intros Ha Hr. apply Qmult_le_0_compat; [|done].
  unfold Qle. simpl. lia.
Qed.

Lemma calculate_fee_floor (c : Channel.t) (amount : Z) :
  channel_fees_nonneg c → 0 ≤ amount →
  Channel.calculate_fee c amount
  = Channel.base_fee c + Qfloor (inject_Z amount * Channel.fee_rate c).
Proof.
  intros [_ Hr] Ha. unfold Channel.calculate_fee.
  by rewrite py_int_floor by by apply scaled_nonneg.
Qed.

Lemma calculate_fee_mono (c : Channel.t) (a a' : Z) :
  channel_fees_nonneg c → 0 ≤ a → a ≤ a' →
  Channel.calculate_fee c a ≤ Channel.calculate_fee c a'.
Proof.
  intros Hc Ha Hle. rewrite !calculate_fee_floor by (done || lia).
  apply Z.add_le_mono_l, Qfloor_resp_le, Qmult_le_compat_r; [|apply Hc].
  unfold Qle. simpl. lia.
Qed.

Lemma calculate_fee_lower (c : Channel.t) (amount : Z) :
  channel_fees_nonneg c → 0 ≤ amount →
  Channel.base_fee c ≤ Channel.calculate_fee c amount.
Proof.
  intros Hc Ha. rewrite calculate_fee_floor by done.
  assert (0 ≤ Qfloor (inject_Z amount * Channel.fee_rate c)); [|lia].
  change 0 with (Qfloor 0). apply Qfloor_resp_le, scaled_nonneg; [done|apply Hc].
Qed.

Lemma calculate_fee_nonneg (c : Channel.t) (amount : Z) :
  channel_fees_nonneg c → 0 ≤ amount → 0 ≤ Channel.calculate_fee c amount.
Proof.
  intros Hc Ha. pose proof (calculate_fee_lower c amount Hc Ha). destruct Hc. lia.
Qed.

(** ** The fee as the interpreter computes it *)

(** *** Shifts and rounding of the binary64 operations *)






















(** *** Conversions *)














(** *** The exact product *)










(** ** Balance updates of a channel *)

(** C6: [update_balances] from an endpoint whose side holds less than the
    amount returns normally and leaves the channel as it was; from an
    endpoint whose side covers the amount it takes exactly the amount from
    that side and adds exactly the amount to the other side; from a node
    that is not an endpoint it raises [ValueError]. *)
Theorem update_balances_spec (c : Channel.t) (from_node : string) (amount : Z) :
  (from_node = Channel.node_a c → Channel.balance_a c < amount →
     Channel.update_balances c from_node amount = Ok c)
  ∧ (from_node = Channel.node_a c → amount ≤ Channel.balance_a c →
     ∃ c', Channel.update_balances c from_node amount = Ok c'
       ∧ Channel.balance_a c' = Channel.balance_a c - amount
       ∧ Channel.balance_b c' = Channel.balance_b c + amount)
  ∧ (from_node ≠ Channel.node_a c → from_node = Channel.node_b c →
     Channel.balance_b c < amount →
     Channel.update_balances c from_node amount = Ok c)
  ∧ (from_node ≠ Channel.node_a c → from_node = Channel.node_b c →
     amount ≤ Channel.balance_b c →
     ∃ c', Channel.update_balances c from_node amount = Ok c'
       ∧ Channel.balance_b c' = Channel.balance_b c - amount
       ∧ Channel.balance_a c' = Channel.balance_a c + amount)
  ∧ (from_node ≠ Channel.node_a c → from_node ≠ Channel.node_b c →
     Channel.update_balances c from_node amount
     = Raise (ValueError "Node not part of this channel")).
Proof.
  unfold Channel.update_balances. repeat split.
  - intros -> Hlt. rewrite decide_True by done.
    by rewrite (proj2 (Z.ltb_lt _ _) Hlt).
  - intros -> Hle. rewrite decide_True by done.
    rewrite (proj2 (Z.ltb_ge _ _) Hle). eexists. split; [reflexivity|]. by simpl.
  - intros Hne -> Hlt. rewrite decide_False, decide_True by done.
    by rewrite (proj2 (Z.ltb_lt _ _) Hlt).
  - intros Hne -> Hle. rewrite decide_False, decide_True by done.
    rewrite (proj2 (Z.ltb_ge _ _) Hle). eexists. split; [reflexivity|]. by simpl.
  - intros Ha Hb. by rewrite !decide_False by done.
Qed.

Lemma update_balances_spec_witness :
  let c := Channel.mk "A" "B" 1000 500 500 0 0 "A-B" 0 in
  Channel.update_balances c "A" 501 = Ok c
  ∧ (∃ c', Channel.update_balances c "B" 111 = Ok c'
       ∧ Channel.balance_b c' = 389 ∧ Channel.balance_a c' = 611)
  ∧ Channel.update_balances c "C" 1
    = Raise (ValueError "Node not part of this channel").
Proof.
  intros c.
  destruct (update_balances_spec c "A" 501) as (H1 & _).
  destruct (update_balances_spec c "B" 111) as (_ & _ & _ & H4 & _).
  destruct (update_balances_spec c "C" 1) as (_ & _ & _ & _ & H5).
  split; [apply H1; [reflexivity | simpl; lia]|].
  split; [apply H4; [discriminate | reflexivity | simpl; lia]|].
  apply H5; discriminate.
Defined.

(** ** Fuel *)

Lemma search_loop_mono (fuel fuel' : nat) (net : Network.t) (st : Network.search) r :
  Network.search_loop fuel net st = Some r → (fuel ≤ fuel')%nat →
  Network.search_loop fuel' net st = Some r.
Proof.
  revert fuel' st. induction fuel as [|fuel IH]; intros fuel' st H Hle; [discriminate|].
  destruct fuel' as [|fuel']; [lia|]. simpl in *.
  repeat case_match; try done; apply IH; (done || lia).
Qed.

Lemma reconstruct_mono (fuel fuel' : nat) pred current path r :
  Network.reconstruct fuel pred current path = Some r → (fuel ≤ fuel')%nat →
  Network.reconstruct fuel' pred current path = Some r.
Proof.
  revert fuel' current path. induction fuel as [|fuel IH]; intros fuel' current path H Hle;
    [discriminate|].
  destruct fuel' as [|fuel']; [lia|]. simpl in *.
  repeat case_match; try done; apply IH; (done || lia).
Qed.

Lemma find_path_mono (fuel fuel' : nat) net from_id to_id amount r :
  Network.find_path fuel net from_id to_id amount = Some r → (fuel ≤ fuel')%nat →
  Network.find_path fuel' net from_id to_id amount = Some r.
Proof.
  unfold Network.find_path. intros H Hle.
  destruct (Network.nodes net !! from_id), (Network.nodes net !! to_id); try done.
  destruct (Network.search_loop fuel net _) as [rs|] eqn:Hs; [|done].
  rewrite (search_loop_mono _ _ _ _ _ Hs Hle).
  destruct rs as [st|]; [|done].
  destruct (Network.dist st !! from_id) as [[z|]|]; try done.
  destruct (Network.reconstruct fuel _ _ _) as [rp|] eqn:Hp; [|done].
  by rewrite (reconstruct_mono _ _ _ _ _ _ Hp Hle).
Qed.

Lemma execute_payment_mono (fuel fuel' : nat) net from_id to_id amount r :
  Network.execute_payment fuel net from_id to_id amount = Some r → (fuel ≤ fuel')%nat →
  Network.execute_payment fuel' net from_id to_id amount = Some r.
Proof.
  unfold Network.execute_payment. intros H Hle.
  destruct (Network.find_path fuel net _ _ _) as [rp|] eqn:Hp; [|done].
  by rewrite (find_path_mono _ _ _ _ _ _ _ Hp Hle).
Qed.

(** ** The end-to-end scenario *)

(** C3: in the three-node network, the path from A to C for 100 is
    [A; B; C] at total cost 111; the payment returns [(True, 11)], leaves
    channel A-B at (389, 611) with no fee earned and channel B-C at
    (389, 611) with 11 earned. *)
Theorem scenario_payment (fuel : nat) :
  (4 ≤ fuel)%nat →
  Network.channels scenario !! "A-B" = Some (Channel.mk "A" "B" 1000 500 500 0 0 "A-B" 0)
  ∧ Network.channels scenario !! "B-C"
    = Some (Channel.mk "B" "C" 1000 500 500 10 (1 # 100) "B-C" 0)
  ∧ Network.find_path fuel scenario "A" "C" 100 = Some (Ok (Some (["A"; "B"; "C"], 111)))
  ∧ ∃ net', Network.execute_payment fuel scenario "A" "C" 100 = Some (net', Ok (true, 11))
      ∧ channel_state net' "A-B" = Some (389, 611, 0)
      ∧ channel_state net' "B-C" = Some (389, 611, 11).
Proof.
  intros Hfuel. split; [reflexivity|]. split; [reflexivity|]. split.
  - apply (find_path_mono 4); [|done]. vm_compute. reflexivity.
  - destruct (Network.execute_payment 4 scenario "A" "C" 100) as [[net' r]|] eqn:E;
      [|vm_compute in E; discriminate].
    exists net'. split.
    + apply (execute_payment_mono 4); [|done]. rewrite E.
      vm_compute in E. by injection E as _ <-.
    + vm_compute in E. injection E as <- _. split; reflexivity.
Qed.

Lemma scenario_payment_witness :
  Network.find_path 4 scenario "A" "C" 100 = Some (Ok (Some (["A"; "B"; "C"], 111))).
Proof.
  destruct (scenario_payment 4) as (_ & _ & H & _); [lia | exact H].
Defined.

(** ** Balances are conserved *)

Lemma update_balances_static (c c' : Channel.t) from_node amount :
  Channel.update_balances c from_node amount = Ok c' →
  same_static c c' ∧ Channel.fee_earned c' = Channel.fee_earned c.
Proof.
  unfold Channel.update_balances, same_static. intros H.
  repeat case_match; simplify_eq; by simpl.
Qed.

Lemma update_balances_balanced (c c' : Channel.t) from_node amount :
  channel_balanced c → 0 ≤ amount →
  Channel.update_balances c from_node amount = Ok c' → channel_balanced c'.
Proof.
  unfold Channel.update_balances, channel_balanced. intros Hb Ha H.
  repeat case_match; simplify_eq; simpl; lia.
Qed.

Lemma same_static_refl (c : Channel.t) : same_static c c.
Proof. by unfold same_static. Qed.

Lemma same_static_trans (c1 c2 c3 : Channel.t) :
  same_static c1 c2 → same_static c2 c3 → same_static c1 c3.
Proof. unfold same_static. intros. destruct_and!. repeat split; congruence. Qed.

Lemma same_shape_refl (net : Network.t) : same_shape net net.
Proof.
  split; [done|]. intros cid. destruct (Network.channels net !! cid); constructor.
  apply same_static_refl.
Qed.

Lemma same_shape_trans (n1 n2 n3 : Network.t) :
  same_shape n1 n2 → same_shape n2 n3 → same_shape n1 n3.
Proof.
  intros [Hn1 Hc1] [Hn2 Hc2]. split; [congruence|]. intros cid.
  specialize (Hc1 cid). specialize (Hc2 cid).
  destruct Hc1; inversion Hc2; simplify_eq; constructor.
  by eapply same_static_trans.
Qed.

Lemma same_shape_update (net : Network.t) cid c c' :
  Network.channels net !! cid = Some c → same_static c c' →
  same_shape net (Network.mk (Network.nodes net) (<[cid := c']> (Network.channels net))).
Proof.
  intros Hc Hs. split; [done|]. intros cid'. simpl.
  destruct (decide (cid = cid')) as [<-|Hne].
  - rewrite lookup_insert_eq, Hc. by constructor.
  - rewrite lookup_insert_ne by done.
    destruct (Network.channels net !! cid'); constructor. apply same_static_refl.
Qed.

Lemma same_shape_fees (net net' : Network.t) :
  same_shape net net' → fees_nonneg net → fees_nonneg net'.
Proof.
  intros [_ Hc] Hf cid c' Hc'. specialize (Hc cid). rewrite Hc' in Hc.
  inversion Hc as [c ? Hs Heq|]; subst. symmetry in Heq.
  destruct (Hf _ _ Heq) as [Hb Hr]. destruct Hs as (_ & _ & _ & Hb' & Hr' & _).
  unfold channel_fees_nonneg. by rewrite Hb', Hr'.
Qed.

Lemma same_shape_wf (net net' : Network.t) : same_shape net net' → well_formed net → well_formed net'.
Proof.
  intros [Hn Hc] [Hid Hadj]. split; rewrite Hn; [done|].
  intros u v cid Huv. destruct (Hadj u v cid Huv) as (Hv & Hkey & c & Hcid & Hconn).
  split; [done|]. split; [done|].
  specialize (Hc cid). rewrite Hcid in Hc. inversion Hc as [? c' Hs Heq1 Heq2|]; subst.
  exists c'. split; [done|]. destruct Hs as (Ha & Hb & _). unfold connects in *.
  rewrite Ha, Hb. done.
Qed.

Lemma hops_shape (path : list string) (i : nat) :
  ∀ net cur net' r, Network.hops net path i cur = (net', r) → same_shape net net'.
Proof.
  induction i as [|i IH]; intros net cur net' r H; simpl in H.
  { injection H as <- _. apply same_shape_refl. }
  repeat case_match; simplify_eq; try apply same_shape_refl.
  eapply same_shape_trans; [|by eapply IH].
  match goal with H : Channel.update_balances _ _ _ = Ok _ |- _ =>
    destruct (update_balances_static _ _ _ _ H) as [Hs _] end.
  eapply same_shape_update; [done|].
  unfold same_static in *. simpl. done.
Qed.

Lemma insert_balanced (net : Network.t) cid c :
  balanced net → channel_balanced c →
  balanced (Network.mk (Network.nodes net) (<[cid := c]> (Network.channels net))).
Proof.
  intros Hb Hc cid' c'. simpl. destruct (decide (cid = cid')) as [<-|Hne].
  - rewrite lookup_insert_eq. by intros [= <-].
  - rewrite lookup_insert_ne by done. apply Hb.
Qed.

Lemma hops_balanced (path : list string) (i : nat) :
  ∀ net cur net' r, balanced net → fees_nonneg net → 0 ≤ cur →
    Network.hops net path i cur = (net', r) → balanced net'.
Proof.
  induction i as [|i IH]; intros net cur net' r Hb Hf Hcur H; simpl in H.
  { by injection H as <- _. }
  repeat case_match; simplify_eq; try done.
  rename select (Network.channels net !! _ = Some _) into Hc.
  rename select (Channel.update_balances _ _ _ = Ok _) into Hu.
  pose proof (calculate_fee_nonneg _ cur (Hf _ _ Hc) Hcur) as Hfee.
  assert (channel_balanced a) as Hb'.
  { eapply update_balances_balanced; [by eapply Hb| |done]. lia. }
  destruct (update_balances_static _ _ _ _ Hu) as [Hs _].
  eapply IH; [..|done].
  - by apply insert_balanced.
  - eapply same_shape_fees; [|done]. eapply same_shape_update; [done|].
    unfold same_static in *. simpl. done.
  - lia.
Qed.

Lemma execute_payment_shape (fuel : nat) net from_id to_id amount net' r :
  Network.execute_payment fuel net from_id to_id amount = Some (net', r) →
  same_shape net net'.
Proof.
  unfold Network.execute_payment. intros H.
  destruct (Network.find_path fuel net _ _ _) as [[[[path cost]|]|]|]; simplify_eq;
    try apply same_shape_refl.
  destruct (Network.hops net path _ amount) as [net1 [[]|]] eqn:Hh; simplify_eq;
    by eapply hops_shape.
Qed.

Lemma execute_payment_balanced (fuel : nat) net from_id to_id amount net' r :
  balanced net → fees_nonneg net → 0 ≤ amount →
  Network.execute_payment fuel net from_id to_id amount = Some (net', r) →
  balanced net'.
Proof.
  unfold Network.execute_payment. intros Hb Hf Ha H.
  destruct (Network.find_path fuel net _ _ _) as [[[[path cost]|]|]|]; simplify_eq; try done.
  destruct (Network.hops net path _ amount) as [net1 [[]|]] eqn:Hh; simplify_eq;
    by eapply hops_balanced.
Qed.

(** *** The transaction manager *)

Lemma enqueue_eq (net : Network.t) (txs : list (string * string * Z)) :
  enqueue net txs = TransactionManager.mk net txs [].
Proof.
  unfold enqueue, TransactionManager.init.
  change txs with ([] ++ txs) at 2. generalize (@nil (string * string * Z)) as q.
  induction txs as [|[[f t] a] txs IH]; intros q; simpl.
  - by rewrite app_nil_r.
  - unfold TransactionManager.add_transaction at 2. simpl.
    rewrite IH. by rewrite <- app_assoc.
Qed.

(** A property of the network that every payment with an amount in [Q]
    keeps is kept by a whole sequential run over such amounts. *)
Lemma process_all_preserves (P : Network.t → Prop) (Q : Z → Prop) (fuel : nat) :
  (∀ net from_id to_id amount net' r, P net → Q amount →
     Network.execute_payment fuel net from_id to_id amount = Some (net', r) → P net') →
  ∀ txs self self' r, Forall (λ tx, Q tx.2) txs → P (TransactionManager.network self) →
    TransactionManager.process_all fuel self txs = Some (self', r) →
    P (TransactionManager.network self').
Proof.
  intros Hstep. induction txs as [|[[f t] a] txs IH]; intros self self' r Hnn HP H; simpl in H.
  { by simplify_eq. }
  apply Forall_cons in Hnn as [Ha Hnn]. simpl in Ha.
  unfold TransactionManager.process_tx in H.
  destruct (Network.execute_payment fuel _ f t a) as [[net1 [[s fees]|e]]|] eqn:He;
    simplify_eq.
  - eapply IH; [done| |done]. simpl. by eapply Hstep.
  - simpl. by eapply Hstep.
Qed.

Lemma simulate_preserves (P : Network.t → Prop) (Q : Z → Prop) (fuel : nat) :
  (∀ net from_id to_id amount net' r, P net → Q amount →
     Network.execute_payment fuel net from_id to_id amount = Some (net', r) → P net') →
  ∀ self self' r, Forall (λ tx, Q tx.2) (TransactionManager.transaction_queue self) →
    P (TransactionManager.network self) →
    TransactionManager.simulate fuel self = Some (self', r) →
    P (TransactionManager.network self').
Proof.
  intros Hstep self self' r Hnn HP H. unfold TransactionManager.simulate in H. simpl in H.
  destruct (TransactionManager.process_all fuel _ _) as [[self1 [[]|e]]|] eqn:Hp;
    simplify_eq; simpl; by eapply (process_all_preserves P Q fuel Hstep) in Hp.
Qed.

(** *** Construction *)

Lemma add_node_channels (net : Network.t) node_id :
  Network.channels (Network.add_node net node_id).1 = Network.channels net.
Proof. unfold Network.add_node. by destruct (Network.nodes net !! node_id). Qed.

Lemma add_channel_channels (net : Network.t) a b capacity balance_a balance_b base_fee
    fee_rate :
  let net' := (Network.add_channel net a b capacity balance_a balance_b base_fee fee_rate).1 in
  Network.channels net' = Network.channels net
  ∨ ∃ cid, Network.channels net !! cid = None
      ∧ balance_a + balance_b = capacity
      ∧ Network.channels net'
        = <[cid := Channel.mk a b capacity balance_a balance_b base_fee fee_rate cid 0]>
            (Network.channels net).
Proof.
  unfold Network.add_channel, Channel.init.
  destruct (Network.nodes net !! a); [|by left].
  destruct (Network.nodes net !! b); [|by left].
  destruct (Network.channels net !! _) eqn:Hc; [by left|].
  destruct (balance_a + balance_b =? capacity) eqn:Hsum; simpl; [|by left].
  apply Z.eqb_eq in Hsum.
  right. eexists. split; [exact Hc|]. split; [done|].
  repeat case_match; reflexivity.
Qed.

Lemma change_fee_channels (node : Node.t) (store store' : gmap string Channel.t) other b r :
  change_fee node store other b r = Ok store' →
  ∃ cid c, store !! cid = Some c ∧ store' = <[cid := Channel.set_fees c b r]> store.
Proof.
  unfold change_fee. intros H. repeat case_match; simplify_eq. eauto.
Qed.

Lemma step_sound (fuel : nat) (net net' : Network.t) (o : op) :
  sound net → op_nonneg o → step fuel net o = Some net' → sound net'.
Proof.
  intros [Hb Hf] Ho H. destruct o; simpl in *.
  - simplify_eq. unfold sound, balanced, fees_nonneg. by rewrite add_node_channels.
  - simplify_eq. destruct Ho as (Ha & Hb' & Hbase & Hrate).
    destruct (add_channel_channels net node_a_id node_b_id capacity balance_a balance_b
                base_fee fee_rate) as [Heq|(cid & Hnone & Hsum & Heq)];
      unfold sound, balanced, fees_nonneg; rewrite Heq; [done|].
    split; intros cid' c'; (destruct (decide (cid = cid')) as [<-|Hne];
      [rewrite lookup_insert_eq; intros [= <-]|rewrite lookup_insert_ne by done; eauto]).
    + by repeat split.
    + by split.
  - destruct (Network.nodes net !! node_id) as [node|]; [|by simplify_eq].
    destruct (change_fee node _ _ _ _) as [store|] eqn:Hcf; [|by simplify_eq].
    simplify_eq. apply change_fee_channels in Hcf as (cid & c & Hc & ->).
    destruct Ho as [Hbase Hrate].
    split; intros cid' c'; simpl; (destruct (decide (cid = cid')) as [<-|Hne];
      [rewrite lookup_insert_eq; intros [= <-]|rewrite lookup_insert_ne by done; eauto]).
    + apply (Hb _ _ Hc).
    + by split.
  - destruct (Network.find_path fuel net _ _ _); by simplify_eq.
  - destruct (Network.execute_payment fuel net _ _ _) as [[net1 r]|] eqn:He;
      simpl in H; simplify_eq.
    split; [by eapply execute_payment_balanced|].
    eapply same_shape_fees; [|done]. by eapply execute_payment_shape.
  - destruct (TransactionManager.simulate fuel _) as [[tm r]|] eqn:Hs;
      simpl in H; simplify_eq.
    eapply (simulate_preserves sound (λ a, 0 ≤ a) fuel); [| | |exact Hs];
      [|by rewrite enqueue_eq..].
    intros n f t a n' r' [Hb1 Hf1] Ha He. split; [by eapply execute_payment_balanced|].
    eapply same_shape_fees; [|done]. by eapply execute_payment_shape.
Qed.

Lemma run_sound (fuel : nat) (ops : list op) :
  ∀ net net', sound net → Forall op_nonneg ops → run fuel net ops = Some net' → sound net'.
Proof.
  induction ops as [|o ops IH]; intros net net' Hs Hnn H; simpl in H; [by simplify_eq|].
  apply Forall_cons in Hnn as [Ho Hnn].
  destruct (step fuel net o) as [net1|] eqn:Hstep; [|done].
  eapply IH; [|done..]. by eapply step_sound.
Qed.

Lemma init_sound : sound Network.init.
Proof. split; intros cid c H; simpl in H; by rewrite lookup_empty in H. Qed.

(** ** References stay consistent *)

Lemma alist_get_app {A} (k : string) (l : list (string * A)) (k' : string) (a : A) :
  alist_get k (l ++ [(k', a)])
  = match alist_get k l with
    | Some x => Some x
    | None => if decide (k' = k) then Some a else None
    end.
Proof.
  induction l as [|[k1 a1] l IH]; simpl; [done|].
  by destruct (decide (k1 = k)).
Qed.

Lemma alist_get_elem {A} (k : string) (l : list (string * A)) :
  k ∈ l.*1 → is_Some (alist_get k l).
Proof.
  induction l as [|[k1 a1] l IH]; simpl; [by intros ?%elem_of_nil|].
  intros [->|Hin]%elem_of_cons.
  - rewrite decide_True by done. eauto.
  - destruct (decide (k1 = k)); eauto.
Qed.

(** Well-formedness looks at the nodes and at the endpoints of the stored
    channels only. *)
Lemma wf_ends (net net' : Network.t) :
  well_formed net → Network.nodes net' = Network.nodes net →
  (∀ cid c, Network.channels net !! cid = Some c →
     ∃ c', Network.channels net' !! cid = Some c'
       ∧ Channel.node_a c' = Channel.node_a c ∧ Channel.node_b c' = Channel.node_b c) →
  well_formed net'.
Proof.
  intros [Hid Hadj] Hn Hc. split; rewrite Hn; [done|].
  intros u v cid Huv. destruct (Hadj u v cid Huv) as (Hv & Hkey & c & Hcid & Hconn).
  split; [done|]. split; [done|].
  destruct (Hc _ _ Hcid) as (c' & Hc' & Ha & Hb).
  exists c'. split; [done|]. unfold connects in *. by rewrite Ha, Hb.
Qed.

Lemma init_wf : well_formed Network.init.
Proof.
  split; simpl.
  - intros k n H. by rewrite lookup_empty in H.
  - intros u v cid (n & H & _). by rewrite lookup_empty in H.
Qed.

Lemma add_node_wf (net : Network.t) (node_id : string) :
  well_formed net → well_formed (Network.add_node net node_id).1.
Proof.
  intros Hwf. unfold Network.add_node.
  destruct (Network.nodes net !! node_id) eqn:Hn; [done|]. simpl.
  destruct Hwf as [Hid Hadj]. split; simpl.
  - intros k n. destruct (decide (node_id = k)) as [<-|Hne].
    + rewrite lookup_insert_eq. by intros [= <-].
    + rewrite lookup_insert_ne by done. apply Hid.
  - intros u v cid (n & Hu & Hget). destruct (decide (node_id = u)) as [<-|Hne].
    + rewrite lookup_insert_eq in Hu. by simplify_eq.
    + rewrite lookup_insert_ne in Hu by done.
      destruct (Hadj u v cid) as (Hv & Hrest); [by exists n|].
      split; [|done]. rewrite lookup_insert_is_Some. destruct (decide (node_id = v)); auto.
Qed.

Lemma wf_new_channel (net : Network.t) cid c :
  well_formed net → Network.channels net !! cid = None →
  well_formed (Network.mk (Network.nodes net) (<[cid := c]> (Network.channels net))).
Proof.
  intros Hwf Hnone. eapply wf_ends; [done|done|].
  intros cid' c' Hc'. exists c'. simpl.
  rewrite lookup_insert_ne by congruence. done.
Qed.

Lemma wf_new_adjacency (net : Network.t) (u : string) (node node' : Node.t) cid c :
  well_formed net → Network.nodes net !! u = Some node →
  Node.add_channel node cid c = Ok node' →
  Network.channels net !! cid = Some c →
  cid = channel_key (Channel.node_a c) (Channel.node_b c) →
  is_Some (Network.nodes net !! Channel.node_a c) →
  is_Some (Network.nodes net !! Channel.node_b c) →
  well_formed (Network.mk (<[u := node']> (Network.nodes net)) (Network.channels net)).
Proof.
  intros [Hid Hadj] Hu Hadd Hc Hkey Ha Hb.
  pose proof (Hid _ _ Hu) as Hnid.
  unfold Node.add_channel in Hadd.
  destruct (_ && _) eqn:Hends; [done|].
  destruct (Channel.get_other_node c (Node.node_id node)) as [other|] eqn:Hother; [|done].
  destruct (alist_get other (Node.channels node)) eqn:Hfree; [done|]. simplify_eq.
  assert (is_Some (Network.nodes net !! other) ∧ connects c (Node.node_id node) other
          ∧ channel_key (Channel.node_a c) (Channel.node_b c)
            = channel_key (Node.node_id node) other) as (Hso & Hconn & Hk).
  { unfold Channel.get_other_node in Hother. unfold connects.
    destruct (decide (Node.node_id node = Channel.node_a c)) as [Heq|Hne]; simplify_eq.
    - rewrite Heq. auto.
    - destruct (decide (Node.node_id node = Channel.node_b c)) as [Heq|Hne']; simplify_eq.
      rewrite Heq. split; [done|]. split; [auto|]. apply channel_key_comm. }
  assert (∀ v, is_Some (Network.nodes net !! v) →
            is_Some (<[Node.node_id node := Node.mk (Node.node_id node)
               (Node.channels node ++ [(other, channel_key (Channel.node_a c) (Channel.node_b c))])]>
               (Network.nodes net) !! v)) as Hkeep.
  { intros v Hv. rewrite lookup_insert_is_Some. destruct (decide (Node.node_id node = v)); auto. }
  split; simpl.
  - intros k n. destruct (decide (Node.node_id node = k)) as [<-|Hne].
    + rewrite lookup_insert_eq. by intros [= <-].
    + rewrite lookup_insert_ne by done. apply Hid.
  - intros x v cid (n & Hx & Hget). destruct (decide (Node.node_id node = x)) as [<-|Hne].
    + rewrite lookup_insert_eq in Hx. simplify_eq. simpl in Hget.
      rewrite alist_get_app in Hget.
      destruct (alist_get v (Node.channels node)) as [cid'|] eqn:Hold.
      * simplify_eq. destruct (Hadj (Node.node_id node) v cid) as (Hv & Hrest);
          [by exists node|]. split; [by apply Hkeep|done].
      * destruct (decide (other = v)) as [<-|]; simplify_eq.
        split; [by apply Hkeep|]. split; [done|]. by exists c.
    + rewrite lookup_insert_ne in Hx by done.
      destruct (Hadj x v cid) as (Hv & Hrest); [by exists n|].
      split; [by apply Hkeep|done].
Qed.

Lemma add_channel_wf (net : Network.t) a b capacity balance_a balance_b base_fee fee_rate :
  well_formed net →
  well_formed (Network.add_channel net a b capacity balance_a balance_b base_fee fee_rate).1.
Proof.
  intros Hwf. unfold Network.add_channel.
  destruct (Network.nodes net !! a) as [na|] eqn:Hna; [|done].
  destruct (Network.nodes net !! b) as [nb|] eqn:Hnb; [|done].
  rewrite sorted2_key.
  destruct (Network.channels net !! channel_key a b) eqn:Hfree; [done|].
  unfold Channel.init. destruct (negb _); [done|]. simpl. rewrite Hna.
  set (c := Channel.mk a b capacity balance_a balance_b base_fee fee_rate (channel_key a b) 0).
  pose proof (wf_new_channel net (channel_key a b) c Hwf Hfree) as Hwf1.
  destruct (Node.add_channel na _ c) as [na'|] eqn:Hadd1; [|done]. simpl.
  assert (well_formed (Network.mk (<[a := na']> (Network.nodes net))
                (<[channel_key a b := c]> (Network.channels net)))) as Hwf2.
  { eapply (wf_new_adjacency _ a na na' (channel_key a b) c Hwf1); simpl; eauto.
    by rewrite lookup_insert_eq. }
  destruct (<[a := na']> (Network.nodes net) !! b) as [nb1|] eqn:Hnb1; [|done].
  destruct (Node.add_channel nb1 _ c) as [nb'|] eqn:Hadd2; [|done]. simpl.
  eapply (wf_new_adjacency _ b nb1 nb' (channel_key a b) c Hwf2); simpl; eauto.
  - by rewrite lookup_insert_eq.
  - rewrite lookup_insert_eq. eauto.
Qed.

Lemma built_wf (net : Network.t) : built net → well_formed net.
Proof.
  induction 1; [apply init_wf | by apply add_node_wf | by apply add_channel_wf].
Qed.

Lemma execute_payment_wf (fuel : nat) net from_id to_id amount net' r :
  well_formed net → Network.execute_payment fuel net from_id to_id amount = Some (net', r) → well_formed net'.
Proof.
  intros Hwf H. eapply same_shape_wf; [|done]. by eapply execute_payment_shape.
Qed.

Lemma step_wf (fuel : nat) (net net' : Network.t) (o : op) :
  well_formed net → step fuel net o = Some net' → well_formed net'.
Proof.
  intros Hwf H. destruct o; simpl in *.
  - simplify_eq. by apply add_node_wf.
  - simplify_eq. by apply add_channel_wf.
  - destruct (Network.nodes net !! node_id) as [node|]; [|by simplify_eq].
    destruct (change_fee node _ _ _ _) as [store|] eqn:Hcf; [|by simplify_eq].
    simplify_eq. apply change_fee_channels in Hcf as (cid & c & Hc & ->).
    eapply wf_ends; [done|done|]. intros cid' c' Hc'. simpl.
    destruct (decide (cid = cid')) as [<-|Hne].
    + rewrite lookup_insert_eq. simplify_eq. eauto.
    + rewrite lookup_insert_ne by done. eauto.
  - destruct (Network.find_path fuel net _ _ _); by simplify_eq.
  - destruct (Network.execute_payment fuel net _ _ _) as [[net1 r]|] eqn:He;
      simpl in H; simplify_eq. by eapply execute_payment_wf.
  - destruct (TransactionManager.simulate fuel _) as [[tm r]|] eqn:Hs;
      simpl in H; simplify_eq.
    eapply (simulate_preserves well_formed (λ _, True) fuel); [| | |exact Hs].
    + intros n f t a n' r' Hn _ He. by eapply execute_payment_wf.
    + by apply Forall_true.
    + by rewrite enqueue_eq.
Qed.

Lemma run_wf (fuel : nat) (ops : list op) :
  ∀ net net', well_formed net → run fuel net ops = Some net' → well_formed net'.
Proof.
  induction ops as [|o ops IH]; intros net net' Hwf H; simpl in H; [by simplify_eq|].
  destruct (step fuel net o) as [net1|] eqn:Hstep; [|done].
  eapply IH; [|done]. by eapply step_wf.
Qed.

(** ** The search keeps its references valid *)

Lemma elem_of_heappush (pq : list (Z * string)) (x y : Z * string) :
  x ∈ heappush pq y ↔ x = y ∨ x ∈ pq.
Proof.
  induction pq as [|z pq IH]; simpl.
  - rewrite list_elem_of_singleton, elem_of_nil. tauto.
  - destruct (entry_lt z y); rewrite !elem_of_cons; [rewrite IH|]; tauto.
Qed.

Lemma length_heappush (pq : list (Z * string)) (y : Z * string) :
  length (heappush pq y) = S (length pq).
Proof.
  induction pq as [|z pq IH]; simpl; [done|].
  destruct (entry_lt z y); simpl; by rewrite ?IH.
Qed.

Lemma can_forward_endpoint (c : Channel.t) (u v : string) (amount : Z) :
  connects c u v → ∃ b, Channel.can_forward c v amount = Ok b.
Proof.
  unfold Channel.can_forward. intros [[Ha Hb]|[Ha Hb]].
  - destruct (decide (v = Channel.node_a c)); [eauto|].
    rewrite decide_True by done. eauto.
  - rewrite decide_True by done. eauto.
Qed.

Lemma update_balances_endpoint (c : Channel.t) (u v : string) (amount : Z) :
  connects c u v → ∃ c', Channel.update_balances c v amount = Ok c'.
Proof.
  unfold Channel.update_balances. intros [[Ha Hb]|[Ha Hb]].
  - destruct (decide (v = Channel.node_a c)); [destruct (_ <? _); eauto|].
    rewrite decide_True by done. destruct (_ <? _); eauto.
  - rewrite decide_True by done. destruct (_ <? _); eauto.
Qed.

(** What one pass of the inner loop can do to the state: nothing, or lower
    the label of [v] and make [u] its predecessor. *)
Lemma relax_cases (net : Network.t) (u v : string) (st st' : Network.search) :
  Network.relax net u v st = Ok st' →
  st' = st
  ∨ ∃ cid c du dv,
      adjacent (Network.nodes net) u v cid
      ∧ Network.channels net !! cid = Some c
      ∧ Network.dist st !! u = Some (Fin du)
      ∧ Network.dist st !! v = Some dv
      ∧ lt_ext (du + Channel.calculate_fee c du) dv = true
      ∧ st' = Network.mkSearch
                (<[v := Fin (du + Channel.calculate_fee c du)]> (Network.dist st))
                (<[v := Some u]> (Network.pred st))
                (heappush (Network.pq st) (du + Channel.calculate_fee c du, v)).
Proof.
  unfold Network.relax. intros H.
  destruct (Network.nodes net !! u) as [node_u|] eqn:Hu; [|done].
  destruct (alist_get v (Node.channels node_u)) as [cid|] eqn:Hv; [|done].
  destruct (Network.channels net !! cid) as [c|] eqn:Hc; [|done].
  destruct (Network.dist st !! u) as [[du|]|] eqn:Hdu; [| by simplify_eq; left | done].
  destruct (Network.nodes net !! v) as [node_v|] eqn:Hnv; [|done].
  destruct (Channel.can_forward c _ du) as [[]|]; [| by simplify_eq; left | done].
  destruct (Network.dist st !! v) as [dv|] eqn:Hdv; [|done].
  destruct (lt_ext _ dv) eqn:Hlt; simplify_eq; [|by left].
  right. exists cid, c, du, dv. repeat split; try done. by exists node_u.
Qed.

Lemma relax_ok (net : Network.t) (u v : string) (node_u : Node.t) (st : Network.search) :
  well_formed net → search_inv net st →
  Network.nodes net !! u = Some node_u → v ∈ Node.get_neighbors node_u →
  ∃ st', Network.relax net u v st = Ok st'.
Proof.
  intros Hwf Hinv Hu Hv. unfold Network.relax. rewrite Hu.
  destruct (alist_get_elem v (Node.channels node_u) Hv) as [cid Hcid]. rewrite Hcid.
  destruct (wf_adjacent _ Hwf u v cid) as ([node_v Hnv] & _ & c & Hc & Hconn);
    [by exists node_u|].
  rewrite Hc.
  destruct (proj2 (si_dist_dom _ _ Hinv u)) as [du Hdu]; [eauto|]. rewrite Hdu.
  destruct du as [du|]; [|eauto]. rewrite Hnv.
  rewrite (wf_node_id _ Hwf _ _ Hnv).
  destruct (can_forward_endpoint c u v du Hconn) as [b ->].
  destruct b; [|eauto].
  destruct (proj2 (si_dist_dom _ _ Hinv v)) as [dv Hdv]; [eauto|]. rewrite Hdv.
  destruct (lt_ext _ dv); eauto.
Qed.

Lemma relax_search_inv (net : Network.t) (u v : string) (st st' : Network.search) :
  search_inv net st → Network.relax net u v st = Ok st' → search_inv net st'.
Proof.
  intros Hinv H.
  destruct (relax_cases _ _ _ _ _ H) as [->|(cid & c & du & dv & Hadj & Hc & Hdu & Hdv & Hlt & ->)];
    [done|].
  destruct Hinv as [Hd Hp Hq Ha].
  assert (is_Some (Network.nodes net !! v)) as Hv by (apply Hd; eauto).
  split; simpl.
  - intros k. rewrite lookup_insert_is_Some. rewrite <- Hd.
    destruct (decide (v = k)) as [<-|]; [|tauto]. split; eauto.
  - intros k. rewrite lookup_insert_is_Some. rewrite <- Hp.
    destruct (decide (v = k)) as [<-|]; [|tauto]. split; [intros _|auto]. by apply Hp.
  - intros d x [Heq|Hin]%elem_of_heappush; [by simplify_eq|by eapply Hq].
  - intros x y. destruct (decide (v = x)) as [<-|Hne].
    + rewrite lookup_insert_eq. intros [= <-]. eauto.
    + rewrite lookup_insert_ne by done. apply Ha.
Qed.

Lemma relax_all_ok (net : Network.t) (u : string) (node_u : Node.t) (vs : list string) :
  well_formed net → Network.nodes net !! u = Some node_u → vs ⊆ Node.get_neighbors node_u →
  ∀ st, search_inv net st →
    ∃ st', Network.relax_all net u vs st = Ok st' ∧ search_inv net st'.
Proof.
  intros Hwf Hu. induction vs as [|v vs IH]; intros Hsub st Hinv; simpl; [eauto|].
  destruct (relax_ok net u v node_u st Hwf Hinv Hu) as [st1 H1]; [set_solver|].
  rewrite H1. apply IH; [set_solver|]. by eapply relax_search_inv.
Qed.

Lemma search_loop_ok (fuel : nat) (net : Network.t) :
  well_formed net → ∀ st r, search_inv net st →
    Network.search_loop fuel net st = Some r →
    ∃ st', r = Ok st' ∧ search_inv net st'.
Proof.
  intros Hwf. induction fuel as [|fuel IH]; intros st r Hinv H; simpl in H; [done|].
  destruct (Network.pq st) as [|[cur_dist u] pq'] eqn:Hpq; simpl in H; [by simplify_eq; eauto|].
  assert (search_inv net (Network.mkSearch (Network.dist st) (Network.pred st) pq')) as Hinv1.
  { destruct Hinv as [Hd Hp Hq Ha]. split; simpl; try done.
    intros d x Hin. apply (Hq d x). rewrite Hpq. by apply elem_of_cons; right. }
  destruct (si_pq _ _ Hinv cur_dist u) as [node_u Hu]; [rewrite Hpq; by apply elem_of_cons; left|].
  destruct (proj2 (si_dist_dom _ _ Hinv u)) as [du Hdu]; [eauto|].
  rewrite Hdu, Hu in H.
  destruct (gt_ext cur_dist du); [by eapply IH|].
  destruct (relax_all_ok net u node_u (Node.get_neighbors node_u) Hwf Hu ltac:(done) _ Hinv1)
    as (st2 & Hr & Hinv2).
  rewrite Hr in H. by eapply IH.
Qed.

Lemma search_init_inv (net : Network.t) (to_id : string) (amount : Z) :
  is_Some (Network.nodes net !! to_id) →
  search_inv net (Network.mkSearch
    (<[to_id := Fin amount]> ((λ _, Inf) <$> Network.nodes net))
    ((λ _, None) <$> Network.nodes net) [(amount, to_id)]).
Proof.
  intros Hto. split; simpl.
  - intros k. rewrite lookup_insert_is_Some, lookup_fmap, fmap_is_Some.
    destruct (decide (to_id = k)) as [<-|]; tauto.
  - intros k. by rewrite lookup_fmap, fmap_is_Some.
  - intros d u Hin%list_elem_of_singleton. by simplify_eq.
  - intros v u. rewrite lookup_fmap. destruct (Network.nodes net !! v); by simpl.
Qed.

(** ** The path that [find_path] returns *)

Lemma reconstruct_ok (fuel : nat) (pred : gmap string (option string)) :
  (∀ v u, pred !! v = Some (Some u) → is_Some (pred !! u)) →
  ∀ current path r, is_Some (pred !! current) →
    Network.reconstruct fuel pred current path = Some r →
    ∃ p, r = Ok (path ++ p) ∧ pred_path pred current p.
Proof.
  intros Hclosed. induction fuel as [|fuel IH]; intros current path r Hcur H; simpl in H;
    [done|].
  destruct (pred !! current) as [[next|]|] eqn:Hp; [| |by destruct Hcur].
  - destruct (IH next (path ++ [current]) r) as (p & -> & Hpp); [by eapply Hclosed|done|].
    exists (current :: p). split; [by rewrite <- app_assoc|]. by econstructor.
  - simplify_eq. exists [current]. split; [done|]. by constructor.
Qed.

Lemma pred_path_head pred (v : string) (p : list string) :
  pred_path pred v p → head p = Some v.
Proof. by destruct 1. Qed.

Lemma pred_path_linked (net : Network.t) (st : Network.search) (v : string) (p : list string) :
  search_inv net st → pred_path (Network.pred st) v p → linked (Network.nodes net) p.
Proof.
  intros Hinv. induction 1 as [v Hv|v u p Hv Hp IH]; intros i x y Hx Hy.
  - destruct i; simpl in Hy; by rewrite ?lookup_nil in Hy.
  - destruct i as [|i]; simpl in Hx, Hy.
    + simplify_eq. apply pred_path_head in Hp. rewrite <- head_lookup in Hy.
      rewrite Hp in Hy. simplify_eq. by apply (si_pred_adj _ _ Hinv).
    + by eapply IH.
Qed.

Lemma find_path_ok (fuel : nat) (net : Network.t) from_id to_id amount r :
  well_formed net → Network.find_path fuel net from_id to_id amount = Some r →
  r = Ok None
  ∨ ∃ path cost, r = Ok (Some (path, cost))
      ∧ linked (Network.nodes net) path
      ∧ head path = Some from_id ∧ last path = Some to_id.
Proof.
  intros Hwf H. unfold Network.find_path in H.
  destruct (Network.nodes net !! from_id) as [nf|] eqn:Hf; [|by simplify_eq; left].
  destruct (Network.nodes net !! to_id) as [nt|] eqn:Ht; [|by simplify_eq; left].
  destruct (Network.search_loop fuel net _) as [rs|] eqn:Hs; [|done].
  destruct (search_loop_ok fuel net Hwf _ _ (search_init_inv net to_id amount ltac:(eauto)) Hs)
    as (st & -> & Hinv).
  destruct (proj2 (si_dist_dom _ _ Hinv from_id)) as [df Hdf]; [eauto|]. rewrite Hdf in H.
  destruct df as [cost|]; [|by simplify_eq; left].
  destruct (Network.reconstruct fuel _ _ _) as [rp|] eqn:Hr; [|done].
  destruct (reconstruct_ok fuel (Network.pred st)) with (3 := Hr) as (p & -> & Hpp).
  { intros v u Hvu. apply (si_pred_dom _ _ Hinv).
    destruct (si_pred_adj _ _ Hinv v u Hvu) as (cid & nu & Hnu & _). eauto. }
  { apply (si_pred_dom _ _ Hinv). eauto. }
  simpl in H. destruct (last p) as [l|] eqn:Hl;
    [|apply last_None in Hl; subst p; by apply pred_path_head in Hpp].
  destruct (bool_decide (l ≠ to_id)) eqn:Hd; simplify_eq; [by left|].
  right. exists p, cost. split; [done|].
  split; [by eapply pred_path_linked|]. split; [by eapply pred_path_head|].
  apply bool_decide_eq_false in Hd. rewrite Hl. f_equal. by destruct (decide (l = to_id)).
Qed.

(** On a well-formed network the walk over a linked path finds every
    channel, raises nothing and runs to its end. *)
Lemma hops_ok (path : list string) :
  ∀ i net cur, well_formed net → linked (Network.nodes net) path → (i < length path)%nat →
    ∃ net', Network.hops net path i cur = (net', Ok true).
Proof.
  induction i as [|i IH]; intros net cur Hwf Hl Hi; simpl; [eauto|].
  destruct (lookup_lt_is_Some_2 path (S i) Hi) as [recv Hrecv].
  destruct (lookup_lt_is_Some_2 path i ltac:(lia)) as [sender Hsender].
  rewrite Hrecv, Hsender.
  destruct (Hl i sender recv Hsender Hrecv) as (cid & Hadj).
  destruct (wf_adjacent _ Hwf _ _ _ Hadj) as ([ns Hns] & Hkey & c & Hc & Hconn).
  fold (channel_key sender recv). rewrite (channel_key_comm sender recv), <- Hkey, Hc, Hns.
  rewrite (wf_node_id _ Hwf _ _ Hns).
  destruct (update_balances_endpoint c recv sender (cur + Channel.calculate_fee c cur) Hconn)
    as [c' Hu].
  rewrite Hu. apply IH; [|done|lia].
  eapply same_shape_wf; [|done]. eapply same_shape_update; [done|].
  destruct (update_balances_static _ _ _ _ Hu) as [Hs _]. unfold same_static in *. by simpl.
Qed.

Lemma head_length {A} (l : list A) (x : A) : head l = Some x → (length l - 1 < length l)%nat.
Proof. destruct l; simpl; [done|lia]. Qed.

Lemma execute_payment_ok (fuel : nat) (net : Network.t) from_id to_id amount r :
  well_formed net → Network.execute_payment fuel net from_id to_id amount = Some r →
  r = (net, Ok (false, 0))
  ∨ ∃ path cost net',
      Network.find_path fuel net from_id to_id amount = Some (Ok (Some (path, cost)))
      ∧ Network.hops net path (length path - 1) amount = (net', Ok true)
      ∧ r = (net', Ok (true, cost - amount)).
Proof.
  intros Hwf H. unfold Network.execute_payment in H.
  destruct (Network.find_path fuel net _ _ _) as [rp|] eqn:Hp; [|done].
  destruct (find_path_ok _ _ _ _ _ _ Hwf Hp) as [->|(path & cost & -> & Hl & Hh & _)];
    [by simplify_eq; left|].
  right. destruct (hops_ok path (length path - 1) net amount Hwf Hl) as [net' Hhops];
    [by eapply head_length|].
  rewrite Hhops in H. simplify_eq. by exists path, cost, net'.
Qed.

Lemma built_run_wf (fuel : nat) (net0 net : Network.t) (ops : list op) :
  built net0 → run fuel net0 ops = Some net → well_formed net.
Proof. intros Hb Hr. eapply run_wf; [|done]. by apply built_wf. Qed.

(** C9: on a network built through [add_node] and [add_channel], and then
    used sequentially, every two consecutive nodes of a path returned by
    [find_path] have a channel stored under the key of their sorted pair;
    the walk of [execute_payment] over the path therefore never leaves
    through its abort branch: it runs to the end and the payment returns
    success. *)
Theorem found_path_has_channels (net0 net : Network.t) (ops : list op) (fuel0 fuel : nat)
    (from_id to_id : string) (amount : Z) (path : list string) (cost : Z) :
  built net0 → run fuel0 net0 ops = Some net →
  Network.find_path fuel net from_id to_id amount = Some (Ok (Some (path, cost))) →
  (∀ i x y, path !! i = Some x → path !! S i = Some y →
     is_Some (Network.channels net !! Network.make_channel_id (py_min x y) (py_max x y)))
  ∧ ∃ net', Network.hops net path (length path - 1) amount = (net', Ok true)
      ∧ Network.execute_payment fuel net from_id to_id amount
        = Some (net', Ok (true, cost - amount)).
Proof.
  intros Hb Hr Hp. pose proof (built_run_wf _ _ _ _ Hb Hr) as Hwf.
  destruct (find_path_ok _ _ _ _ _ _ Hwf Hp) as [?|(p & c & Heq & Hl & Hh & _)]; [done|].
  simplify_eq. split.
  - intros i x y Hx Hy. destruct (Hl i x y Hx Hy) as (cid & Hadj).
    destruct (wf_adjacent _ Hwf _ _ _ Hadj) as (_ & Hkey & ch & Hc & _).
    fold (channel_key x y). rewrite channel_key_comm, <- Hkey. eauto.
  - destruct (hops_ok p (length p - 1) net amount Hwf Hl) as [net' Hhops];
      [by eapply head_length|].
    exists net'. split; [done|]. unfold Network.execute_payment. by rewrite Hp, Hhops.
Qed.

Lemma scenario_built : built scenario.
Proof. unfold scenario. repeat constructor. Qed.

Lemma tight_built : built tight.
Proof. unfold tight. repeat constructor. Qed.

Lemma found_path_has_channels_witness :
  is_Some (Network.channels scenario !! "A-B")
  ∧ is_Some (Network.channels scenario !! "B-C").
Proof.
  destruct (found_path_has_channels scenario scenario [] 0 4 "A" "C" 100 ["A"; "B"; "C"] 111
              scenario_built eq_refl) as [H _]; [vm_compute; reflexivity|].
  split; [exact (H 0%nat "A" "B" eq_refl eq_refl) | exact (H 1%nat "B" "C" eq_refl eq_refl)].
Defined.

(** ** Failed payments *)

(** C5: on a network built through the interface and used sequentially, a
    payment that returns [(False, 0)] leaves the network, and so every
    balance and every [fee_earned], exactly as it was; repeating it gives
    the same answer and again changes nothing. *)
Theorem failed_payment_no_change (net0 net net' : Network.t) (ops : list op) (fuel0 fuel : nat)
    (from_id to_id : string) (amount : Z) :
  built net0 → run fuel0 net0 ops = Some net →
  Network.execute_payment fuel net from_id to_id amount = Some (net', Ok (false, 0)) →
  net' = net
  ∧ (∀ cid, channel_state net' cid = channel_state net cid)
  ∧ Network.execute_payment fuel net' from_id to_id amount = Some (net', Ok (false, 0)).
Proof.
  intros Hb Hr He. pose proof (built_run_wf _ _ _ _ Hb Hr) as Hwf.
  destruct (execute_payment_ok _ _ _ _ _ _ Hwf He) as [Heq|(p & c & n & _ & _ & Heq)];
    simplify_eq.
  by rewrite He.
Qed.

Lemma failed_payment_no_change_witness :
  ∃ net', Network.execute_payment 4 scenario "A" "C" 1000 = Some (net', Ok (false, 0))
    ∧ channel_state net' "A-B" = Some (500, 500, 0)
    ∧ channel_state net' "B-C" = Some (500, 500, 0).
Proof.
  exists scenario.
  assert (He : Network.execute_payment 4 scenario "A" "C" 1000 = Some (scenario, Ok (false, 0)))
    by (vm_compute; reflexivity).
  destruct (failed_payment_no_change scenario scenario scenario [] 0 4 "A" "C" 1000
              scenario_built eq_refl He) as (_ & Hst & _).
  split; [exact He|]. split; reflexivity.
Defined.

(** ** Degenerate requests *)


Lemma find_path_absent (fuel : nat) (net : Network.t) (from_id to_id : string) (amount : Z) :
  Network.nodes net !! from_id = None ∨ Network.nodes net !! to_id = None →
  Network.find_path fuel net from_id to_id amount = Some (Ok None).
Proof.
  unfold Network.find_path. intros [->| ->]; [done|].
  by destruct (Network.nodes net !! from_id).
Qed.

(** ** A payment that succeeds without moving anything *)

(** C10: in the two-node network whose sender side holds exactly the
    amount, the search accepts the hop because it checks the amount without
    the hop's fee; the walk then asks the channel to move amount plus fee,
    which the sender's side cannot cover, so [update_balances] returns
    early.  The payment still returns success with the fee, the fee is
    added to [fee_earned], and the receiver's balance is what it was. *)
Theorem success_with_silent_hop :
  ∃ (net net' : Network.t) (from_id to_id : string) (amount : Z) (fuel : nat) (c : Channel.t),
    built net
    ∧ Network.channels net !! "A-B" = Some c
    ∧ Channel.calculate_fee c amount = 10
    ∧ Channel.can_forward c from_id amount = Ok true
    ∧ Channel.can_forward c from_id (amount + 10) = Ok false
    ∧ Channel.update_balances c from_id (amount + 10) = Ok c
    ∧ Network.find_path fuel net from_id to_id amount
      = Some (Ok (Some ([from_id; to_id], amount + 10)))
    ∧ Network.execute_payment fuel net from_id to_id amount = Some (net', Ok (true, 10))
    ∧ channel_state net "A-B" = Some (100, 0, 0)
    ∧ channel_state net' "A-B" = Some (100, 0, 10).
Proof.
  destruct (Network.execute_payment 3 tight "A" "B" 100) as [[net' r]|] eqn:He;
    [|vm_compute in He; discriminate].
  exists tight, net', "A", "B", 100, 3%nat,
    (Channel.mk "A" "B" 100 100 0 10 0 "A-B" 0).
  split; [apply tight_built|]. do 6 (split; [vm_compute; reflexivity|]).
  vm_compute in He. injection He as <- <-. repeat split; vm_compute; reflexivity.
Qed.

(** ** Fees earned *)

(** C2 at the failing input: the payment of 100 from A to B in the
    two-node network adds the fee 10 to [fee_earned] of the channel although
    the only pass over the channel did not apply its balance update; the
    fees of the applied forwards sum to 0. *)
Theorem fee_earned_without_forward :
  ∃ net', Network.execute_payment 3 tight "A" "B" 100 = Some (net', Ok (true, 10))
    ∧ hop_events tight ["A"; "B"] 1 100 = [mk_hop_event "A-B" 10 (Ok false)]
    ∧ applied_fees "A-B" (hop_events tight ["A"; "B"] 1 100) = 0
    ∧ charged_fees "A-B" (hop_events tight ["A"; "B"] 1 100) = 10
    ∧ channel_state tight "A-B" = Some (100, 0, 0)
    ∧ channel_state net' "A-B" = Some (100, 0, 10).
Proof.
  destruct (Network.execute_payment 3 tight "A" "B" 100) as [[net' r]|] eqn:He;
    [|vm_compute in He; discriminate].
  exists net'. vm_compute in He. injection He as <- <-.
  repeat split; vm_compute; reflexivity.
Qed.

(** ** Labels of the search, when no fee is negative *)

Lemma lt_ext_irrefl (z : Z) : lt_ext z (Fin z) = false.
Proof. simpl. lia. Qed.

(** A chain whose labels all lie below the label of [v] does not pass
    through [v], so it survives a change of [pred] at [v]. *)
Lemma chain_avoid (st : Network.search) (amount : Z) (to_id v : string) (dv : ext) p :
  label_inv amount to_id st → Network.dist st !! v = Some dv →
  ∀ n x dx, chain (Network.pred st) x n →
    Network.dist st !! x = Some (Fin dx) → lt_ext dx dv = true →
    chain (<[v := p]> (Network.pred st)) x n.
Proof.
  intros Hinv Hv. induction n as [|n IH]; intros x dx Hch Hx Hlt; simpl in *.
  - rewrite lookup_insert_ne; [done|]. intros ->. rewrite Hx in Hv. simplify_eq.
    by rewrite lt_ext_irrefl in Hlt.
  - destruct Hch as (w & Hw & Hch). exists w.
    rewrite lookup_insert_ne; [|intros ->; rewrite Hx in Hv; simplify_eq;
      by rewrite lt_ext_irrefl in Hlt].
    split; [done|].
    destruct (li_pred_le _ _ _ Hinv x w Hw) as (dw & dx' & Hdw & Hdx' & Hle).
    rewrite Hx in Hdx'. simplify_eq. eapply IH; [done..|].
    destruct dv; simpl in *; lia.
Qed.

Lemma chain_redirect (pred : gmap string (option string)) (v : string) p (k : nat) :
  chain (<[v := p]> pred) v k →
  ∀ n x, chain pred x n → ∃ m, chain (<[v := p]> pred) x m.
Proof.
  intros Hv. induction n as [|n IH]; intros x Hch; simpl in *.
  - destruct (decide (v = x)) as [<-|Hne]; [eauto|].
    exists 0%nat. simpl. by rewrite lookup_insert_ne.
  - destruct (decide (v = x)) as [<-|Hne]; [eauto|].
    destruct Hch as (w & Hw & Hch). destruct (IH w Hch) as [m Hm].
    exists (S m). simpl. exists w. by rewrite lookup_insert_ne.
Qed.

Lemma relax_label_inv (net : Network.t) (amount : Z) (to_id u v : string)
    (st st' : Network.search) :
  fees_nonneg net → 0 ≤ amount → label_inv amount to_id st →
  Network.relax net u v st = Ok st' → label_inv amount to_id st'.
Proof.
  intros Hf Ha Hinv H.
  destruct (relax_cases _ _ _ _ _ H)
    as [->|(cid & c & du & dv & Hadj & Hc & Hdu & Hdv & Hlt & ->)]; [done|].
  pose proof (li_lower _ _ _ Hinv u du Hdu) as Hlow.
  pose proof (calculate_fee_nonneg c du (Hf _ _ Hc) ltac:(lia)) as Hfee.
  set (nd := du + Channel.calculate_fee c du) in *.
  assert (v ≠ u) as Hvu.
  { intros ->. rewrite Hdu in Hdv. simplify_eq. simpl in Hlt. lia. }
  assert (v ≠ to_id) as Hvt.
  { intros ->. destruct (li_target _ _ _ Hinv) as [Ht _]. rewrite Ht in Hdv.
    simplify_eq. simpl in Hlt. lia. }
  destruct (li_chain _ _ _ Hinv u du Hdu) as [n Hn].
  assert (chain (<[v := Some u]> (Network.pred st)) v (S n)) as Hchv.
  { simpl. exists u. rewrite lookup_insert_eq. split; [done|].
    eapply chain_avoid; [done..|]. destruct dv; simpl in *; lia. }
  split; simpl.
  - intros x z. destruct (decide (v = x)) as [<-|Hne].
    + rewrite lookup_insert_eq. intros [= <-]. lia.
    + rewrite lookup_insert_ne by done. apply (li_lower _ _ _ Hinv).
  - rewrite !lookup_insert_ne by done. apply (li_target _ _ _ Hinv).
  - intros x y. destruct (decide (v = x)) as [<-|Hne].
    + rewrite lookup_insert_eq. intros [= <-]. exists du, nd.
      rewrite lookup_insert_ne, lookup_insert_eq by done. split; [done|]. split; [done|]. lia.
    + rewrite lookup_insert_ne by done. intros Hxy.
      destruct (li_pred_le _ _ _ Hinv x y Hxy) as (dy & dx & Hdy & Hdx & Hle).
      rewrite (lookup_insert_ne _ v x) by done.
      destruct (decide (v = y)) as [<-|Hne'].
      * rewrite lookup_insert_eq. exists nd, dx. split; [done|]. split; [done|].
        rewrite Hdy in Hdv. simplify_eq. simpl in Hlt. lia.
      * rewrite lookup_insert_ne by done. eauto.
  - intros x z. destruct (decide (v = x)) as [<-|Hne]; [eauto|].
    rewrite lookup_insert_ne by done. intros Hx.
    destruct (li_chain _ _ _ Hinv x z Hx) as [m Hm].
    by eapply chain_redirect.
Qed.

Lemma search_init_label_inv (net : Network.t) (to_id : string) (amount : Z) :
  is_Some (Network.nodes net !! to_id) →
  label_inv amount to_id (Network.mkSearch
    (<[to_id := Fin amount]> ((λ _, Inf) <$> Network.nodes net))
    ((λ _, None) <$> Network.nodes net) [(amount, to_id)]).
Proof.
  intros [nt Hto]. split; simpl.
  - intros v z. destruct (decide (to_id = v)) as [<-|Hne].
    + rewrite lookup_insert_eq. intros [= <-]. lia.
    + rewrite lookup_insert_ne, lookup_fmap by done.
      destruct (Network.nodes net !! v); by simpl.
  - rewrite lookup_insert_eq, lookup_fmap, Hto. done.
  - intros v u. rewrite lookup_fmap. destruct (Network.nodes net !! v); by simpl.
  - intros v z. destruct (decide (to_id = v)) as [<-|Hne].
    + intros _. exists 0%nat. simpl. by rewrite lookup_fmap, Hto.
    + rewrite lookup_insert_ne, lookup_fmap by done.
      destruct (Network.nodes net !! v); by simpl.
Qed.

(** ** Termination of the search *)

Lemma msum_insert (f : ext → nat) (m : gmap string ext) (k : string) (d d' : ext) :
  m !! k = Some d → (msum f (<[k := d']> m) + f d = msum f m + f d')%nat.
Proof.
  intros Hk. unfold msum.
  rewrite <- (insert_delete_eq m k d').
  rewrite map_fold_insert_L; [|intros; lia|apply lookup_delete_eq].
  rewrite (map_fold_delete_L _ _ k d m); [lia|intros; lia|done].
Qed.

Lemma lt3_wf : well_founded lt3.
Proof. apply wf_slexprod; [apply wf_slexprod; apply lt_wf | apply lt_wf]. Qed.

Lemma lt2_trans (a b c : nat * nat) : lt2 a b → lt2 b c → lt2 a c.
Proof.
  unfold lt2. intros H1 H2. inversion H1; subst; inversion H2; subst.
  - apply left_slex. lia.
  - by apply left_slex.
  - by apply left_slex.
  - apply right_slex. lia.
Qed.

Lemma relax_measure (net : Network.t) (amount : Z) (to_id u v : string)
    (st st' : Network.search) :
  fees_nonneg net → 0 ≤ amount → label_inv amount to_id st →
  Network.relax net u v st = Ok st' →
  st' = st
  ∨ lt2 (dist_measure amount (Network.dist st')) (dist_measure amount (Network.dist st)).
Proof.
  intros Hf Ha Hinv H.
  destruct (relax_cases _ _ _ _ _ H)
    as [->|(cid & c & du & dv & Hadj & Hc & Hdu & Hdv & Hlt & ->)]; [by left|].
  right. simpl.
  pose proof (li_lower _ _ _ Hinv u du Hdu) as Hlow.
  pose proof (calculate_fee_nonneg c du (Hf _ _ Hc) ltac:(lia)) as Hfee.
  set (nd := du + Channel.calculate_fee c du) in *.
  pose proof (msum_insert count_inf _ v dv (Fin nd) Hdv) as Hci.
  pose proof (msum_insert (excess amount) _ v dv (Fin nd) Hdv) as Hex.
  unfold lt2, dist_measure. destruct dv as [z|]; simpl in *.
  - assert (msum count_inf (<[v := Fin nd]> (Network.dist st))
            = msum count_inf (Network.dist st)) as -> by lia.
    apply right_slex. lia.
  - apply left_slex. lia.
Qed.

Lemma relax_all_label (net : Network.t) (amount : Z) (to_id u : string) (vs : list string) :
  fees_nonneg net → 0 ≤ amount →
  ∀ st st', label_inv amount to_id st → Network.relax_all net u vs st = Ok st' →
    label_inv amount to_id st'
    ∧ (st' = st
       ∨ lt2 (dist_measure amount (Network.dist st'))
             (dist_measure amount (Network.dist st))).
Proof.
  intros Hf Ha. induction vs as [|v vs IH]; intros st st' Hinv H; simpl in H.
  { simplify_eq. auto. }
  destruct (Network.relax net u v st) as [st1|] eqn:H1; [|done].
  pose proof (relax_label_inv _ _ _ _ _ _ _ Hf Ha Hinv H1) as Hinv1.
  destruct (IH st1 st' Hinv1 H) as [Hinv' Hm']. split; [done|].
  destruct (relax_measure _ _ _ _ _ _ _ Hf Ha Hinv H1) as [->|Hm1]; [done|].
  right. destruct Hm' as [->|Hm']; [done|]. by eapply lt2_trans.
Qed.

(** With fees and an amount that are not negative, the [while] loop of
    the search comes to an end, whatever state it starts in. *)
Lemma search_loop_total (net : Network.t) (amount : Z) (to_id : string) :
  well_formed net → fees_nonneg net → 0 ≤ amount →
  ∀ st, search_inv net st → label_inv amount to_id st →
    ∃ fuel st', Network.search_loop fuel net st = Some (Ok st')
      ∧ search_inv net st' ∧ label_inv amount to_id st'.
Proof.
  intros Hwf Hf Ha st. remember (measure amount st) as m eqn:Hm. revert st Hm.
  induction (lt3_wf m) as [m _ IH]. intros st -> Hsi Hli.
  destruct (Network.pq st) as [|[cur_dist u] pq'] eqn:Hpq.
  { exists 1%nat, st. simpl. by rewrite Hpq. }
  set (st1 := Network.mkSearch (Network.dist st) (Network.pred st) pq').
  assert (search_inv net st1) as Hsi1.
  { destruct Hsi as [Hd Hp Hq Hadj]. split; simpl; try done.
    intros d x Hin. apply (Hq d x). rewrite Hpq. by apply elem_of_cons; right. }
  assert (label_inv amount to_id st1) as Hli1 by (by destruct Hli).
  assert (lt3 (measure amount st1) (measure amount st)) as Hlt1.
  { unfold measure, lt3. rewrite Hpq. simpl. apply right_slex. lia. }
  destruct (si_pq _ _ Hsi cur_dist u) as [node_u Hu];
    [rewrite Hpq; by apply elem_of_cons; left|].
  destruct (proj2 (si_dist_dom _ _ Hsi u)) as [du Hdu]; [eauto|].
  destruct (gt_ext cur_dist du) eqn:Hstale.
  - destruct (IH _ Hlt1 st1 eq_refl Hsi1 Hli1) as (fuel & st' & Hrun & Hinv').
    unfold st1 in *. exists (S fuel), st'. simpl. rewrite Hpq. simpl.
    by rewrite Hdu, Hstale.
  - destruct (relax_all_ok net u node_u (Node.get_neighbors node_u) Hwf Hu ltac:(done) _ Hsi1)
      as (st2 & Hr & Hsi2).
    destruct (relax_all_label _ _ _ _ _ Hf Ha _ _ Hli1 Hr) as [Hli2 Hm2].
    assert (lt3 (measure amount st2) (measure amount st)) as Hlt2.
    { destruct Hm2 as [->|Hm2]; [done|]. unfold measure, lt3. by apply left_slex. }
    destruct (IH _ Hlt2 st2 eq_refl Hsi2 Hli2) as (fuel & st' & Hrun & Hinv').
    unfold st1 in *. exists (S fuel), st'. simpl. rewrite Hpq. simpl.
    by rewrite Hdu, Hstale, Hu, Hr.
Qed.

Lemma reconstruct_total (pred : gmap string (option string)) :
  ∀ n current path, chain pred current n →
    ∃ p, Network.reconstruct (S n) pred current path = Some (Ok (path ++ p))
      ∧ pred_path pred current p.
Proof.
  induction n as [|n IH]; intros current path Hch; simpl in Hch.
  - exists [current]. simpl. rewrite Hch. split; [done|]. by constructor.
  - destruct Hch as (u & Hu & Hch).
    destruct (IH u (path ++ [current]) Hch) as (p & Hp & Hpp).
    exists (current :: p). split; [|by econstructor].
    change (Network.reconstruct (S (S n)) pred current path)
      with (match pred !! current with
            | None => Some (Raise (KeyError current))
            | Some None => Some (Ok (path ++ [current]))
            | Some (Some next) =>
                Network.reconstruct (S n) pred next (path ++ [current])
            end).
    rewrite Hu, Hp. by rewrite <- app_assoc.
Qed.

(** [find_path] returns, without raising, on every well-formed network
    whose fees are not negative, for every amount that is not negative. *)
Lemma find_path_total (net : Network.t) (from_id to_id : string) (amount : Z) :
  well_formed net → fees_nonneg net → 0 ≤ amount →
  ∃ fuel0 res, ∀ fuel, (fuel0 ≤ fuel)%nat →
    Network.find_path fuel net from_id to_id amount = Some (Ok res).
Proof.
  intros Hwf Hf Ha.
  destruct (Network.nodes net !! from_id) as [nf|] eqn:Hfrom;
    [|exists 0%nat, None; intros; apply find_path_absent; auto].
  destruct (Network.nodes net !! to_id) as [nt|] eqn:Hto;
    [|exists 0%nat, None; intros; apply find_path_absent; auto].
  destruct (search_loop_total net amount to_id Hwf Hf Ha _
              (search_init_inv net to_id amount ltac:(eauto))
              (search_init_label_inv net to_id amount ltac:(eauto)))
    as (fuel1 & st & Hrun & Hsi & Hli).
  destruct (proj2 (si_dist_dom _ _ Hsi from_id)) as [df Hdf]; [eauto|].
  destruct df as [cost|].
  - destruct (li_chain _ _ _ Hli from_id cost Hdf) as [n Hn].
    destruct (reconstruct_total _ n from_id [] Hn) as (p & Hp & Hpp).
    exists (fuel1 `max` S n)%nat.
    destruct (last p) as [l|] eqn:Hl;
      [|apply last_None in Hl; subst p; by apply pred_path_head in Hpp].
    exists (if bool_decide (l ≠ to_id) then None else Some (p, cost)).
    intros fuel Hfuel. unfold Network.find_path. rewrite Hfrom, Hto.
    rewrite (search_loop_mono _ fuel _ _ _ Hrun) by lia. rewrite Hdf.
    rewrite (reconstruct_mono _ fuel _ _ _ _ Hp) by lia. simpl. rewrite Hl.
    by destruct (bool_decide (l ≠ to_id)).
  - exists fuel1, None. intros fuel Hfuel. unfold Network.find_path. rewrite Hfrom, Hto.
    rewrite (search_loop_mono _ fuel _ _ _ Hrun) by lia. by rewrite Hdf.
Qed.

(** ** Payments and runs return *)

Lemma execute_payment_total (net : Network.t) (from_id to_id : string) (amount : Z) :
  well_formed net → fees_nonneg net → 0 ≤ amount →
  ∃ fuel0 net' out, ∀ fuel, (fuel0 ≤ fuel)%nat →
    Network.execute_payment fuel net from_id to_id amount = Some (net', Ok out).
Proof.
  intros Hwf Hf Ha.
  destruct (find_path_total net from_id to_id amount Hwf Hf Ha) as (fuel0 & res & Hres).
  destruct res as [[path cost]|].
  - destruct (find_path_ok _ _ _ _ _ _ Hwf (Hres fuel0 ltac:(lia)))
      as [?|(p & c & Heq & Hl & Hh & _)]; [done|]. simplify_eq.
    destruct (hops_ok p (length p - 1) net amount Hwf Hl) as [net' Hhops];
      [by eapply head_length|].
    exists fuel0, net', (true, c - amount). intros fuel Hfuel.
    unfold Network.execute_payment. by rewrite (Hres fuel Hfuel), Hhops.
  - exists fuel0, net, (false, 0). intros fuel Hfuel.
    unfold Network.execute_payment. by rewrite (Hres fuel Hfuel).
Qed.

Lemma execute_payment_sound (fuel : nat) net from_id to_id amount net' r :
  sound net → 0 ≤ amount →
  Network.execute_payment fuel net from_id to_id amount = Some (net', r) → sound net'.
Proof.
  intros [Hb Hf] Ha He. split; [by eapply execute_payment_balanced|].
  eapply same_shape_fees; [|done]. by eapply execute_payment_shape.
Qed.

Lemma process_all_total (txs : list (string * string * Z)) :
  Forall tx_nonneg txs →
  ∀ self, well_formed (TransactionManager.network self) →
    sound (TransactionManager.network self) →
    ∃ fuel0 self', ∀ fuel, (fuel0 ≤ fuel)%nat →
      TransactionManager.process_all fuel self txs = Some (self', Ok tt).
Proof.
  induction 1 as [|[[f t] a] txs Ha Hnn IH]; intros self Hwf Hs.
  { exists 0%nat, self. done. }
  unfold tx_nonneg in Ha. simpl in Ha.
  destruct (execute_payment_total _ f t a Hwf (proj2 Hs) Ha) as (fuel1 & net1 & out & He).
  pose proof (He fuel1 ltac:(lia)) as He1.
  set (self1 := TransactionManager.mk net1 (TransactionManager.transaction_queue self)
        (TransactionManager.log self
           ++ [if out.1 then TransactionManager.success_line f t a out.2
               else TransactionManager.failed_line f t a])).
  destruct (IH self1) as (fuel2 & self' & Hrest).
  { by eapply execute_payment_wf. }
  { by eapply execute_payment_sound. }
  exists (fuel1 `max` fuel2)%nat, self'. intros fuel Hfuel. simpl.
  unfold TransactionManager.process_tx. rewrite (He fuel) by lia.
  destruct out as [success fees]. apply Hrest. lia.
Qed.

Lemma simulate_total (self : TransactionManager.t) :
  Forall tx_nonneg (TransactionManager.transaction_queue self) →
  well_formed (TransactionManager.network self) →
  sound (TransactionManager.network self) →
  ∃ fuel0 self', ∀ fuel, (fuel0 ≤ fuel)%nat →
    TransactionManager.simulate fuel self = Some (self', Ok (TransactionManager.log self')).
Proof.
  intros Hnn Hwf Hs.
  destruct (process_all_total _ Hnn
              (TransactionManager.mk (TransactionManager.network self)
                 (TransactionManager.transaction_queue self) []) Hwf Hs)
    as (fuel0 & self1 & Hrun).
  exists fuel0,
    (TransactionManager.mk (TransactionManager.network self1) [] (TransactionManager.log self1)).
  intros fuel Hfuel. unfold TransactionManager.simulate. simpl.
  by rewrite (Hrun fuel Hfuel).
Qed.

Lemma step_total (net : Network.t) (o : op) :
  well_formed net → sound net → op_nonneg o →
  ∃ fuel0 net', ∀ fuel, (fuel0 ≤ fuel)%nat → step fuel net o = Some net'.
Proof.
  intros Hwf Hs Ho.
  destruct o as [id|a b cap ba bb bf fr|nid other nb nr|f t amount|f t amount|txs];
    simpl in *; try by (exists 0%nat; eexists; intros; reflexivity).
  - exists 0%nat. destruct (Network.nodes net !! nid) as [node|]; [|by eauto].
    destruct (change_fee node _ _ _ _); eauto.
  - destruct (find_path_total net f t amount Hwf (proj2 Hs) Ho)
      as (fuel0 & res & Hres).
    exists fuel0, net. intros fuel Hfuel. by rewrite (Hres fuel Hfuel).
  - destruct (execute_payment_total net f t amount Hwf (proj2 Hs) Ho)
      as (fuel0 & net' & out & Hres).
    exists fuel0, net'. intros fuel Hfuel. by rewrite (Hres fuel Hfuel).
  - destruct (simulate_total (enqueue net txs)) as (fuel0 & tm & Hres);
      [by rewrite enqueue_eq..|].
    exists fuel0, (TransactionManager.network tm). intros fuel Hfuel.
    by rewrite (Hres fuel Hfuel).
Qed.

Lemma run_total (ops : list op) :
  Forall op_nonneg ops →
  ∀ net, well_formed net → sound net →
    ∃ fuel0 net', ∀ fuel, (fuel0 ≤ fuel)%nat → run fuel net ops = Some net'.
Proof.
  induction 1 as [|o ops Ho Hnn IH]; intros net Hwf Hs.
  { exists 0%nat, net. done. }
  destruct (step_total net o Hwf Hs Ho) as (fuel1 & net1 & Hstep).
  pose proof (Hstep fuel1 ltac:(lia)) as Hstep1.
  destruct (IH net1) as (fuel2 & net' & Hrest).
  { by eapply step_wf. }
  { by eapply step_sound. }
  exists (fuel1 `max` fuel2)%nat, net'. intros fuel Hfuel. simpl.
  rewrite (Hstep fuel) by lia. apply Hrest. lia.
Qed.

Lemma reachable_good (net : Network.t) : reachable net → well_formed net ∧ sound net.
Proof.
  intros (ops & fuel & Hnn & Hrun). split.
  - eapply run_wf; [apply init_wf|done].
  - eapply run_sound; [apply init_sound|done..].
Qed.

(** C1: along every sequence of operations whose amounts, balances, base
    fees and fee rates are not negative, started on the empty network, every
    operation returns, and in the network it leaves every channel has
    balances that are not negative and add up to its capacity.  Every
    prefix of such a sequence is such a sequence, so this holds before and
    after each operation. *)
Theorem balances_conserved (ops : list op) :
  Forall op_nonneg ops →
  (∃ fuel0 net, ∀ fuel, (fuel0 ≤ fuel)%nat → run fuel Network.init ops = Some net)
  ∧ ∀ fuel net cid c,
      run fuel Network.init ops = Some net →
      Network.channels net !! cid = Some c →
      Channel.balance_a c + Channel.balance_b c = Channel.capacity c
      ∧ 0 ≤ Channel.balance_a c ∧ 0 ≤ Channel.balance_b c.
Proof.
  intros Hnn. split.
  - apply run_total; [done|apply init_wf|apply init_sound].
  - intros fuel net cid c Hrun Hc.
    destruct (run_sound fuel ops _ _ init_sound Hnn Hrun) as [Hb _].
    apply (Hb _ _ Hc).
Qed.

Local Ltac nonneg :=
  repeat first [apply Forall_nil_2 | apply Forall_cons_2 | split];
  unfold tx_nonneg, Qle; simpl; lia.

Lemma scenario_ops_nonneg : Forall op_nonneg scenario_ops.
Proof. unfold scenario_ops. nonneg. Qed.

Lemma example_ops_nonneg : Forall op_nonneg example_ops.
Proof. apply Forall_app. split; [apply scenario_ops_nonneg|]. nonneg. Qed.

Lemma scenario_reachable : reachable scenario.
Proof. exists scenario_ops, 0%nat. split; [apply scenario_ops_nonneg | reflexivity]. Qed.

Lemma balances_conserved_witness :
  ∃ net, run 8 Network.init example_ops = Some net
    ∧ channel_state net "A-B" = Some (359, 641, 40)
    ∧ ∀ cid c, Network.channels net !! cid = Some c →
        Channel.balance_a c + Channel.balance_b c = Channel.capacity c
        ∧ 0 ≤ Channel.balance_a c ∧ 0 ≤ Channel.balance_b c.
Proof.
  destruct (run 8 Network.init example_ops) as [net|] eqn:Hrun;
    [|vm_compute in Hrun; discriminate].
  exists net. split; [reflexivity|].
  split; [vm_compute in Hrun; injection Hrun as <-; vm_compute; reflexivity|].
  intros cid c Hc.
  exact (proj2 (balances_conserved example_ops example_ops_nonneg) 8%nat net cid c Hrun Hc).
Defined.



(** ** The log of a sequential run *)





(** ** Fees earned never decrease *)

(** After the walk, [fee_earned] of every channel has grown by the fees of
    all the passes over it, applied or not. *)
Lemma hops_fee_earned (path : list string) (i : nat) :
  ∀ net cur net' r, Network.hops net path i cur = (net', r) →
    ∀ cid c, Network.channels net !! cid = Some c →
      ∃ c', Network.channels net' !! cid = Some c'
        ∧ Channel.fee_earned c'
          = Channel.fee_earned c + charged_fees cid (hop_events net path i cur).
Proof.
  induction i as [|i IH]; intros net cur net' r H cid c Hc; simpl in H |- *.
  { simplify_eq. exists c. split; [done|]. simpl. lia. }
  unfold channel_key.
  destruct (path !! S i) as [recv|]; [|simplify_eq; exists c; simpl; split; [done|lia]].
  destruct (path !! i) as [sender|]; [|simplify_eq; exists c; simpl; split; [done|lia]].
  set (key := Network.make_channel_id (py_min sender recv) (py_max sender recv)) in *.
  destruct (Network.channels net !! key) as [ch|] eqn:Hch;
    [|simplify_eq; exists c; simpl; split; [done|lia]].
  destruct (Network.nodes net !! sender) as [ns|];
    [|simplify_eq; exists c; simpl; split; [done|lia]].
  destruct (Channel.update_balances ch _ _) as [ch'|] eqn:Hu;
    [|simplify_eq; exists c; simpl; split; [done|lia]].
  destruct (update_balances_static _ _ _ _ Hu) as [_ Hfe].
  simpl. destruct (decide (key = cid)) as [<-|Hne].
  - destruct (IH _ _ _ _ H key (Channel.add_fee_earned ch' (Channel.calculate_fee ch cur)))
      as (c' & Hc' & Heq); [simpl; by rewrite lookup_insert_eq|].
    exists c'. split; [done|]. rewrite Heq. simplify_eq. simpl. lia.
  - destruct (IH _ _ _ _ H cid c) as (c' & Hc' & Heq);
      [simpl; by rewrite lookup_insert_ne|].
    exists c'. by split.
Qed.

Lemma hop_events_nonneg (path : list string) (i : nat) :
  ∀ net cur cid, sound net → 0 ≤ cur → 0 ≤ charged_fees cid (hop_events net path i cur).
Proof.
  induction i as [|i IH]; intros net cur cid Hs Hcur; simpl; [done|].
  unfold channel_key.
  destruct (path !! S i) as [recv|]; [|done].
  destruct (path !! i) as [sender|]; [|done].
  set (key := Network.make_channel_id (py_min sender recv) (py_max sender recv)).
  destruct (Network.channels net !! key) as [ch|] eqn:Hch; [|done].
  destruct (Network.nodes net !! sender) as [ns|]; [|done].
  destruct (Channel.update_balances ch _ _) as [ch'|] eqn:Hu; [|done].
  destruct Hs as [Hb Hf].
  pose proof (calculate_fee_nonneg ch cur (Hf _ _ Hch) Hcur) as Hfee.
  destruct (update_balances_static _ _ _ _ Hu) as [Hst _].
  assert (0 ≤ charged_fees cid (hop_events
            (Network.mk (Network.nodes net)
               (<[key := Channel.add_fee_earned ch' (Channel.calculate_fee ch cur)]>
                  (Network.channels net))) path i (cur + Channel.calculate_fee ch cur))) as Hrest.
  { apply IH; [|lia]. split.
    - apply insert_balanced; [done|].
      eapply (update_balances_balanced ch ch'); [by eapply Hb| |done]. lia.
    - eapply same_shape_fees; [|done]. eapply same_shape_update; [done|].
      unfold same_static in *. by simpl. }
  simpl. destruct (decide (key = cid)); lia.
Qed.

Lemma fee_le_refl (net : Network.t) : fee_le net net.
Proof. intros cid c Hc. exists c. split; [done|lia]. Qed.

Lemma fee_le_trans (n1 n2 n3 : Network.t) : fee_le n1 n2 → fee_le n2 n3 → fee_le n1 n3.
Proof.
  intros H12 H23 cid c Hc. destruct (H12 _ _ Hc) as (c2 & Hc2 & Hle2).
  destruct (H23 _ _ Hc2) as (c3 & Hc3 & Hle3). exists c3. split; [done|lia].
Qed.

Lemma execute_payment_fee_le (fuel : nat) net from_id to_id amount net' r :
  sound net → 0 ≤ amount →
  Network.execute_payment fuel net from_id to_id amount = Some (net', r) →
  fee_le net net'.
Proof.
  unfold Network.execute_payment. intros Hs Ha H.
  destruct (Network.find_path fuel net _ _ _) as [[[[path cost]|]|]|]; simplify_eq;
    try apply fee_le_refl.
  destruct (Network.hops net path _ amount) as [net1 rh] eqn:Hh.
  assert (net1 = net') as -> by (destruct rh as [[]|]; by simplify_eq).
  intros cid c Hc. destruct (hops_fee_earned _ _ _ _ _ _ Hh cid c Hc) as (c' & Hc' & Heq).
  exists c'. split; [done|].
  pose proof (hop_events_nonneg path (length path - 1) net amount cid Hs Ha). lia.
Qed.

Lemma step_fee_le (fuel : nat) (net net' : Network.t) (o : op) :
  sound net → op_nonneg o → step fuel net o = Some net' → fee_le net net'.
Proof.
  intros Hs Ho H.
  destruct o as [id|a b cap ba bb bf fr|nid other nb nr|f t amount|f t amount|txs];
    simpl in *.
  - simplify_eq. unfold fee_le. rewrite add_node_channels. apply fee_le_refl.
  - simplify_eq.
    destruct (add_channel_channels net a b cap ba bb bf fr) as [Heq|(cid & Hnone & _ & Heq)];
      unfold fee_le; rewrite Heq; [apply fee_le_refl|].
    intros cid' c Hc. exists c. rewrite lookup_insert_ne by congruence. split; [done|lia].
  - destruct (Network.nodes net !! nid) as [node|]; [|simplify_eq; apply fee_le_refl].
    destruct (change_fee node _ _ _ _) as [store|] eqn:Hcf;
      [|simplify_eq; apply fee_le_refl].
    simplify_eq. apply change_fee_channels in Hcf as (cid & c & Hc & ->).
    intros cid' c' Hc'. simpl. destruct (decide (cid = cid')) as [<-|Hne].
    + rewrite lookup_insert_eq. simplify_eq. eexists. split; [done|]. simpl. lia.
    + rewrite lookup_insert_ne by done. exists c'. split; [done|lia].
  - destruct (Network.find_path fuel net _ _ _); simplify_eq. apply fee_le_refl.
  - destruct (Network.execute_payment fuel net _ _ _) as [[net1 r]|] eqn:He;
      simpl in H; simplify_eq. by eapply execute_payment_fee_le.
  - destruct (TransactionManager.simulate fuel _) as [[tm r]|] eqn:Hsim;
      simpl in H; simplify_eq.
    eapply (simulate_preserves (λ n, sound n ∧ fee_le net n) (λ a, 0 ≤ a) fuel);
      [| | |exact Hsim]; [|by rewrite enqueue_eq|rewrite enqueue_eq; split;
        [done|apply fee_le_refl]].
    intros n f t a n' r' [Hs1 Hle1] Ha He. split; [by eapply execute_payment_sound|].
    eapply fee_le_trans; [done|]. by eapply execute_payment_fee_le.
Qed.

(** The part of C2 that the code keeps: along operations whose parameters
    are not negative, no channel ever loses earned fees. *)
Lemma run_fee_le (fuel : nat) (ops : list op) :
  ∀ net net', sound net → Forall op_nonneg ops → run fuel net ops = Some net' →
    fee_le net net'.
Proof.
  induction ops as [|o ops IH]; intros net net' Hs Hnn H; simpl in H.
  { simplify_eq. apply fee_le_refl. }
  apply Forall_cons in Hnn as [Ho Hnn].
  destruct (step fuel net o) as [net1|] eqn:Hstep; [|done].
  eapply fee_le_trans; [by eapply step_fee_le|].
  eapply IH; [|done..]. by eapply step_sound.
Qed.

(** * Further properties of the code *)

(** ** Channels *)

(** X1: [can_forward] decides what [update_balances] does with the same
    arguments: where the check answers yes the amount leaves the sender's
    side and arrives on the other, where it answers no the channel is
    returned as it is, and where it raises the update raises the same
    error. *)
Theorem can_forward_decides_update (c : Channel.t) (from_node : string) (amount : Z) :
  match Channel.can_forward c from_node amount with
  | Ok true =>
      Channel.update_balances c from_node amount
      = Ok (if decide (from_node = Channel.node_a c)
            then Channel.set_balances c (Channel.balance_a c - amount)
                   (Channel.balance_b c + amount)
            else Channel.set_balances c (Channel.balance_a c + amount)
                   (Channel.balance_b c - amount))
  | Ok false => Channel.update_balances c from_node amount = Ok c
  | Raise e => Channel.update_balances c from_node amount = Raise e
  end.
Proof.
  unfold Channel.can_forward, Channel.update_balances.
  destruct (decide (from_node = Channel.node_a c)).
  - destruct (Channel.balance_a c >=? amount) eqn:Hge;
      destruct (Channel.balance_a c <? amount) eqn:Hlt; try done; lia.
  - destruct (decide (from_node = Channel.node_b c)); [|done].
    destruct (Channel.balance_b c >=? amount) eqn:Hge;
      destruct (Channel.balance_b c <? amount) eqn:Hlt; try done; lia.
Qed.

(** X2: whatever the node and the amount, also a negative one, an update
    that returns keeps the sum of the two balances and touches nothing
    else: endpoints, capacity, fees, identifier and earned fees stay. *)
Theorem update_balances_conserves (c c' : Channel.t) (from_node : string) (amount : Z) :
  Channel.update_balances c from_node amount = Ok c' →
  Channel.balance_a c' + Channel.balance_b c' = Channel.balance_a c + Channel.balance_b c
  ∧ same_static c c'
  ∧ Channel.fee_earned c' = Channel.fee_earned c.
Proof.
  intros H. destruct (update_balances_static _ _ _ _ H) as [Hs Hf].
  split; [|done]. unfold Channel.update_balances in H.
  repeat case_match; simplify_eq; simpl; lia.
Qed.

Lemma update_balances_conserves_witness :
  ∃ c', Channel.update_balances (Channel.mk "A" "B" 10 7 3 1 0 "A-B" 4) "B" (-5) = Ok c'
    ∧ Channel.balance_a c' + Channel.balance_b c' = 10
    ∧ Channel.fee_earned c' = 4.
Proof.
  eexists. split; [reflexivity|].
  destruct (update_balances_conserves (Channel.mk "A" "B" 10 7 3 1 0 "A-B" 4) _ "B" (-5)
              eq_refl) as (Hsum & _ & Hfee).
  split; [exact Hsum | exact Hfee].
Defined.

(** X3: on a channel between two different nodes, sending an amount that
    side A can cover and sending the same amount back from side B restores
    the channel exactly. *)
Theorem update_balances_round_trip (c : Channel.t) (amount : Z) :
  Channel.node_a c ≠ Channel.node_b c →
  0 ≤ amount ≤ Channel.balance_a c → 0 ≤ Channel.balance_b c →
  ∃ c1, Channel.update_balances c (Channel.node_a c) amount = Ok c1
    ∧ Channel.update_balances c1 (Channel.node_b c) amount = Ok c.
Proof.
  intros Hne Ha Hb. destruct c as [na nb cap ba bb bf fr cid fe]. simpl in *.
  unfold Channel.update_balances. simpl. rewrite decide_True by done.
  rewrite (proj2 (Z.ltb_ge _ _)) by lia. eexists. split; [reflexivity|].
  unfold Channel.set_balances. simpl.
  rewrite decide_False by done. rewrite decide_True by done.
  rewrite (proj2 (Z.ltb_ge _ _)) by lia. do 2 f_equal; lia.
Qed.

Lemma update_balances_round_trip_witness :
  ∃ c1, Channel.update_balances (Channel.mk "A" "B" 10 7 3 1 0 "A-B" 4) "A" 6 = Ok c1
    ∧ Channel.update_balances c1 "B" 6 = Ok (Channel.mk "A" "B" 10 7 3 1 0 "A-B" 4).
Proof.
  apply (update_balances_round_trip (Channel.mk "A" "B" 10 7 3 1 0 "A-B" 4) 6);
    [discriminate | simpl; lia | simpl; lia].
Defined.

(** X4: [get_other_node] is an involution on the endpoints of a channel,
    and it raises exactly for the nodes that are not endpoints. *)
Theorem get_other_node_involutive (c : Channel.t) (node : string) :
  (∀ other, Channel.get_other_node c node = Ok other →
     Channel.get_other_node c other = Ok node)
  ∧ ((node ≠ Channel.node_a c ∧ node ≠ Channel.node_b c)
     ↔ Channel.get_other_node c node = Raise (ValueError "Node not part of this channel")).
Proof.
  unfold Channel.get_other_node. split.
  - intros other H.
    destruct (decide (node = Channel.node_a c)) as [->|Hna]; simplify_eq.
    + destruct (decide (Channel.node_b c = Channel.node_a c)) as [->|?]; [done|].
      by rewrite decide_True.
    + destruct (decide (node = Channel.node_b c)) as [->|Hnb]; simplify_eq.
      by rewrite decide_True.
  - destruct (decide (node = Channel.node_a c)); [split; [tauto|done]|].
    destruct (decide (node = Channel.node_b c)); [split; [tauto|done]|]. tauto.
Qed.

Lemma get_other_node_involutive_witness :
  Channel.get_other_node (Channel.mk "A" "B" 10 7 3 1 0 "A-B" 4) "B" = Ok "A"
  ∧ Channel.get_other_node (Channel.mk "A" "B" 10 7 3 1 0 "A-B" 4) "A" = Ok "B".
Proof.
  destruct (get_other_node_involutive (Channel.mk "A" "B" 10 7 3 1 0 "A-B" 4) "A") as [H _].
  split; [apply H|]; reflexivity.
Defined.

(** X5: no sign check guards the amount.  From either endpoint, a
    negative amount is always covered by a side that is not in debt, so the
    update applies and takes the value from the other side instead, which
    goes below zero when it holds less than the amount's size. *)
Theorem update_balances_negative_amount (c : Channel.t) (from_node : string) (amount : Z) :
  amount < 0 →
  (from_node = Channel.node_a c → 0 ≤ Channel.balance_a c →
   ∃ c', Channel.update_balances c from_node amount = Ok c'
     ∧ Channel.balance_a c' = Channel.balance_a c - amount
     ∧ Channel.balance_b c' = Channel.balance_b c + amount
     ∧ (Channel.balance_b c < - amount → ¬ channel_balanced c'))
  ∧ (from_node ≠ Channel.node_a c → from_node = Channel.node_b c →
     0 ≤ Channel.balance_b c →
     ∃ c', Channel.update_balances c from_node amount = Ok c'
       ∧ Channel.balance_b c' = Channel.balance_b c - amount
       ∧ Channel.balance_a c' = Channel.balance_a c + amount
       ∧ (Channel.balance_a c < - amount → ¬ channel_balanced c')).
Proof.
  intros Ha. unfold Channel.update_balances. split.
  - intros -> Hb. rewrite decide_True by done.
    rewrite (proj2 (Z.ltb_ge _ _)) by lia. eexists. split; [reflexivity|]. simpl.
    split; [done|]. split; [done|]. unfold channel_balanced. simpl. lia.
  - intros Hne -> Hb. rewrite decide_False, decide_True by done.
    rewrite (proj2 (Z.ltb_ge _ _)) by lia. eexists. split; [reflexivity|]. simpl.
    split; [done|]. split; [done|]. unfold channel_balanced. simpl. lia.
Qed.

Lemma update_balances_negative_amount_witness :
  (∃ c', Channel.update_balances (Channel.mk "A" "B" 10 7 3 1 0 "A-B" 4) "A" (-5) = Ok c'
     ∧ Channel.balance_b c' = -2)
  ∧ (∃ c', Channel.update_balances (Channel.mk "A" "B" 10 7 3 1 0 "A-B" 4) "B" (-8) = Ok c'
       ∧ Channel.balance_a c' = -1).
Proof.
  destruct (update_balances_negative_amount (Channel.mk "A" "B" 10 7 3 1 0 "A-B" 4) "A" (-5))
    as [HA _]; [lia|].
  destruct (update_balances_negative_amount (Channel.mk "A" "B" 10 7 3 1 0 "A-B" 4) "B" (-8))
    as [_ HB]; [lia|].
  destruct HA as (c1 & Hu1 & _ & Hb1 & _); [reflexivity | simpl; lia |].
  destruct HB as (c2 & Hu2 & _ & Ha2 & _); [discriminate | reflexivity | simpl; lia |].
  split; [exists c1 | exists c2]; split; assumption.
Defined.

(** ** What a payment leaves alone *)

(** X6: whatever it returns, [execute_payment] adds and removes no node and
    no channel, leaves every adjacency list as it was, and changes no
    endpoint, capacity, base fee, fee rate or identifier of a channel: only
    balances and earned fees can differ afterwards. *)
Theorem execute_payment_frame (fuel : nat) (net net' : Network.t) (from_id to_id : string)
    (amount : Z) (r : result (bool * Z)) :
  Network.execute_payment fuel net from_id to_id amount = Some (net', r) →
  Network.nodes net' = Network.nodes net
  ∧ ∀ cid, option_Forall2 same_static (Network.channels net !! cid)
             (Network.channels net' !! cid).
Proof. intros H. by apply (execute_payment_shape _ _ _ _ _ _ _ H). Qed.

Lemma execute_payment_frame_witness :
  ∃ net', Network.execute_payment 4 scenario "A" "C" 100 = Some (net', Ok (true, 11))
    ∧ Network.nodes net' = Network.nodes scenario.
Proof.
  destruct (Network.execute_payment 4 scenario "A" "C" 100) as [[net' r]|] eqn:He;
    [|vm_compute in He; discriminate].
  exists net'. destruct (execute_payment_frame _ _ _ _ _ _ _ He) as [Hn _].
  split; [|exact Hn]. vm_compute in He. by injection He as _ <-.
Defined.

(** ** The transaction manager *)

Lemma process_all_queue (fuel : nat) (txs : list (string * string * Z)) :
  ∀ net q lg,
    TransactionManager.process_all fuel (TransactionManager.mk net q lg) txs
    = match TransactionManager.process_all fuel (TransactionManager.mk net [] lg) txs with
      | Some (s, r) =>
          Some (TransactionManager.mk (TransactionManager.network s) q
                  (TransactionManager.log s), r)
      | None => None
      end.
Proof.
  induction txs as [|[[f t] a] txs IH]; intros net q lg; simpl; [done|].
  unfold TransactionManager.process_tx. simpl.
  destruct (Network.execute_payment fuel net f t a) as [[net1 [[s fees]|e]]|]; [|done..].
  apply IH.
Qed.

Lemma process_all_app (fuel : nat) (txs1 txs2 : list (string * string * Z)) :
  ∀ self,
    TransactionManager.process_all fuel self (txs1 ++ txs2)
    = match TransactionManager.process_all fuel self txs1 with
      | Some (self1, Ok _) => TransactionManager.process_all fuel self1 txs2
      | other => other
      end.
Proof.
  induction txs1 as [|[[f t] a] txs1 IH]; intros self; simpl; [done|].
  destruct (TransactionManager.process_tx fuel self f t a) as [[self1 [[]|e]]|]; try done.
Qed.

(** X7: a sequential [simulate] that returned has drained the queue: the
    next [simulate], with any fuel, runs no payment, leaves the network as
    it is and returns the empty log. *)
Theorem simulate_drains (fuel fuel' : nat) (self self1 : TransactionManager.t)
    (lg : list string) :
  TransactionManager.simulate fuel self = Some (self1, Ok lg) →
  TransactionManager.simulate fuel' self1
  = Some (TransactionManager.mk (TransactionManager.network self1) [] [], Ok []).
Proof.
  intros H. unfold TransactionManager.simulate in H. simpl in H.
  destruct (TransactionManager.process_all fuel _ _) as [[s [[]|e]]|]; by simplify_eq.
Qed.

Lemma simulate_drains_witness :
  ∃ self1 lg,
    TransactionManager.simulate 4 (TransactionManager.mk scenario [("A", "C", 100)] [])
    = Some (self1, Ok lg)
    ∧ TransactionManager.simulate 0 self1
      = Some (TransactionManager.mk (TransactionManager.network self1) [] [], Ok []).
Proof.
  destruct (TransactionManager.simulate 4
              (TransactionManager.mk scenario [("A", "C", 100)] []))
    as [[self1 [lg|e]]|] eqn:Hsim; try (vm_compute in Hsim; discriminate).
  exists self1, lg. split; [reflexivity|].
  exact (simulate_drains 4 0 _ self1 lg Hsim).
Defined.

Lemma process_all_as_run (fuel : nat) (txs : list (string * string * Z)) :
  ∀ self self', TransactionManager.process_all fuel self txs = Some (self', Ok tt) →
    run fuel (TransactionManager.network self)
      (map (λ tx, ExecutePayment tx.1.1 tx.1.2 tx.2) txs)
    = Some (TransactionManager.network self').
Proof.
  induction txs as [|[[f t] a] txs IH]; intros self self' H; simpl in H |- *.
  { by simplify_eq. }
  unfold TransactionManager.process_tx in H.
  destruct (Network.execute_payment fuel _ f t a) as [[net1 [[s fees]|e]]|]; simplify_eq.
  simpl. by apply (IH _ _ H).
Qed.

(** X8: a sequential [simulate] that returned has left the network that
    calling [execute_payment] for the queued transactions, one after the
    other in queue order, leaves. *)
Theorem simulate_as_payments (fuel : nat) (self self' : TransactionManager.t)
    (lg : list string) :
  TransactionManager.simulate fuel self = Some (self', Ok lg) →
  run fuel (TransactionManager.network self)
    (map (λ tx, ExecutePayment tx.1.1 tx.1.2 tx.2) (TransactionManager.transaction_queue self))
  = Some (TransactionManager.network self').
Proof.
  intros H. unfold TransactionManager.simulate in H. simpl in H.
  destruct (TransactionManager.process_all fuel _ _) as [[s [[]|e]]|] eqn:Hp; simplify_eq.
  by apply (process_all_as_run _ _ _ _ Hp).
Qed.

Lemma simulate_as_payments_witness :
  ∃ self' lg,
    TransactionManager.simulate 4
      (TransactionManager.mk scenario [("A", "C", 100); ("C", "A", 20)] [])
    = Some (self', Ok lg)
    ∧ run 4 scenario [ExecutePayment "A" "C" 100; ExecutePayment "C" "A" 20]
      = Some (TransactionManager.network self').
Proof.
  destruct (TransactionManager.simulate 4
              (TransactionManager.mk scenario [("A", "C", 100); ("C", "A", 20)] []))
    as [[self' [lg|e]]|] eqn:Hsim; try (vm_compute in Hsim; discriminate).
  exists self', lg. split; [reflexivity|].
  exact (simulate_as_payments 4 _ self' lg Hsim).
Defined.

(** X9: a transaction added to the queue is executed after all those
    queued before it, on the network they left, and its line comes last in
    the log: if [simulate] on the manager returns a log and the payment
    then returns an outcome, [simulate] on the manager with the transaction
    added returns that log followed by the line of that outcome. *)
Theorem simulate_add_transaction (fuel : nat) (self self1 : TransactionManager.t)
    (lg : list string) (from_id to_id : string) (amount : Z) (net2 : Network.t)
    (out : bool * Z) :
  TransactionManager.simulate fuel self = Some (self1, Ok lg) →
  Network.execute_payment fuel (TransactionManager.network self1) from_id to_id amount
    = Some (net2, Ok out) →
  TransactionManager.simulate fuel
    (TransactionManager.add_transaction self from_id to_id amount)
  = Some (TransactionManager.mk net2 [] (lg ++ [result_line (from_id, to_id, amount) out]),
          Ok (lg ++ [result_line (from_id, to_id, amount) out])).
Proof.
  intros H He. unfold TransactionManager.simulate in *. simpl in *.
  rewrite process_all_queue in H. rewrite process_all_queue, process_all_app.
  destruct (TransactionManager.process_all fuel _ (TransactionManager.transaction_queue self))
    as [[s [[]|e]]|]; simplify_eq.
  simpl in *. unfold TransactionManager.process_tx. rewrite He.
  destruct out as [[] fees]; reflexivity.
Qed.

Lemma simulate_add_transaction_witness :
  ∃ self',
    TransactionManager.simulate 4
      (TransactionManager.add_transaction
         (TransactionManager.mk scenario [("A", "C", 100)] []) "A" "C" 1000)
    = Some (self',
            Ok ["Transaction A -> C (100 sat, total fees: 11 sat): Success";
                "Transaction A -> C (1000 sat): Failed"]).
Proof.
  destruct (TransactionManager.simulate 4
              (TransactionManager.mk scenario [("A", "C", 100)] []))
    as [[self1 [lg|e]]|] eqn:Hsim; try (vm_compute in Hsim; discriminate).
  destruct (Network.execute_payment 4 (TransactionManager.network self1) "A" "C" 1000)
    as [[net2 [out|e]]|] eqn:He;
    try (vm_compute in Hsim; injection Hsim as <- <-; vm_compute in He; discriminate).
  eexists.
  rewrite (simulate_add_transaction 4 _ self1 lg "A" "C" 1000 net2 out Hsim He).
  vm_compute in Hsim. injection Hsim as <- <-.
  vm_compute in He. injection He as <- <-. reflexivity.
Defined.

(** ** The shape of a returned path *)

Lemma reconstruct_path (fuel : nat) (pred : gmap string (option string)) :
  ∀ current path p, Network.reconstruct fuel pred current path = Some (Ok p) →
    ∃ q, p = path ++ q ∧ pred_path pred current q.
Proof.
  induction fuel as [|fuel IH]; intros current path p H; simpl in H; [done|].
  destruct (pred !! current) as [[next|]|] eqn:Hp; [| |done].
  - destruct (IH _ _ _ H) as (q & -> & Hq).
    exists (current :: q). split; [by rewrite <- app_assoc|]. by econstructor.
  - simplify_eq. exists [current]. split; [done|]. by constructor.
Qed.

Lemma pred_path_functional (pred : gmap string (option string)) (v : string)
    (p q : list string) :
  pred_path pred v p → pred_path pred v q → p = q.
Proof.
  intros Hp. revert q. induction Hp as [v Hv|v u p Hv Hp IH]; intros q Hq.
  - inversion Hq; simplify_eq. done.
  - inversion Hq as [|? u' q' Hv' Hq']; simplify_eq. f_equal. by apply IH.
Qed.

Lemma pred_path_suffix (pred : gmap string (option string)) (v x : string)
    (p p1 p2 : list string) :
  pred_path pred v p → p = p1 ++ x :: p2 → pred_path pred x (x :: p2).
Proof.
  intros Hp. revert p1. induction Hp as [v Hv|v u p Hv Hp IH]; intros p1 Heq.
  - destruct p1 as [|y p1]; simpl in Heq; simplify_eq; [by apply pred_path_last|].
    by destruct p1.
  - destruct p1 as [|y p1]; simpl in Heq; simplify_eq; [by eapply pred_path_cons|].
    by eapply IH.
Qed.

Lemma pred_path_NoDup (pred : gmap string (option string)) (v : string) (p : list string) :
  pred_path pred v p → NoDup p.
Proof.
  induction 1 as [v Hv|v u p Hv Hp IH].
  - apply NoDup_singleton.
  - apply NoDup_cons. split; [|done].
    intros (p1 & p2 & Heq)%list_elem_of_split.
    pose proof (pred_path_suffix _ _ _ _ _ _ Hp Heq) as Hsuf.
    pose proof (pred_path_functional _ _ _ _ (pred_path_cons _ _ _ _ Hv Hp) Hsuf) as Hlen.
    apply (f_equal length) in Hlen. subst p. simpl in Hlen.
    rewrite length_app in Hlen. simpl in Hlen. lia.
Qed.

Lemma find_path_pred_path (fuel : nat) (net : Network.t) (from_id to_id : string)
    (amount : Z) (path : list string) (cost : Z) :
  Network.find_path fuel net from_id to_id amount = Some (Ok (Some (path, cost))) →
  ∃ st, Network.search_loop fuel net (Network.mkSearch
          (<[to_id := Fin amount]> ((λ _, Inf) <$> Network.nodes net))
          ((λ _, None) <$> Network.nodes net) [(amount, to_id)]) = Some (Ok st)
    ∧ Network.dist st !! from_id = Some (Fin cost)
    ∧ pred_path (Network.pred st) from_id path
    ∧ last path = Some to_id
    ∧ is_Some (Network.nodes net !! from_id) ∧ is_Some (Network.nodes net !! to_id).
Proof.
  unfold Network.find_path. intros H.
  destruct (Network.nodes net !! from_id) as [nf|]; [|done].
  destruct (Network.nodes net !! to_id) as [nt|]; [|done].
  destruct (Network.search_loop fuel net _) as [[st|]|] eqn:Hs; [|done..].
  destruct (Network.dist st !! from_id) as [[c|]|] eqn:Hc; [|done..].
  destruct (Network.reconstruct fuel _ _ _) as [[p|]|] eqn:Hr; [|done..].
  destruct (reconstruct_path _ _ _ _ _ Hr) as (q & -> & Hq). simpl in *.
  destruct (last q) as [l|] eqn:Hl; [|done].
  destruct (bool_decide (l ≠ to_id)) eqn:Hd; simplify_eq.
  apply bool_decide_eq_false in Hd.
  exists st. repeat split; eauto.
  rewrite Hl. f_equal. by destruct (decide (l = to_id)).
Qed.

(** X10: on any network, a path that [find_path] returns starts at the
    sender and ends at the receiver, and both are nodes of the network. *)
Theorem find_path_endpoints (fuel : nat) (net : Network.t) (from_id to_id : string)
    (amount : Z) (path : list string) (cost : Z) :
  Network.find_path fuel net from_id to_id amount = Some (Ok (Some (path, cost))) →
  head path = Some from_id ∧ last path = Some to_id
  ∧ is_Some (Network.nodes net !! from_id) ∧ is_Some (Network.nodes net !! to_id).
Proof.
  intros H. destruct (find_path_pred_path _ _ _ _ _ _ _ H) as (st & _ & _ & Hp & Hl & Hn).
  split; [by eapply pred_path_head|]. by split.
Qed.

Lemma find_path_endpoints_witness :
  head ["A"; "B"; "C"] = Some "A" ∧ last ["A"; "B"; "C"] = Some "C".
Proof.
  destruct (find_path_endpoints 4 scenario "A" "C" 100 ["A"; "B"; "C"] 111)
    as (Hh & Hl & _); [vm_compute; reflexivity|].
  split; [exact Hh | exact Hl].
Defined.

(** X11: on any network, a path that [find_path] returns visits no node
    twice. *)
Theorem find_path_simple (fuel : nat) (net : Network.t) (from_id to_id : string)
    (amount : Z) (path : list string) (cost : Z) :
  Network.find_path fuel net from_id to_id amount = Some (Ok (Some (path, cost))) →
  NoDup path.
Proof.
  intros H. destruct (find_path_pred_path _ _ _ _ _ _ _ H) as (st & _ & _ & Hp & _).
  by eapply pred_path_NoDup.
Qed.

Lemma find_path_simple_witness : NoDup ["A"; "B"; "C"].
Proof.
  apply (find_path_simple 4 scenario "A" "C" 100 ["A"; "B"; "C"] 111).
  vm_compute. reflexivity.
Defined.

(** ** Construction of the network *)

Lemma no_adjacency (net : Network.t) (u v : string) (node_u : Node.t) :
  well_formed net → Network.nodes net !! u = Some node_u →
  Network.channels net !! channel_key u v = None →
  alist_get v (Node.channels node_u) = None.
Proof.
  intros Hwf Hu Hfree. destruct (alist_get v (Node.channels node_u)) as [cid|] eqn:Hget; [|done].
  destruct (wf_adjacent _ Hwf u v cid) as (_ & -> & c & Hc & _); [by exists node_u|].
  by rewrite Hfree in Hc.
Qed.

Lemma add_channel_distinct_ok (net : Network.t) (a b : string)
    (capacity balance_a balance_b base_fee : Z) (fee_rate : Q) (na nb : Node.t) :
  well_formed net → a ≠ b →
  Network.nodes net !! a = Some na → Network.nodes net !! b = Some nb →
  Network.channels net !! channel_key a b = None →
  balance_a + balance_b = capacity →
  let c := Channel.mk a b capacity balance_a balance_b base_fee fee_rate (channel_key a b) 0 in
  Network.add_channel net a b capacity balance_a balance_b base_fee fee_rate
  = (Network.mk
       (<[b := with_neighbor nb a (channel_key a b)]>
          (<[a := with_neighbor na b (channel_key a b)]> (Network.nodes net)))
       (<[channel_key a b := c]> (Network.channels net)),
     Ok c).
Proof.
  intros Hwf Hab Ha Hb Hfree Hsum c.
  pose proof (no_adjacency net a b na Hwf Ha Hfree) as Hna.
  pose proof (no_adjacency net b a nb Hwf Hb) as Hnb.
  rewrite (channel_key_comm b a) in Hnb. specialize (Hnb Hfree).
  pose proof (wf_node_id _ Hwf _ _ Ha) as Hida.
  pose proof (wf_node_id _ Hwf _ _ Hb) as Hidb.
  unfold Network.add_channel. rewrite Ha, Hb, sorted2_key, Hfree.
  unfold Channel.init. rewrite (proj2 (Z.eqb_eq _ _) Hsum). simpl. rewrite Ha.
  fold c. unfold Node.add_channel, Channel.get_other_node. simpl.
  rewrite Hida. rewrite (bool_decide_eq_false_2 (a ≠ a)) by (intros H; by apply H).
  simpl. rewrite decide_True by done. rewrite Hna. simpl.
  rewrite lookup_insert_ne by done. rewrite Hb. rewrite Hidb.
  rewrite (bool_decide_eq_false_2 (b ≠ b)) by (intros H; by apply H).
  rewrite andb_false_r. rewrite decide_False by (intros ->; by apply Hab).
  rewrite decide_True by done. rewrite Hnb.
  unfold with_neighbor. by rewrite Hida, Hidb.
Qed.

Lemma add_channel_self (net : Network.t) (a : string)
    (capacity balance_a balance_b base_fee : Z) (fee_rate : Q) (na : Node.t) :
  well_formed net →
  Network.nodes net !! a = Some na →
  Network.channels net !! channel_key a a = None →
  balance_a + balance_b = capacity →
  let c := Channel.mk a a capacity balance_a balance_b base_fee fee_rate (channel_key a a) 0 in
  Network.add_channel net a a capacity balance_a balance_b base_fee fee_rate
  = (Network.mk
       (<[a := with_neighbor na a (channel_key a a)]> (Network.nodes net))
       (<[channel_key a a := c]> (Network.channels net)),
     Raise (ValueError "Channel to this node already exists.")).
Proof.
  intros Hwf Ha Hfree Hsum c.
  pose proof (no_adjacency net a a na Hwf Ha Hfree) as Hna.
  pose proof (wf_node_id _ Hwf _ _ Ha) as Hida.
  unfold Network.add_channel. rewrite Ha, sorted2_key, Hfree.
  unfold Channel.init. rewrite (proj2 (Z.eqb_eq _ _) Hsum). simpl. rewrite Ha.
  fold c. unfold Node.add_channel, Channel.get_other_node. simpl.
  rewrite Hida. rewrite (bool_decide_eq_false_2 (a ≠ a)) by (intros H; by apply H).
  simpl. rewrite decide_True by done. rewrite Hna. simpl.
  rewrite lookup_insert_eq. simpl.
  rewrite (bool_decide_eq_false_2 (a ≠ a)) by (intros H; by apply H).
  simpl. rewrite decide_True by done.
  rewrite alist_get_app, Hna. rewrite decide_True by done.
  unfold with_neighbor. by rewrite Hida.
Qed.

Lemma add_channel_raises (net : Network.t) (a b : string)
    (capacity balance_a balance_b base_fee : Z) (fee_rate : Q) :
  ¬ (is_Some (Network.nodes net !! a) ∧ is_Some (Network.nodes net !! b)
     ∧ Network.channels net !! channel_key a b = None
     ∧ balance_a + balance_b = capacity) →
  ∃ e, Network.add_channel net a b capacity balance_a balance_b base_fee fee_rate
       = (net, Raise e).
Proof.
  intros Hnot. unfold Network.add_channel.
  destruct (Network.nodes net !! a) as [na|]; [|eauto].
  destruct (Network.nodes net !! b) as [nb|]; [|eauto].
  rewrite sorted2_key.
  destruct (Network.channels net !! channel_key a b) eqn:Hfree; [eauto|].
  unfold Channel.init.
  destruct (balance_a + balance_b =? capacity) eqn:Hsum; simpl; [|eauto].
  apply Z.eqb_eq in Hsum. destruct Hnot. eauto.
Qed.

(** X12: on a network whose references are consistent, as every network
    produced through the interface is, [add_channel] between two different
    nodes succeeds exactly when both nodes exist, no channel is stored under
    the key of the pair and the balances add up to the capacity.  It then
    stores the new channel, with nothing earned, under that key and appends
    each node to the end of the other's neighbours; otherwise it raises and
    leaves the network exactly as it was. *)
Theorem add_channel_distinct (net : Network.t) (a b : string)
    (capacity balance_a balance_b base_fee : Z) (fee_rate : Q) :
  well_formed net → a ≠ b →
  let r := Network.add_channel net a b capacity balance_a balance_b base_fee fee_rate in
  let c := Channel.mk a b capacity balance_a balance_b base_fee fee_rate (channel_key a b) 0 in
  ((is_Some (Network.nodes net !! a) ∧ is_Some (Network.nodes net !! b)
    ∧ Network.channels net !! channel_key a b = None
    ∧ balance_a + balance_b = capacity)
   ∧ r.2 = Ok c
   ∧ Network.channels r.1 = <[channel_key a b := c]> (Network.channels net)
   ∧ (∃ na na', Network.nodes net !! a = Some na ∧ Network.nodes r.1 !! a = Some na'
        ∧ Node.get_neighbors na' = Node.get_neighbors na ++ [b])
   ∧ (∃ nb nb', Network.nodes net !! b = Some nb ∧ Network.nodes r.1 !! b = Some nb'
        ∧ Node.get_neighbors nb' = Node.get_neighbors nb ++ [a])
   ∧ (∀ k, k ≠ a → k ≠ b → Network.nodes r.1 !! k = Network.nodes net !! k))
  ∨ (¬ (is_Some (Network.nodes net !! a) ∧ is_Some (Network.nodes net !! b)
        ∧ Network.channels net !! channel_key a b = None
        ∧ balance_a + balance_b = capacity)
     ∧ ∃ e, r = (net, Raise e)).
Proof.
  intros Hwf Hab r c.
  destruct (decide (is_Some (Network.nodes net !! a) ∧ is_Some (Network.nodes net !! b)
                    ∧ Network.channels net !! channel_key a b = None
                    ∧ balance_a + balance_b = capacity)) as [Hyes|Hno].
  - left. split; [done|]. destruct Hyes as ([na Ha] & [nb Hb] & Hfree & Hsum).
    unfold r. rewrite (add_channel_distinct_ok net a b _ _ _ _ _ na nb) by done. simpl.
    split; [done|]. split; [done|]. split; [|split].
    + exists na, (with_neighbor na b (channel_key a b)). split; [done|].
      rewrite lookup_insert_ne, lookup_insert_eq by done. split; [done|].
      unfold Node.get_neighbors, with_neighbor. simpl. by rewrite fmap_app.
    + exists nb, (with_neighbor nb a (channel_key a b)). split; [done|].
      rewrite lookup_insert_eq. split; [done|].
      unfold Node.get_neighbors, with_neighbor. simpl. by rewrite fmap_app.
    + intros k Hka Hkb. by rewrite !lookup_insert_ne by done.
  - right. split; [done|]. by apply add_channel_raises.
Qed.

Lemma add_channel_distinct_witness :
  (Network.add_channel scenario "A" "C" 10 4 6 1 0).2
  = Ok (Channel.mk "A" "C" 10 4 6 1 0 "A-C" 0)
  ∧ ∃ e, Network.add_channel scenario "A" "B" 10 4 6 1 0 = (scenario, Raise e).
Proof.
  split.
  - destruct (add_channel_distinct scenario "A" "C" 10 4 6 1 0 (built_wf _ scenario_built))
      as [(_ & Hr & _)|(Hno & _)]; [discriminate | exact Hr |].
    exfalso. apply Hno. repeat split; try (by eexists); reflexivity.
  - destruct (add_channel_distinct scenario "A" "B" 10 4 6 1 0 (built_wf _ scenario_built))
      as [((_ & _ & Hfree & _) & _)|(_ & He)]; [discriminate | | exact He].
    vm_compute in Hfree. discriminate.
Defined.

(** X13: a channel from a node to itself.  On a consistent network where
    the node exists, no channel is stored under the key of the pair and the
    balances add up to the capacity, [add_channel] raises [ValueError], but
    only after it has stored the channel and made the node its own
    neighbour: the failed call leaves both behind. *)
Theorem add_channel_to_itself (net : Network.t) (a : string)
    (capacity balance_a balance_b base_fee : Z) (fee_rate : Q) :
  well_formed net →
  is_Some (Network.nodes net !! a) →
  Network.channels net !! channel_key a a = None →
  balance_a + balance_b = capacity →
  let r := Network.add_channel net a a capacity balance_a balance_b base_fee fee_rate in
  r.2 = Raise (ValueError "Channel to this node already exists.")
  ∧ Network.channels r.1 !! channel_key a a
    = Some (Channel.mk a a capacity balance_a balance_b base_fee fee_rate (channel_key a a) 0)
  ∧ ∃ na', Network.nodes r.1 !! a = Some na' ∧ a ∈ Node.get_neighbors na'.
Proof.
  intros Hwf [na Ha] Hfree Hsum r. unfold r.
  rewrite (add_channel_self net a _ _ _ _ _ na) by done. simpl.
  split; [done|]. split; [by rewrite lookup_insert_eq|].
  eexists. split; [by rewrite lookup_insert_eq|].
  unfold Node.get_neighbors, with_neighbor. simpl. rewrite fmap_app.
  apply elem_of_app. right. by apply list_elem_of_singleton.
Qed.

Lemma add_channel_to_itself_witness :
  (Network.add_channel scenario "A" "A" 10 4 6 1 0).2
  = Raise (ValueError "Channel to this node already exists.")
  ∧ is_Some (Network.channels (Network.add_channel scenario "A" "A" 10 4 6 1 0).1 !! "A-A").
Proof.
  destruct (add_channel_to_itself scenario "A" 10 4 6 1 0 (built_wf _ scenario_built))
    as (Hr & Hc & _); [by eexists | reflexivity | reflexivity |].
  split; [exact Hr|]. eexists. exact Hc.
Defined.

Lemma adjacent_with_neighbor (nodes : gmap string Node.t) (u : string) (nu : Node.t)
    (other cid0 x v cid : string) :
  nodes !! u = Some nu → alist_get other (Node.channels nu) = None →
  adjacent (<[u := with_neighbor nu other cid0]> nodes) x v cid
  ↔ adjacent nodes x v cid ∨ (x = u ∧ v = other ∧ cid = cid0).
Proof.
  intros Hu Hfree. unfold adjacent. destruct (decide (u = x)) as [<-|Hne].
  - rewrite lookup_insert_eq. split.
    + intros (n & [= <-] & Hget). simpl in Hget. rewrite alist_get_app in Hget.
      destruct (alist_get v (Node.channels nu)) eqn:Hold; simplify_eq; [left; eauto|].
      destruct (decide (other = v)); simplify_eq. by right.
    + intros [(n & Hn & Hget)|(_ & -> & ->)]; simplify_eq.
      * eexists. split; [done|]. simpl. by rewrite alist_get_app, Hget.
      * eexists. split; [done|]. simpl. rewrite alist_get_app, Hfree.
        by rewrite decide_True.
  - rewrite lookup_insert_ne by done. split; [by left|].
    intros [?|(-> & _)]; [done|]. by destruct Hne.
Qed.

Lemma init_consistent : consistent Network.init.
Proof.
  split; [apply init_wf|..].
  - intros u v cid (n & H & _). simpl in H. by rewrite lookup_empty in H.
  - intros cid c H. simpl in H. by rewrite lookup_empty in H.
Qed.

Lemma add_node_consistent (net : Network.t) (node_id : string) :
  consistent net → consistent (Network.add_node net node_id).1.
Proof.
  intros [Hwf Hsym Hstore]. pose proof (add_node_wf net node_id Hwf) as Hwf'.
  unfold Network.add_node in *.
  destruct (Network.nodes net !! node_id) eqn:Hn; [done|]. simpl in *.
  assert (∀ u v cid, adjacent (<[node_id := Node.init node_id]> (Network.nodes net)) u v cid
                     ↔ adjacent (Network.nodes net) u v cid) as Hadj.
  { intros u v cid. unfold adjacent. destruct (decide (node_id = u)) as [<-|Hne].
    - rewrite lookup_insert_eq, Hn. split; [|by intros (? & ? & _)].
      by intros (n & [= <-] & Hget).
    - by rewrite lookup_insert_ne. }
  split; [done|..]; simpl.
  - intros u v cid. rewrite !Hadj. apply Hsym.
  - intros cid c Hc. rewrite Hadj. by apply Hstore.
Qed.

Lemma add_channel_consistent (net : Network.t) a b capacity balance_a balance_b base_fee
    fee_rate :
  consistent net →
  consistent (Network.add_channel net a b capacity balance_a balance_b base_fee fee_rate).1.
Proof.
  intros Hcs. pose proof Hcs as [Hwf Hsym Hstore].
  pose proof (add_channel_wf net a b capacity balance_a balance_b base_fee fee_rate Hwf)
    as Hwf'.
  destruct (decide (is_Some (Network.nodes net !! a) ∧ is_Some (Network.nodes net !! b)
                    ∧ Network.channels net !! channel_key a b = None
                    ∧ balance_a + balance_b = capacity)) as [Hyes|Hno];
    [|by destruct (add_channel_raises net a b capacity balance_a balance_b base_fee
                     fee_rate Hno) as [e ->]].
  destruct Hyes as ([na Ha] & [nb Hb] & Hfree & Hsum).
  pose proof (no_adjacency net a b na Hwf Ha Hfree) as Hna.
  destruct (decide (a = b)) as [<-|Hab].
  - rewrite (add_channel_self net a _ _ _ _ _ na) in Hwf' |- * by done. simpl in *.
    split; [done|..]; simpl.
    + intros u v cid. rewrite !(adjacent_with_neighbor _ a na) by done.
      intros [H|(-> & -> & ->)]; [left; by apply Hsym|by right].
    + intros cid c. destruct (decide (channel_key a a = cid)) as [<-|Hne].
      * rewrite lookup_insert_eq. intros [= <-]. simpl. split; [done|]. split; [done|].
        apply (adjacent_with_neighbor _ a na); [done..|]. by right.
      * rewrite lookup_insert_ne by done. intros Hc.
        destruct (Hstore _ _ Hc) as (? & ? & ?). split; [done|]. split; [done|].
        apply (adjacent_with_neighbor _ a na); [done..|]. by left.
  - pose proof (no_adjacency net b a nb Hwf Hb) as Hnb.
    rewrite (channel_key_comm b a) in Hnb. specialize (Hnb Hfree).
    rewrite (add_channel_distinct_ok net a b _ _ _ _ _ na nb) in Hwf' |- * by done.
    simpl in *.
    assert (∀ x v cid,
      adjacent (<[b := with_neighbor nb a (channel_key a b)]>
                  (<[a := with_neighbor na b (channel_key a b)]> (Network.nodes net))) x v cid
      ↔ adjacent (Network.nodes net) x v cid
        ∨ (x = a ∧ v = b ∧ cid = channel_key a b)
        ∨ (x = b ∧ v = a ∧ cid = channel_key a b)) as Hadj.
    { intros x v cid.
      rewrite (adjacent_with_neighbor _ b nb); [|by rewrite lookup_insert_ne|done].
      rewrite (adjacent_with_neighbor _ a na) by done. tauto. }
    split; [done|..]; simpl.
    + intros u v cid. rewrite !Hadj.
      intros [H|[(-> & -> & ->)|(-> & -> & ->)]]; [left; by apply Hsym|tauto..].
    + intros cid c. destruct (decide (channel_key a b = cid)) as [<-|Hne].
      * rewrite lookup_insert_eq. intros [= <-]. simpl. split; [done|]. split; [done|].
        apply Hadj. tauto.
      * rewrite lookup_insert_ne by done. intros Hc.
        destruct (Hstore _ _ Hc) as (? & ? & ?). split; [done|]. split; [done|].
        apply Hadj. tauto.
Qed.

Lemma built_consistent (net : Network.t) : built net → consistent net.
Proof.
  induction 1;
    [apply init_consistent | by apply add_node_consistent | by apply add_channel_consistent].
Qed.

(** Consistency looks at the nodes and at the endpoints and identifiers of
    the stored channels only. *)
Lemma consistent_ends (net net' : Network.t) :
  consistent net → Network.nodes net' = Network.nodes net →
  (∀ cid, option_Forall2
            (λ c c', Channel.node_a c' = Channel.node_a c ∧ Channel.node_b c' = Channel.node_b c
                     ∧ Channel.channel_id c' = Channel.channel_id c)
            (Network.channels net !! cid) (Network.channels net' !! cid)) →
  consistent net'.
Proof.
  intros [Hwf Hsym Hstore] Hn Hc. split.
  - eapply wf_ends; [done|done|]. intros cid c Hcid. specialize (Hc cid).
    rewrite Hcid in Hc. inversion Hc as [? c' (Ha & Hb & _) Heq1 Heq2|]; subst. eauto.
  - rewrite Hn. apply Hsym.
  - intros cid c' Hcid. specialize (Hc cid). rewrite Hcid in Hc.
    inversion Hc as [c ? (Ha & Hb & Hid) Heq1 Heq2|]; subst. symmetry in Heq1.
    rewrite Hn, Ha, Hb, Hid. by apply Hstore.
Qed.

Lemma step_consistent (fuel : nat) (net net' : Network.t) (o : op) :
  consistent net → step fuel net o = Some net' → consistent net'.
Proof.
  intros Hcs H.
  assert (∀ n, same_shape net n → consistent n) as Hshape.
  { intros n [Hn Hc]. eapply consistent_ends; [done|done|]. intros cid.
    specialize (Hc cid). destruct Hc as [c c' (Ha & Hb & _ & _ & _ & Hid)|]; by constructor. }
  destruct o as [id|a b cap ba bb bf fr|nid other nb nr|f t amount|f t amount|txs];
    simpl in *.
  - simplify_eq. by apply add_node_consistent.
  - simplify_eq. by apply add_channel_consistent.
  - destruct (Network.nodes net !! nid) as [node|]; [|by simplify_eq].
    destruct (change_fee node _ _ _ _) as [store|] eqn:Hcf; [|by simplify_eq].
    simplify_eq. apply change_fee_channels in Hcf as (cid & c & Hc & ->).
    eapply consistent_ends; [done|done|]. intros cid'. simpl.
    destruct (decide (cid = cid')) as [<-|Hne].
    + rewrite lookup_insert_eq, Hc. by constructor.
    + rewrite lookup_insert_ne by done.
      destruct (Network.channels net !! cid'); by constructor.
  - destruct (Network.find_path fuel net _ _ _); by simplify_eq.
  - destruct (Network.execute_payment fuel net _ _ _) as [[net1 r]|] eqn:He;
      simpl in H; simplify_eq. apply Hshape. by eapply execute_payment_shape.
  - destruct (TransactionManager.simulate fuel _) as [[tm r]|] eqn:Hsim;
      simpl in H; simplify_eq.
    eapply (simulate_preserves consistent (λ _, True) fuel); [| | |exact Hsim].
    + intros n f t a n' r' [Hwf Hsym Hstore] _ He.
      pose proof (execute_payment_shape _ _ _ _ _ _ _ He) as [Hn Hc].
      eapply consistent_ends; [by split|done|]. intros cid.
      specialize (Hc cid). destruct Hc as [c c' (Ha & Hb & _ & _ & _ & Hid)|]; by constructor.
    + by apply Forall_true.
    + by rewrite enqueue_eq.
Qed.

Lemma run_consistent (fuel : nat) (ops : list op) :
  ∀ net net', consistent net → run fuel net ops = Some net' → consistent net'.
Proof.
  induction ops as [|o ops IH]; intros net net' Hcs H; simpl in H; [by simplify_eq|].
  destruct (step fuel net o) as [net1|] eqn:Hstep; [|done].
  eapply IH; [|done]. by eapply step_consistent.
Qed.

(** X14: in a network built with [add_node] and [add_channel] and then
    used through the interface, being a neighbour is mutual: when [u] lists
    [v], [v] lists [u], and both entries refer to the same channel. *)
Theorem neighbors_are_mutual (net0 net : Network.t) (ops : list op) (fuel0 : nat)
    (u v cid : string) :
  built net0 → run fuel0 net0 ops = Some net →
  adjacent (Network.nodes net) u v cid → adjacent (Network.nodes net) v u cid.
Proof.
  intros Hb Hr. apply (cs_sym net). eapply run_consistent; [|done]. by apply built_consistent.
Qed.

Lemma neighbors_are_mutual_witness : adjacent (Network.nodes scenario) "C" "B" "B-C".
Proof.
  apply (neighbors_are_mutual scenario scenario [] 0 "B" "C" "B-C" scenario_built eq_refl).
  eexists. split; reflexivity.
Defined.

(** X15: in such a network every stored channel carries the key it is
    stored under as its [channel_id], that key is the one made from its two
    endpoints, both endpoints are nodes of the network, and each endpoint
    lists the other as a neighbour through this channel. *)
Theorem stored_channels_are_linked (net0 net : Network.t) (ops : list op) (fuel0 : nat)
    (cid : string) (c : Channel.t) :
  built net0 → run fuel0 net0 ops = Some net →
  Network.channels net !! cid = Some c →
  Channel.channel_id c = cid
  ∧ cid = Network.make_channel_id (py_min (Channel.node_a c) (Channel.node_b c))
            (py_max (Channel.node_a c) (Channel.node_b c))
  ∧ is_Some (Network.nodes net !! Channel.node_a c)
  ∧ is_Some (Network.nodes net !! Channel.node_b c)
  ∧ adjacent (Network.nodes net) (Channel.node_a c) (Channel.node_b c) cid
  ∧ adjacent (Network.nodes net) (Channel.node_b c) (Channel.node_a c) cid.
Proof.
  intros Hb Hr Hc.
  assert (consistent net) as [Hwf Hsym Hstore]
    by (eapply run_consistent; [|done]; by apply built_consistent).
  destruct (Hstore _ _ Hc) as (Hid & Hkey & Hadj).
  split; [done|]. split; [done|].
  pose proof (Hsym _ _ _ Hadj) as Hadj'.
  destruct (wf_adjacent _ Hwf _ _ _ Hadj) as (Hnb & _).
  destruct (wf_adjacent _ Hwf _ _ _ Hadj') as (Hna & _). done.
Qed.

Lemma stored_channels_are_linked_witness :
  adjacent (Network.nodes scenario) "B" "A" "A-B".
Proof.
  destruct (stored_channels_are_linked scenario scenario [] 0 "A-B"
              (Channel.mk "A" "B" 1000 500 500 0 0 "A-B" 0) scenario_built eq_refl eq_refl)
    as (_ & _ & _ & _ & _ & H).
  exact H.
Defined.

Lemma node_add_channel_extends (node node' : Node.t) (cid : string) (c : Channel.t) :
  Node.add_channel node cid c = Ok node' →
  Node.node_id node' = Node.node_id node
  ∧ ∃ other, Node.channels node' = Node.channels node ++ [(other, cid)].
Proof.
  unfold Node.add_channel. intros H. repeat case_match; simplify_eq. simpl. eauto.
Qed.

Lemma insert_extends (nodes : gmap string Node.t) (u : string) (nu nu' : Node.t) :
  nodes !! u = Some nu → Node.node_id nu' = Node.node_id nu →
  Node.channels nu `prefix_of` Node.channels nu' →
  ∀ k n, nodes !! k = Some n →
    ∃ n', <[u := nu']> nodes !! k = Some n' ∧ Node.node_id n' = Node.node_id n
      ∧ Node.channels n `prefix_of` Node.channels n'.
Proof.
  intros Hu Hid Hpre k n Hk. destruct (decide (u = k)) as [<-|Hne].
  - rewrite lookup_insert_eq. simplify_eq. eauto.
  - rewrite lookup_insert_ne by done. eauto.
Qed.

(** X16: construction never overwrites.  On any network, whether the
    call returns or raises, [add_node] leaves the channels and every
    existing node as they are, and [add_channel] leaves every stored
    channel as it is and every existing node with its identifier and with
    its former neighbours, in their order, at the front of its list. *)
Theorem construction_keeps (net : Network.t) :
  (∀ node_id,
     let net' := (Network.add_node net node_id).1 in
     Network.channels net' = Network.channels net
     ∧ ∀ k n, Network.nodes net !! k = Some n → Network.nodes net' !! k = Some n)
  ∧ (∀ a b capacity balance_a balance_b base_fee fee_rate,
     let net' :=
       (Network.add_channel net a b capacity balance_a balance_b base_fee fee_rate).1 in
     (∀ cid c, Network.channels net !! cid = Some c → Network.channels net' !! cid = Some c)
     ∧ ∀ k n, Network.nodes net !! k = Some n →
         ∃ n', Network.nodes net' !! k = Some n'
           ∧ Node.node_id n' = Node.node_id n
           ∧ Node.channels n `prefix_of` Node.channels n').
Proof.
  split.
  - intros node_id net'. unfold net'. split; [apply add_node_channels|].
    intros k n Hk. unfold Network.add_node.
    destruct (Network.nodes net !! node_id) eqn:Hn; [done|]. simpl.
    rewrite lookup_insert_ne; [done|]. intros ->. by rewrite Hk in Hn.
  - intros a b capacity balance_a balance_b base_fee fee_rate net'. split.
    + intros cid c Hc.
      destruct (add_channel_channels net a b capacity balance_a balance_b base_fee fee_rate)
        as [Heq|(cid' & Hnone & _ & Heq)]; unfold net'; rewrite Heq; [done|].
      rewrite lookup_insert_ne; [done|]. intros ->. by rewrite Hc in Hnone.
    + assert (∀ k n, Network.nodes net !! k = Some n →
                ∃ n', Network.nodes net !! k = Some n' ∧ Node.node_id n' = Node.node_id n
                  ∧ Node.channels n `prefix_of` Node.channels n') as Hsame by eauto.
      unfold net', Network.add_channel.
      destruct (Network.nodes net !! a) as [na0|]; [|done].
      destruct (Network.nodes net !! b) as [nb0|]; [|done].
      destruct (Network.channels net !! _); [done|].
      destruct (Channel.init _ _ _ _ _ _ _ _) as [c|]; [|done]. simpl.
      destruct (Network.nodes net !! a) as [na|] eqn:Ha; [|done].
      destruct (Node.add_channel na _ c) as [na'|] eqn:Hadd1; [|done]. simpl.
      destruct (node_add_channel_extends _ _ _ _ Hadd1) as (Hid1 & o1 & Hch1).
      assert (∀ k n, Network.nodes net !! k = Some n →
                ∃ n', <[a := na']> (Network.nodes net) !! k = Some n'
                  ∧ Node.node_id n' = Node.node_id n
                  ∧ Node.channels n `prefix_of` Node.channels n') as Hstep1.
      { apply (insert_extends _ a na na'); [done..|]. rewrite Hch1. by apply prefix_app_r. }
      destruct (<[a := na']> (Network.nodes net) !! b) as [nb|] eqn:Hb; [|done].
      destruct (Node.add_channel nb _ c) as [nb'|] eqn:Hadd2; [|done]. simpl.
      destruct (node_add_channel_extends _ _ _ _ Hadd2) as (Hid2 & o2 & Hch2).
      intros k n Hk. destruct (Hstep1 k n Hk) as (n1 & Hn1 & Hidn & Hpre1).
      destruct (insert_extends _ b nb nb' Hb Hid2 ltac:(rewrite Hch2; by apply prefix_app_r)
                  k n1 Hn1) as (n2 & Hn2 & Hid3 & Hpre2).
      exists n2. split; [done|]. split; [congruence|]. by etrans.
Qed.

(** ** The search finds a cheapest route *)

Lemma heappush_sorted (pq : list (Z * string)) (x : Z * string) :
  StronglySorted (λ a b : Z * string, a.1 ≤ b.1) pq →
  StronglySorted (λ a b : Z * string, a.1 ≤ b.1) (heappush pq x).
Proof.
  induction pq as [|y pq IH]; intros Hs; simpl.
  { repeat constructor. }
  apply StronglySorted_inv in Hs as [Hs Hy].
  destruct (entry_lt y x) eqn:Hlt.
  - constructor; [by apply IH|]. apply Forall_forall.
    intros z [->|Hz]%elem_of_heappush.
    + unfold entry_lt in Hlt. simpl. lia.
    + by eapply Forall_forall in Hy.
  - assert (x.1 ≤ y.1) as Hxy by (unfold entry_lt in Hlt; lia).
    constructor; [by constructor|]. constructor; [done|].
    eapply Forall_impl; [exact Hy|]. simpl. intros z Hz. lia.
Qed.

Lemma can_forward_mono (c : Channel.t) (v : string) (l l' : Z) :
  Channel.can_forward c v l = Ok true → l' ≤ l → Channel.can_forward c v l' = Ok true.
Proof.
  unfold Channel.can_forward. intros H Hle.
  repeat case_match; simplify_eq; f_equal; lia.
Qed.

Lemma adjacent_functional (nodes : gmap string Node.t) (u v cid cid' : string) :
  adjacent nodes u v cid → adjacent nodes u v cid' → cid = cid'.
Proof. intros (n & Hn & Hg) (n' & Hn' & Hg'). by simplify_eq. Qed.

Lemma adjacent_neighbor (nodes : gmap string Node.t) (u v cid : string) (node_u : Node.t) :
  nodes !! u = Some node_u → adjacent nodes u v cid → v ∈ Node.get_neighbors node_u.
Proof.
  intros Hu (n & Hn & Hg). rewrite Hu in Hn. injection Hn as <-.
  unfold Node.get_neighbors.
  induction (Node.channels node_u) as [|[k a] l IH]; simpl in *; [done|].
  destruct (decide (k = v)) as [->|]; [by apply elem_of_cons; left|].
  apply elem_of_cons. right. by apply IH.
Qed.

(** Every outcome of one pass of the inner loop that does not raise. *)
Lemma relax_spec (net : Network.t) (u v : string) (st st' : Network.search) :
  well_formed net → Network.relax net u v st = Ok st' →
  ∃ cid c, adjacent (Network.nodes net) u v cid ∧ Network.channels net !! cid = Some c
    ∧ ((Network.dist st !! u = Some Inf ∧ st' = st)
       ∨ ∃ du, Network.dist st !! u = Some (Fin du)
           ∧ ((Channel.can_forward c v du = Ok false ∧ st' = st)
              ∨ (Channel.can_forward c v du = Ok true
                 ∧ ∃ dv, Network.dist st !! v = Some dv
                     ∧ st' = if lt_ext (du + Channel.calculate_fee c du) dv
                             then Network.mkSearch
                                    (<[v := Fin (du + Channel.calculate_fee c du)]>
                                       (Network.dist st))
                                    (<[v := Some u]> (Network.pred st))
                                    (heappush (Network.pq st)
                                       (du + Channel.calculate_fee c du, v))
                             else st))).
Proof.
  intros Hwf H. unfold Network.relax in H.
  destruct (Network.nodes net !! u) as [node_u|] eqn:Hu; [|done].
  destruct (alist_get v (Node.channels node_u)) as [cid|] eqn:Hv; [|done].
  destruct (Network.channels net !! cid) as [c|] eqn:Hc; [|done].
  exists cid, c. split; [by exists node_u|]. split; [done|].
  destruct (Network.dist st !! u) as [[du|]|] eqn:Hdu; [| by simplify_eq; left | done].
  right. exists du. split; [done|].
  destruct (Network.nodes net !! v) as [node_v|] eqn:Hnv; [|done].
  rewrite (wf_node_id _ Hwf _ _ Hnv) in H.
  destruct (Channel.can_forward c v du) as [[]|]; [| by simplify_eq; left | done].
  right. split; [done|].
  destruct (Network.dist st !! v) as [dv|] eqn:Hdv; [|done].
  exists dv. split; [done|]. destruct (lt_ext _ dv); by simplify_eq.
Qed.

Lemma edge_relaxed_decrease (net : Network.t) (st st' : Network.search) (u : string)
    (du : Z) (v : string) :
  labels_decrease st st' → edge_relaxed net st u du v → edge_relaxed net st' u du v.
Proof.
  intros Hdec Hrel cid c Hadj Hc Hcf.
  destruct (Hrel cid c Hadj Hc Hcf) as (dv & Hdv & Hle).
  destruct (Hdec _ _ Hdv) as (dv' & Hdv' & Hle'). exists dv'. split; [done|lia].
Qed.

Lemma relax_processing (net : Network.t) (amount : Z) (to_id u0 v : string) (du0 : Z)
    (done : list string) (st st' : Network.search) :
  well_formed net → fees_nonneg net → 0 ≤ amount →
  label_inv amount to_id st → search_core net to_id st →
  processing net st u0 du0 done →
  Network.relax net u0 v st = Ok st' →
  search_core net to_id st' ∧ processing net st' u0 du0 (v :: done).
Proof.
  intros Hwf Hf Ha Hli [Hsorted Hentry Hparent Hedge Hroot]
    [Hlabel Hfloor Hpending Hdone Hpfloor] H.
  destruct (relax_spec _ _ _ _ _ Hwf H) as (cid & c & Hadj & Hc & Hcases).
  assert (∀ w, w ∈ v :: done → w ≠ v → edge_relaxed net st u0 du0 w) as Hdone_old.
  { intros w [->|Hw]%elem_of_cons; [done|]. intros _. by apply Hdone. }
  destruct Hcases as [[Hinf ->]|(du & Hdu & Hcases)]; [by rewrite Hlabel in Hinf|].
  rewrite Hlabel in Hdu. injection Hdu as <-.
  pose proof (li_lower _ _ _ Hli u0 du0 Hlabel) as Hlow.
  pose proof (calculate_fee_nonneg c du0 (Hf _ _ Hc) ltac:(lia)) as Hfee.
  set (nd := du0 + Channel.calculate_fee c du0) in *.
  assert (∀ dv, Network.dist st !! v = Some (Fin dv) → dv ≤ nd →
            edge_relaxed net st u0 du0 v) as Hrelaxed_v.
  { intros dv Hdv Hle cid' c' Hadj' Hc' _.
    rewrite <- (adjacent_functional _ _ _ _ _ Hadj Hadj') in Hc'. simplify_eq. eauto. }
  destruct Hcases as [[Hno ->]|(Hyes & dv & Hdv & ->)].
  { split; [done|]. split; try done.
    intros w [->|Hw]%elem_of_cons; [|by apply Hdone].
    intros cid' c' Hadj' Hc' Hcf.
    rewrite <- (adjacent_functional _ _ _ _ _ Hadj Hadj') in Hc'. congruence. }
  destruct (lt_ext nd dv) eqn:Hlt.
  2:{ split; [done|]. split; try done.
      intros w [->|Hw]%elem_of_cons; [|by apply Hdone].
      destruct dv as [z|]; [|done]. apply (Hrelaxed_v z); [done|]. simpl in Hlt. lia. }
  assert (v ≠ u0) as Hvu.
  { intros ->. rewrite Hlabel in Hdv. simplify_eq. simpl in Hlt. lia. }
  assert (labels_decrease st (Network.mkSearch (<[v := Fin nd]> (Network.dist st))
            (<[v := Some u0]> (Network.pred st)) (heappush (Network.pq st) (nd, v)))) as Hdec.
  { intros x dx Hx. simpl. destruct (decide (v = x)) as [<-|Hne].
    - rewrite lookup_insert_eq. exists nd. split; [done|].
      rewrite Hx in Hdv. simplify_eq. simpl in Hlt. lia.
    - rewrite lookup_insert_ne by done. exists dx. split; [done|lia]. }
  assert (∀ y p, Network.pred st !! y = Some (Some p) → p ≠ v) as Hpv.
  { intros y p Hyp ->. destruct (Hpfloor _ _ Hyp) as (dp & Hdp & Hle).
    rewrite Hdp in Hdv. simplify_eq. simpl in Hlt. lia. }
  split; split; simpl.
  - by apply heappush_sorted.
  - intros d x [[= -> ->]|Hin]%elem_of_heappush.
    + rewrite lookup_insert_eq. exists nd. split; [done|lia].
    + destruct (Hentry _ _ Hin) as (dx & Hdx & Hle).
      destruct (Hdec _ _ Hdx) as (dx' & Hdx' & Hle'). simpl in Hdx'.
      exists dx'. split; [done|lia].
  - intros y p. destruct (decide (v = y)) as [<-|Hne].
    + rewrite lookup_insert_eq. intros [= <-]. exists du0.
      rewrite lookup_insert_ne by done. split; [done|].
      intros d x [[= -> ->]|Hin]%elem_of_heappush; [lia|by eapply Hfloor].
    + rewrite lookup_insert_ne by done. intros Hyp.
      destruct (Hpfloor _ _ Hyp) as (dp & Hdp & Hle).
      exists dp. rewrite lookup_insert_ne by (intros ->; by eapply Hpv).
      split; [done|].
      intros d x [[= -> ->]|Hin]%elem_of_heappush; [lia|].
      pose proof (Hfloor _ _ Hin). lia.
  - intros y p. destruct (decide (v = y)) as [<-|Hne].
    + rewrite lookup_insert_eq. intros [= <-]. exists cid, c, du0.
      rewrite lookup_insert_ne, lookup_insert_eq by done. done.
    + rewrite lookup_insert_ne by done. intros Hyp.
      destruct (Hedge _ _ Hyp) as (cid1 & c1 & dp & Hadj1 & Hc1 & Hdp & Hdy & Hcf1).
      exists cid1, c1, dp. rewrite (lookup_insert_ne _ v y) by done.
      rewrite lookup_insert_ne by (intros ->; by eapply Hpv). done.
  - intros x z. destruct (decide (v = x)) as [<-|Hne].
    + by rewrite !lookup_insert_eq.
    + rewrite !lookup_insert_ne by done. apply Hroot.
  - by rewrite lookup_insert_ne.
  - intros d x [[= -> ->]|Hin]%elem_of_heappush; [lia|by eapply Hfloor].
  - intros u du. destruct (decide (v = u)) as [<-|Hne].
    + rewrite lookup_insert_eq. intros [= <-] _. left. apply elem_of_heappush. by left.
    + rewrite lookup_insert_ne by done. intros Hu Hu0.
      destruct (Hpending _ _ Hu Hu0) as [Hin|Hrel].
      * left. apply elem_of_heappush. by right.
      * right. intros w. eapply edge_relaxed_decrease; [exact Hdec|]. apply Hrel.
  - intros w [->|Hw]%elem_of_cons.
    + intros cid' c' Hadj' Hc' _.
      rewrite <- (adjacent_functional _ _ _ _ _ Hadj Hadj') in Hc'. simplify_eq.
      exists nd. simpl. rewrite lookup_insert_eq. split; [done|lia].
    + eapply edge_relaxed_decrease; [exact Hdec|]. by apply Hdone.
  - intros y p. destruct (decide (v = y)) as [<-|Hne].
    + rewrite lookup_insert_eq. intros [= <-]. exists du0.
      rewrite lookup_insert_ne by done. split; [done|lia].
    + rewrite lookup_insert_ne by done. intros Hyp.
      destruct (Hpfloor _ _ Hyp) as (dp & Hdp & Hle). exists dp.
      rewrite lookup_insert_ne by (intros ->; by eapply Hpv). done.
Qed.

Lemma relax_all_processing (net : Network.t) (amount : Z) (to_id u0 : string) (du0 : Z)
    (vs : list string) :
  well_formed net → fees_nonneg net → 0 ≤ amount →
  ∀ done st st',
    search_inv net st → label_inv amount to_id st → search_core net to_id st →
    processing net st u0 du0 done →
    Network.relax_all net u0 vs st = Ok st' →
    search_inv net st' ∧ label_inv amount to_id st' ∧ search_core net to_id st'
    ∧ processing net st' u0 du0 (reverse vs ++ done).
Proof.
  intros Hwf Hf Ha. induction vs as [|v vs IH]; intros done st st' Hsi Hli Hsc Hpr H;
    simpl in H.
  { by simplify_eq. }
  destruct (Network.relax net u0 v st) as [st1|] eqn:H1; [|done].
  destruct (relax_processing _ _ _ _ _ _ _ _ _ Hwf Hf Ha Hli Hsc Hpr H1) as [Hsc1 Hpr1].
  destruct (IH (v :: done) st1 st') as (Hsi' & Hli' & Hsc' & Hpr'); try done.
  - by eapply relax_search_inv.
  - by eapply relax_label_inv.
  - split; [done|]. split; [done|]. split; [done|].
    by rewrite reverse_cons, <- app_assoc.
Qed.

Lemma search_loop_inv (net : Network.t) (amount : Z) (to_id : string) :
  well_formed net → fees_nonneg net → 0 ≤ amount →
  ∀ fuel st st', loop_inv net amount to_id st →
    Network.search_loop fuel net st = Some (Ok st') →
    loop_inv net amount to_id st' ∧ Network.pq st' = [].
Proof.
  intros Hwf Hf Ha. induction fuel as [|fuel IH]; intros st st' Hinv H; simpl in H; [done|].
  destruct (Network.pq st) as [|[cur u0] pq'] eqn:Hpq; simpl in H; [by simplify_eq|].
  destruct Hinv as (Hsi & Hli & Hsc & Hpend).
  set (st1 := Network.mkSearch (Network.dist st) (Network.pred st) pq') in *.
  assert (∀ e, e ∈ pq' → e ∈ Network.pq st) as Htail
    by (intros e He; rewrite Hpq; by apply elem_of_cons; right).
  assert ((cur, u0) ∈ Network.pq st) as Hhd by (rewrite Hpq; by apply elem_of_cons; left).
  assert (∀ e, e ∈ Network.pq st → e = (cur, u0) ∨ e ∈ pq') as Hsplit
    by (intros e He; rewrite Hpq in He; by apply elem_of_cons in He).
  assert (search_inv net st1) as Hsi1.
  { destruct Hsi as [Hd Hp Hq Hadj]. split; simpl; try done.
    intros d x Hin. apply (Hq d x). by apply Htail. }
  assert (label_inv amount to_id st1) as Hli1 by (by destruct Hli).
  destruct Hsc as [Hsorted Hentry Hparent Hedge Hroot]. rewrite Hpq in Hsorted.
  apply StronglySorted_inv in Hsorted as [Hsorted Hhead].
  assert (search_core net to_id st1) as Hsc1.
  { split; simpl; try done.
    - intros d x Hin. apply Hentry. by apply Htail.
    - intros y p Hyp. destruct (Hparent _ _ Hyp) as (dp & Hdp & Hle).
      exists dp. split; [done|]. intros d x Hin. apply (Hle d x). by apply Htail. }
  destruct (Hentry cur u0 Hhd) as (du & Hdu & Hdle).
  change (Network.dist st1 !! u0) with (Network.dist st !! u0) in H. rewrite Hdu in H.
  simpl in H. destruct (cur >? du) eqn:Hstale.
  - eapply IH; [|done]. split; [done|]. split; [done|]. split; [done|].
    intros u d Hu. simpl in Hu. destruct (Hpend u d Hu) as [[Heq|Hin]%Hsplit|Hrel].
    + injection Heq as -> ->. rewrite Hdu in Hu. injection Hu as <-. lia.
    + by left.
    + by right.
  - assert (du = cur) as -> by lia.
    destruct (si_pq _ _ Hsi cur u0 Hhd) as [node_u Hu].
    rewrite Hu in H.
    destruct (Network.relax_all net u0 _ st1) as [st2|] eqn:Hr; [|done].
    assert (processing net st1 u0 cur []) as Hpr1.
    { split; simpl.
      - done.
      - intros d x Hin. eapply Forall_forall in Hhead; [|exact Hin]. done.
      - intros u d Hud Hne. destruct (Hpend u d Hud) as [[Heq|Hin]%Hsplit|Hrel].
        + injection Heq as -> ->. by destruct Hne.
        + by left.
        + by right.
      - intros v Hv. by apply elem_of_nil in Hv.
      - intros y p Hyp. destruct (Hparent _ _ Hyp) as (dp & Hdp & Hle).
        exists dp. split; [done|]. by apply (Hle cur u0). }
    destruct (relax_all_processing _ _ _ _ _ _ Hwf Hf Ha _ _ _ Hsi1 Hli1 Hsc1 Hpr1 Hr)
      as (Hsi2 & Hli2 & Hsc2 & Hpr2).
    eapply IH; [|done]. split; [done|]. split; [done|]. split; [done|].
    intros u d Hud. destruct (decide (u = u0)) as [->|Hne].
    + right. intros v cid c Hadj. rewrite (pr_label _ _ _ _ _ Hpr2) in Hud. simplify_eq.
      apply (pr_done _ _ _ _ _ Hpr2); [|done].
      rewrite app_nil_r. apply elem_of_reverse. by eapply adjacent_neighbor.
    + by apply (pr_pending _ _ _ _ _ Hpr2).
Qed.

Lemma search_init_loop_inv (net : Network.t) (to_id : string) (amount : Z) :
  is_Some (Network.nodes net !! to_id) →
  loop_inv net amount to_id (Network.mkSearch
    (<[to_id := Fin amount]> ((λ _, Inf) <$> Network.nodes net))
    ((λ _, None) <$> Network.nodes net) [(amount, to_id)]).
Proof.
  intros Hto. split; [by apply search_init_inv|]. split; [by apply search_init_label_inv|].
  assert (∀ v z, (<[to_id := Fin amount]> ((λ _, Inf) <$> Network.nodes net) : gmap string ext)
                   !! v = Some (Fin z) → v = to_id ∧ z = amount) as Honly.
  { intros v z. destruct (decide (to_id = v)) as [<-|Hne].
    - rewrite lookup_insert_eq. by intros [= <-].
    - rewrite lookup_insert_ne, lookup_fmap by done.
      destruct (Network.nodes net !! v); by simpl. }
  assert (∀ v u, ((λ _, None) <$> Network.nodes net : gmap string (option string)) !! v
                 ≠ Some (Some u)) as Hnone.
  { intros v u. rewrite lookup_fmap. destruct (Network.nodes net !! v); by simpl. }
  split; [split|]; simpl.
  - repeat constructor.
  - intros d x Hin%list_elem_of_singleton. simplify_eq.
    exists amount. rewrite lookup_insert_eq. split; [done|lia].
  - intros v u H. by apply Hnone in H.
  - intros v u H. by apply Hnone in H.
  - intros v z Hv _. by destruct (Honly _ _ Hv).
  - intros u du Hu. destruct (Honly _ _ Hu) as [-> ->]. left.
    by apply list_elem_of_singleton.
Qed.

(** The state the search ends in, on a well-formed network with fees and
    an amount that are not negative. *)
Lemma find_path_final (fuel : nat) (net : Network.t) (from_id to_id : string) (amount : Z)
    (st : Network.search) :
  well_formed net → fees_nonneg net → 0 ≤ amount →
  is_Some (Network.nodes net !! to_id) →
  Network.search_loop fuel net (Network.mkSearch
    (<[to_id := Fin amount]> ((λ _, Inf) <$> Network.nodes net))
    ((λ _, None) <$> Network.nodes net) [(amount, to_id)]) = Some (Ok st) →
  loop_inv net amount to_id st ∧ Network.pq st = [].
Proof.
  intros Hwf Hf Ha Hto H.
  eapply search_loop_inv; [done..| |exact H]. by apply search_init_loop_inv.
Qed.

(** Every finite label is what some route needs. *)
Lemma label_is_route (net : Network.t) (amount : Z) (to_id : string) (st : Network.search) :
  loop_inv net amount to_id st →
  ∀ n v dv, chain (Network.pred st) v n → Network.dist st !! v = Some (Fin dv) →
    route net to_id amount v dv.
Proof.
  intros (Hsi & Hli & Hsc & _). induction n as [|n IH]; intros v dv Hch Hdv; simpl in Hch.
  - rewrite (sc_root _ _ _ Hsc v dv Hdv Hch) in Hdv |- *.
    destruct (li_target _ _ _ Hli) as [Ht _]. rewrite Ht in Hdv. simplify_eq. constructor.
  - destruct Hch as (u & Hu & Hch).
    destruct (sc_edge _ _ _ Hsc v u Hu) as (cid & c & du & Hadj & Hc & Hdu & Hdv' & Hcf).
    rewrite Hdv' in Hdv. simplify_eq. econstructor; eauto.
Qed.

(** No route needs less than the label the search ends with. *)
Lemma route_above_label (net : Network.t) (amount : Z) (to_id : string)
    (st : Network.search) :
  fees_nonneg net → 0 ≤ amount →
  loop_inv net amount to_id st → Network.pq st = [] →
  ∀ v l, route net to_id amount v l →
    ∃ dv, Network.dist st !! v = Some (Fin dv) ∧ dv ≤ l.
Proof.
  intros Hf Ha (Hsi & Hli & Hsc & Hpend) Hpq. induction 1 as [|u v cid c l Hr IH Hadj Hc Hcf].
  - destruct (li_target _ _ _ Hli) as [Ht _]. exists amount. split; [done|lia].
  - destruct IH as (du & Hdu & Hle).
    pose proof (li_lower _ _ _ Hli u du Hdu) as Hlow.
    destruct (Hpend u du Hdu) as [Hin|Hrel]; [rewrite Hpq in Hin; by apply elem_of_nil in Hin|].
    destruct (Hrel v cid c Hadj Hc (can_forward_mono _ _ _ _ Hcf Hle)) as (dv & Hdv & Hle').
    exists dv. split; [done|].
    pose proof (calculate_fee_mono c du l (Hf _ _ Hc) ltac:(lia) Hle). lia.
Qed.


Lemma reachable_present_final (fuel : nat) (net : Network.t) (to_id : string) (amount : Z)
    (st : Network.search) :
  reachable net → 0 ≤ amount → is_Some (Network.nodes net !! to_id) →
  Network.search_loop fuel net (Network.mkSearch
    (<[to_id := Fin amount]> ((λ _, Inf) <$> Network.nodes net))
    ((λ _, None) <$> Network.nodes net) [(amount, to_id)]) = Some (Ok st) →
  loop_inv net amount to_id st ∧ Network.pq st = [].
Proof.
  intros [Hwf [_ Hf]]%reachable_good Ha Hto H. by eapply find_path_final.
Qed.

(** X17: on a network reached through the interface and for an amount
    that is not negative, the total cost that [find_path] returns is what
    some route from the sender needs, and no route from the sender needs
    less: the search returns a cheapest route among those whose hops pass
    its balance check. *)
Theorem find_path_cheapest (fuel : nat) (net : Network.t) (from_id to_id : string)
    (amount : Z) (path : list string) (cost : Z) :
  reachable net → 0 ≤ amount →
  Network.find_path fuel net from_id to_id amount = Some (Ok (Some (path, cost))) →
  route net to_id amount from_id cost
  ∧ ∀ l, route net to_id amount from_id l → cost ≤ l.
Proof.
  intros Hreach Ha H.
  destruct (find_path_pred_path _ _ _ _ _ _ _ H) as (st & Hs & Hd & Hp & Hl & _ & Hto).
  destruct (reachable_present_final _ _ _ _ _ Hreach Ha Hto Hs) as [Hinv Hpq].
  pose proof Hinv as (_ & Hli & _). split.
  - destruct (li_chain _ _ _ Hli from_id cost Hd) as [n Hn].
    by eapply label_is_route.
  - intros l Hr. apply reachable_good in Hreach as [_ [_ Hf]].
    destruct (route_above_label _ _ _ _ Hf Ha Hinv Hpq _ _ Hr) as (dv & Hdv & Hle).
    rewrite Hd in Hdv. by simplify_eq.
Qed.

Lemma find_path_cheapest_witness :
  route scenario "C" 100 "A" 111 ∧ ∀ l, route scenario "C" 100 "A" l → 111 ≤ l.
Proof.
  apply (find_path_cheapest 4 scenario "A" "C" 100 ["A"; "B"; "C"] 111);
    [apply scenario_reachable | lia | vm_compute; reflexivity].
Defined.



(** ** The fees of a payment *)

Lemma pred_path_lookup (pred : gmap string (option string)) (v : string) (p : list string) :
  pred_path pred v p →
  ∀ i x y, p !! i = Some x → p !! S i = Some y → pred !! x = Some (Some y).
Proof.
  induction 1 as [v Hv|v u p Hv Hp IH]; intros i x y Hx Hy.
  - destruct i; simpl in Hy; by rewrite ?lookup_nil in Hy.
  - destruct i as [|i]; simpl in Hx, Hy.
    + simplify_eq. apply pred_path_head in Hp. rewrite <- head_lookup in Hy.
      rewrite Hp in Hy. by simplify_eq.
    + by eapply IH.
Qed.

Lemma same_static_fee (c c' : Channel.t) (amount : Z) :
  same_static c c' → Channel.calculate_fee c' amount = Channel.calculate_fee c amount.
Proof.
  intros (_ & _ & _ & Hb & Hr & _). unfold Channel.calculate_fee. by rewrite Hb, Hr.
Qed.

Lemma same_shape_lookup (net net1 : Network.t) (cid : string) (c : Channel.t) :
  same_shape net net1 → Network.channels net !! cid = Some c →
  ∃ c1, Network.channels net1 !! cid = Some c1 ∧ same_static c c1.
Proof.
  intros [_ Hchan] Hc. specialize (Hchan cid). rewrite Hc in Hchan.
  inversion Hchan as [? c1 Hs1 Heq1 Heq2|]; subst. eauto.
Qed.

(** The fees that the walk recomputes add up to the difference between
    the label of the sender and the label the walk starts from. *)
Lemma hop_events_sum (net : Network.t) (amount : Z) (to_id : string) (st : Network.search)
    (path : list string) (from_id : string) (cost : Z) :
  well_formed net → loop_inv net amount to_id st →
  pred_path (Network.pred st) from_id path →
  Network.dist st !! from_id = Some (Fin cost) →
  ∀ i net1 x dx, same_shape net net1 →
    path !! i = Some x → Network.dist st !! x = Some (Fin dx) →
    sum_fees (hop_events net1 path i dx) = cost - dx
    ∧ length (hop_events net1 path i dx) = i.
Proof.
  intros Hwf (Hsi & Hli & Hsc & _) Hp Hcost.
  pose proof (pred_path_lookup _ _ _ Hp) as Hlook.
  induction i as [|i IH]; intros net1 x dx Hshape Hx Hdx; simpl.
  { apply pred_path_head in Hp. rewrite head_lookup, Hx in Hp. simplify_eq.
    split; [lia|done]. }
  rewrite Hx. destruct (lookup_lt_is_Some_2 path i) as [y Hy];
    [apply lookup_lt_Some in Hx; lia|].
  rewrite Hy.
  destruct (sc_edge _ _ _ Hsc y x (Hlook i y x Hy Hx))
    as (cid & c & du & Hadj & Hc & Hdu & Hdy & Hcf).
  rewrite Hdx in Hdu. injection Hdu as <-.
  destruct (wf_adjacent _ Hwf _ _ _ Hadj) as ([ny Hny] & Hkey & c0 & Hc0 & Hconn).
  rewrite Hc in Hc0. injection Hc0 as <-.
  rewrite (channel_key_comm y x), <- Hkey.
  destruct (same_shape_lookup _ _ _ _ Hshape Hc) as (c1 & Hc1 & Hs1).
  assert (Network.nodes net1 !! y = Some ny) as Hny1 by (by rewrite (proj1 Hshape)).
  rewrite Hc1, Hny1.
  rewrite (wf_node_id _ Hwf _ _ Hny). rewrite (same_static_fee _ _ _ Hs1).
  assert (connects c1 x y) as Hconn1.
  { destruct Hs1 as (Ha & Hb & _). unfold connects in *. by rewrite Ha, Hb. }
  destruct (update_balances_endpoint c1 x y (dx + Channel.calculate_fee c dx) Hconn1)
    as [c1' Hu].
  rewrite Hu. simpl.
  destruct (IH (Network.mk (Network.nodes net1)
                 (<[cid := Channel.add_fee_earned c1' (Channel.calculate_fee c dx)]>
                    (Network.channels net1))) y (dx + Channel.calculate_fee c dx))
    as [Hsum Hlen]; [|done|done|].
  - eapply same_shape_trans; [exact Hshape|]. eapply same_shape_update; [done|].
    destruct (update_balances_static _ _ _ _ Hu) as [Hs _]. unfold same_static in *. by simpl.
  - rewrite Hsum, Hlen. split; [lia|done].
Qed.

(** X19: on a network reached through the interface and for an amount
    that is not negative, the fees that a successful [execute_payment]
    reports are not negative and are exactly the fees its walk recomputed
    and added to [fee_earned], one pass per hop of the path: every channel
    ends with what it had earned plus the fees of the passes over it, and
    the fees of all passes add up to the reported total. *)
Theorem reported_fees_are_booked (fuel : nat) (net net' : Network.t)
    (from_id to_id : string) (amount fees : Z) :
  reachable net → 0 ≤ amount →
  Network.execute_payment fuel net from_id to_id amount = Some (net', Ok (true, fees)) →
  ∃ path cost,
    Network.find_path fuel net from_id to_id amount = Some (Ok (Some (path, cost)))
    ∧ fees = cost - amount ∧ 0 ≤ fees
    ∧ fees = sum_fees (hop_events net path (length path - 1) amount)
    ∧ length (hop_events net path (length path - 1) amount) = (length path - 1)%nat
    ∧ ∀ cid c, Network.channels net !! cid = Some c →
        ∃ c', Network.channels net' !! cid = Some c'
          ∧ Channel.fee_earned c'
            = Channel.fee_earned c
              + charged_fees cid (hop_events net path (length path - 1) amount).
Proof.
  intros Hreach Ha He. pose proof (reachable_good _ Hreach) as [Hwf [_ Hf]].
  destruct (execute_payment_ok _ _ _ _ _ _ Hwf He)
    as [?|(path & cost & net1 & Hp & Hh & Heq)]; simplify_eq.
  exists path, cost. split; [done|]. split; [done|].
  destruct (find_path_pred_path _ _ _ _ _ _ _ Hp) as (st & Hs & Hd & Hpp & Hl & _ & Hto).
  destruct (reachable_present_final _ _ _ _ _ Hreach Ha Hto Hs) as [Hinv Hpq].
  pose proof Hinv as (_ & Hli & _).
  pose proof (li_lower _ _ _ Hli _ _ Hd) as Hlow.
  destruct (li_target _ _ _ Hli) as [Ht _].
  assert (path !! (length path - 1)%nat = Some to_id) as Hlast
    by (replace (length path - 1)%nat with (Nat.pred (length path)) by lia;
        by rewrite <- last_lookup).
  destruct (hop_events_sum net amount to_id st path from_id cost Hwf Hinv Hpp Hd
              (length path - 1) net to_id amount (same_shape_refl net) Hlast Ht)
    as [Hsum Hlen].
  split; [lia|]. split; [by rewrite Hsum|]. split; [done|].
  intros cid c Hc. by apply (hops_fee_earned _ _ _ _ _ _ Hh).
Qed.

Lemma reported_fees_are_booked_witness :
  sum_fees (hop_events scenario ["A"; "B"; "C"] 2 100) = 11.
Proof.
  destruct (Network.execute_payment 4 scenario "A" "C" 100) as [[net' r]|] eqn:He;
    [|vm_compute in He; discriminate].
  assert (r = Ok (true, 11)) as -> by (vm_compute in He; by injection He as _ <-).
  destruct (reported_fees_are_booked 4 scenario net' "A" "C" 100 11 scenario_reachable
              ltac:(lia) He) as (path & cost & Hp & _ & _ & Hsum & _).
  assert (path = ["A"; "B"; "C"]) as -> by (vm_compute in Hp; by injection Hp as <- _).
  symmetry. exact Hsum.
Defined.



(** ** What a successful payment does to the channels *)

Lemma connects_pairs (c : Channel.t) (x y x' y' : string) :
  connects c x y → connects c x' y' → (x = x' ∧ y = y') ∨ (x = y' ∧ y = x').
Proof. unfold connects. intros [[? ?]|[? ?]] [[? ?]|[? ?]]; simplify_eq; auto. Qed.

(** On a path without repetition, two different hops use two different
    channel keys. *)
Lemma hop_keys_differ (net : Network.t) (path : list string) (i j : nat)
    (x y x' y' : string) :
  well_formed net → linked (Network.nodes net) path → NoDup path →
  path !! j = Some x → path !! S j = Some y →
  path !! i = Some x' → path !! S i = Some y' →
  (j < i)%nat → channel_key x y ≠ channel_key x' y'.
Proof.
  intros Hwf Hl Hnd Hx Hy Hx' Hy' Hji Heq.
  destruct (Hl j x y Hx Hy) as (cid & Hadj).
  destruct (Hl i x' y' Hx' Hy') as (cid' & Hadj').
  destruct (wf_adjacent _ Hwf _ _ _ Hadj) as (_ & Hk & c & Hc & Hconn).
  destruct (wf_adjacent _ Hwf _ _ _ Hadj') as (_ & Hk' & c' & Hc' & Hconn').
  rewrite (channel_key_comm y x) in Hk. rewrite (channel_key_comm y' x') in Hk'.
  subst cid cid'. rewrite <- Heq, Hc in Hc'. injection Hc' as <-.
  destruct (connects_pairs _ _ _ _ _ Hconn Hconn') as [[-> ->]|[-> ->]].
  - pose proof (NoDup_lookup _ _ _ _ Hnd Hx Hx'). lia.
  - pose proof (NoDup_lookup _ _ _ _ Hnd Hx Hy'). lia.
Qed.

Lemma transfers_keys (net : Network.t) (path : list string) (i : nat) :
  ∀ cur tr, tr ∈ transfers net path i cur →
    ∃ j x y, (j < i)%nat ∧ path !! j = Some x ∧ path !! S j = Some y
      ∧ tr_channel tr = channel_key x y.
Proof.
  induction i as [|i IH]; intros cur tr Hin; simpl in Hin; [by apply elem_of_nil in Hin|].
  destruct (path !! S i) as [recv|] eqn:Hr; [|by apply elem_of_nil in Hin].
  destruct (path !! i) as [sender|] eqn:Hs; [|by apply elem_of_nil in Hin].
  destruct (Network.channels net !! _) as [c|]; [|by apply elem_of_nil in Hin].
  apply elem_of_cons in Hin as [->|Hin].
  - exists i, sender, recv. simpl. repeat split; (done || lia).
  - destruct (IH _ _ Hin) as (j & x & y & Hj & Hx & Hy & Hk).
    exists j, x, y. repeat split; (done || lia).
Qed.

(** Transfers read the fee parameters and the keys of the channels only. *)
Lemma transfers_shape (net net1 : Network.t) (path : list string) (i : nat) :
  same_shape net net1 → ∀ cur, transfers net1 path i cur = transfers net path i cur.
Proof.
  intros Hshape. induction i as [|i IH]; intros cur; simpl; [done|].
  destruct (path !! S i) as [recv|]; [|done].
  destruct (path !! i) as [sender|]; [|done].
  destruct Hshape as [_ Hc]. specialize (Hc (channel_key sender recv)).
  destruct Hc as [c c1 Hs|]; [|done].
  rewrite (same_static_fee _ _ _ Hs). by rewrite IH.
Qed.

Lemma hops_effect (path : list string) :
  NoDup path →
  ∀ i net cur net',
    well_formed net → linked (Network.nodes net) path → (i < length path)%nat →
    Network.hops net path i cur = (net', Ok true) →
    length (transfers net path i cur) = i
    ∧ (∀ tr c, tr ∈ transfers net path i cur →
         Network.channels net !! tr_channel tr = Some c →
         ∃ c1, Channel.update_balances c (tr_sender tr) (tr_amount tr) = Ok c1
           ∧ Network.channels net' !! tr_channel tr
             = Some (Channel.add_fee_earned c1 (tr_fee tr)))
    ∧ (∀ cid, cid ∉ tr_channel <$> transfers net path i cur →
         Network.channels net' !! cid = Network.channels net !! cid).
Proof.
  intros Hnd. induction i as [|i IH]; intros net cur net' Hwf Hl Hi H; simpl in H |- *.
  { simplify_eq. split; [done|]. split; [|done]. intros tr c Hin. by apply elem_of_nil in Hin. }
  destruct (lookup_lt_is_Some_2 path (S i) Hi) as [recv Hrecv].
  destruct (lookup_lt_is_Some_2 path i ltac:(lia)) as [sender Hsender].
  rewrite Hrecv, Hsender in H |- *. fold (channel_key sender recv) in H.
  destruct (Network.channels net !! channel_key sender recv) as [c|] eqn:Hc; [|done].
  destruct (Network.nodes net !! sender) as [ns|] eqn:Hns; [|done].
  rewrite (wf_node_id _ Hwf _ _ Hns) in H.
  set (fee := Channel.calculate_fee c cur) in *.
  destruct (Channel.update_balances c sender (cur + fee)) as [c1|] eqn:Hu; [|done].
  set (net2 := Network.mk (Network.nodes net)
                 (<[channel_key sender recv := Channel.add_fee_earned c1 fee]>
                    (Network.channels net))) in *.
  assert (same_shape net net2) as Hshape.
  { eapply same_shape_update; [done|].
    destruct (update_balances_static _ _ _ _ Hu) as [Hs _]. unfold same_static in *. by simpl. }
  destruct (IH net2 (cur + fee) net') as (Hlen & Heff & Hframe); [..|done|].
  { by eapply same_shape_wf. }
  { done. }
  { lia. }
  rewrite (transfers_shape net net2 path i Hshape) in Hlen, Heff, Hframe.
  assert (∀ tr, tr ∈ transfers net path i (cur + fee) →
            tr_channel tr ≠ channel_key sender recv) as Hother.
  { intros tr Hin. destruct (transfers_keys _ _ _ _ _ Hin) as (j & x & y & Hj & Hx & Hy & ->).
    by eapply (hop_keys_differ net path i j). }
  split; [simpl; by rewrite Hlen|]. split.
  - intros tr c0 [->|Hin]%elem_of_cons Hc0; simpl in *.
    + rewrite Hc in Hc0. injection Hc0 as <-. exists c1. split; [done|].
      rewrite Hframe; [by apply lookup_insert_eq|].
      intros (tr & Heq & Hin)%list_elem_of_fmap. by eapply Hother.
    + apply Heff; [done|]. simpl. rewrite lookup_insert_ne; [done|].
      intros Heq. by eapply Hother.
  - intros cid Hnot. rewrite fmap_cons in Hnot. simpl in Hnot.
    apply not_elem_of_cons in Hnot as [Hne Hnot].
    rewrite Hframe by done. simpl. by rewrite lookup_insert_ne.
Qed.

(** X21: what a successful payment does.  On a network reached through
    the interface and for an amount that is not negative, a payment that
    returns success has made one pass per hop of the path, each over a
    different channel; each such channel ends as [update_balances] from the
    hop's sender with the hop's amount leaves it, with the hop's fee added
    to [fee_earned], and every other channel is exactly as before. *)
Theorem payment_effect (fuel : nat) (net net' : Network.t) (from_id to_id : string)
    (amount fees : Z) :
  reachable net → 0 ≤ amount →
  Network.execute_payment fuel net from_id to_id amount = Some (net', Ok (true, fees)) →
  ∃ path cost,
    Network.find_path fuel net from_id to_id amount = Some (Ok (Some (path, cost)))
    ∧ let trs := transfers net path (length path - 1) amount in
      length trs = (length path - 1)%nat
      ∧ NoDup (tr_channel <$> trs)
      ∧ (∀ tr c, tr ∈ trs → Network.channels net !! tr_channel tr = Some c →
           ∃ c1, Channel.update_balances c (tr_sender tr) (tr_amount tr) = Ok c1
             ∧ Network.channels net' !! tr_channel tr
               = Some (Channel.add_fee_earned c1 (tr_fee tr)))
      ∧ (∀ cid, cid ∉ tr_channel <$> trs →
           Network.channels net' !! cid = Network.channels net !! cid).
Proof.
  intros Hreach Ha He. pose proof (reachable_good _ Hreach) as [Hwf _].
  destruct (execute_payment_ok _ _ _ _ _ _ Hwf He)
    as [?|(path & cost & net1 & Hp & Hh & Heq)]; [done|].
  injection Heq as <- ->.
  exists path, cost. split; [done|].
  destruct (find_path_ok _ _ _ _ _ _ Hwf Hp) as [?|(p & c & Heq & Hl & Hhd & _)]; [done|].
  injection Heq as <- <-. rename path into p.
  destruct (find_path_pred_path _ _ _ _ _ _ _ Hp) as (st & _ & _ & Hpp & _).
  pose proof (pred_path_NoDup _ _ _ Hpp) as Hnd.
  destruct (hops_effect p Hnd (length p - 1) net amount net' Hwf Hl
              ltac:(by eapply head_length) Hh) as (Hlen & Heff & Hframe).
  simpl. split; [done|]. split; [|by split].
  apply NoDup_fmap_2_strong; [|].
  2:{ clear Heff Hframe Hlen Hh. generalize amount as cur.
      induction (length p - 1)%nat as [|i IH]; intros cur; simpl; [constructor|].
      destruct (p !! S i) as [recv|] eqn:Hr; [|constructor].
      destruct (p !! i) as [sender|] eqn:Hs; [|constructor].
      destruct (Network.channels net !! _) as [ch|]; [|constructor].
      constructor; [|apply IH].
      intros Hin. destruct (transfers_keys _ _ _ _ _ Hin) as (j & x & y & Hj & Hx & Hy & Hk).
      simpl in Hk. symmetry in Hk.
      by eapply (hop_keys_differ net p i j). }
  clear Heff Hframe Hlen Hh. generalize amount as cur.
  induction (length p - 1)%nat as [|i IH]; intros cur tr1 tr2 H1 H2 Hk; simpl in H1, H2.
  { by apply elem_of_nil in H1. }
  destruct (p !! S i) as [recv|] eqn:Hr; [|by apply elem_of_nil in H1].
  destruct (p !! i) as [sender|] eqn:Hs; [|by apply elem_of_nil in H1].
  destruct (Network.channels net !! _) as [ch|]; [|by apply elem_of_nil in H1].
  apply elem_of_cons in H1 as [->|H1]; apply elem_of_cons in H2 as [->|H2]; simpl in *.
  - done.
  - destruct (transfers_keys _ _ _ _ _ H2) as (j & x & y & Hj & Hx & Hy & Hk2).
    rewrite Hk2 in Hk. symmetry in Hk. by destruct (hop_keys_differ net p i j x y sender recv).
  - destruct (transfers_keys _ _ _ _ _ H1) as (j & x & y & Hj & Hx & Hy & Hk1).
    rewrite Hk1 in Hk. by destruct (hop_keys_differ net p i j x y sender recv).
  - by eapply IH.
Qed.

Lemma payment_effect_witness :
  ∃ net', Network.execute_payment 4 scenario "A" "C" 100 = Some (net', Ok (true, 11))
    ∧ Network.channels net' !! "B-C"
      = Some (Channel.mk "B" "C" 1000 389 611 10 (1 # 100) "B-C" 11).
Proof.
  destruct (Network.execute_payment 4 scenario "A" "C" 100) as [[net' r]|] eqn:He;
    [|vm_compute in He; discriminate].
  assert (r = Ok (true, 11)) as -> by (vm_compute in He; by injection He as _ <-).
  exists net'. split; [reflexivity|].
  destruct (payment_effect 4 scenario net' "A" "C" 100 11 scenario_reachable ltac:(lia) He)
    as (path & cost & Hp & _ & _ & Heff & _).
  assert (path = ["A"; "B"; "C"]) as -> by (vm_compute in Hp; by injection Hp as <- _).
  destruct (Heff (mk_transfer "B-C" "B" 111 11)
              (Channel.mk "B" "C" 1000 500 500 10 (1 # 100) "B-C" 0))
    as (c1 & Hu & Hc); [vm_compute; by apply elem_of_cons; left | reflexivity |].
  vm_compute in Hu. injection Hu as <-. exact Hc.
Defined.

(** ** The transaction generator *)

(** The loop [while to_id == from_id], in terms of [random_choice]. *)
Lemma avoid_self_unfold (node_ids : list string) (from_id to_id : string) (rs : list Q) :
  TransactionGenerator.avoid_self node_ids from_id to_id rs
  = if decide (to_id = from_id)
    then (TransactionGenerator.random_choice node_ids
          ≫= TransactionGenerator.avoid_self node_ids from_id : gen string) rs
    else (mret to_id : gen string) rs.
Proof.
  destruct rs as [|r rs]; simpl; destruct (decide (to_id = from_id)); try done.
Qed.

Lemma py_int_range (r : Q) (n : Z) :
  unit_interval r → 0 < n → 0 ≤ py_int (r * inject_Z n) < n.
Proof.
  intros [H0 H1] Hn. destruct r as [p q]. unfold py_int, Qle, Qlt in *. simpl in *.
  assert (0 ≤ p) by lia. assert (p < Z.pos q) by lia.
  rewrite Pos.mul_1_r. split.
  - apply Z.quot_pos; nia.
  - apply Z.quot_lt_upper_bound; nia.
Qed.

Lemma py_int_range_neg (r : Q) (n : Z) :
  unit_interval r → n ≤ 0 → n ≤ py_int (r * inject_Z n) ≤ 0.
Proof.
  intros [H0 H1] Hn. destruct r as [p q]. unfold py_int, Qle, Qlt in *. simpl in *.
  assert (0 ≤ p) by lia. assert (p < Z.pos q) by lia.
  rewrite Pos.mul_1_r.
  replace (p * n) with (- (p * - n)) by ring. rewrite Z.quot_opp_l by lia.
  assert (0 ≤ p * - n ÷ Z.pos q) by (apply Z.quot_pos; nia).
  assert (p * - n ÷ Z.pos q ≤ - n) by (apply Z.quot_le_upper_bound; nia).
  lia.
Qed.

Lemma py_getitem_range {A} (lst : list A) (i : Z) :
  0 ≤ i < Z.of_nat (length lst) → ∃ x, py_getitem lst i = Ok x ∧ lst !! Z.to_nat i = Some x.
Proof.
  intros Hi. unfold py_getitem.
  rewrite (proj2 (Z.ltb_ge i 0)) by lia. rewrite (proj2 (Z.leb_le 0 i)) by lia.
  rewrite (proj2 (Z.ltb_lt i _)) by lia. simpl.
  destruct (lookup_lt_is_Some_2 lst (Z.to_nat i) ltac:(lia)) as [x Hx].
  rewrite Hx. eauto.
Qed.

Lemma pick_empty (r : Q) : TransactionGenerator.pick [] r = Raise IndexError.
Proof.
  unfold TransactionGenerator.pick, py_getitem. simpl.
  by repeat case_match.
Qed.

Lemma pick_elem (lst : list string) (r : Q) (x : string) :
  unit_interval r → TransactionGenerator.pick lst r = Ok x → x ∈ lst.
Proof.
  intros Hr H.
  destruct lst as [|y lst]; [by rewrite pick_empty in H|].
  destruct (py_getitem_range (y :: lst) _ (py_int_range r (Z.of_nat (length (y :: lst))) Hr ltac:(simpl; lia)))
    as (x' & Hx' & Hl).
  unfold TransactionGenerator.pick in H. rewrite Hx' in H. injection H as <-. by eapply list_elem_of_lookup_2.
Qed.

Lemma pick_nonempty (lst : list string) (r : Q) :
  unit_interval r → lst ≠ [] → ∃ x, TransactionGenerator.pick lst r = Ok x.
Proof.
  intros Hr Hne. destruct lst as [|y lst]; [done|].
  destruct (py_getitem_range (y :: lst) _ (py_int_range r (Z.of_nat (length (y :: lst))) Hr ltac:(simpl; lia)))
    as (x' & Hx' & _). eauto.
Qed.

Lemma avoid_self_spec (node_ids : list string) (from_id : string) (rs : list Q) :
  Forall unit_interval rs →
  ∀ to_id to_id' rs', to_id ∈ node_ids →
    TransactionGenerator.avoid_self node_ids from_id to_id rs = Some (Ok to_id', rs') →
    to_id' ∈ node_ids ∧ to_id' ≠ from_id ∧ Forall unit_interval rs'
    ∧ (length rs' ≤ length rs)%nat.
Proof.
  induction 1 as [|r rs Hr Hrs IH]; intros to_id to_id' rs' Hin H; simpl in H.
  - destruct (decide (to_id = from_id)); simplify_eq. repeat split; (done || constructor).
  - destruct (decide (to_id = from_id)) as [->|Hne].
    + destruct (TransactionGenerator.pick node_ids r) as [t|] eqn:Hp; [|done].
      destruct (IH t to_id' rs' (pick_elem _ _ _ Hr Hp) H) as (? & ? & ? & ?).
      repeat split; try done. simpl. lia.
    + simplify_eq. repeat split; try done. by constructor.
Qed.

Lemma generate_loop_spec (self : TransactionGenerator.t) (node_ids : list string) (n : nat) :
  ∀ acc rs txs rs', Forall unit_interval rs →
    TransactionGenerator.generate_loop self node_ids n acc rs = Some (Ok txs, rs') →
    ∃ new, txs = acc ++ new ∧ length new = n ∧ Forall (generated self node_ids) new
      ∧ (length rs' + 3 * n ≤ length rs)%nat.
Proof.
  induction n as [|n IH]; intros acc rs txs rs' Hrs H; simpl in H.
  { injection H as <- <-. exists []. rewrite app_nil_r. repeat split; (done || lia). }
  cbv [mbind gen_bind TransactionGenerator.random_choice TransactionGenerator.randint
         random gen_lift mret gen_ret] in H.
  destruct rs as [|r1 rs]; [done|]. apply Forall_cons in Hrs as [Hr1 Hrs].
  destruct (TransactionGenerator.pick node_ids r1) as [from_id|] eqn:Hf; [|done].
  destruct rs as [|r2 rs]; [done|]. apply Forall_cons in Hrs as [Hr2 Hrs].
  destruct (TransactionGenerator.pick node_ids r2) as [to_id|] eqn:Ht; [|done].
  destruct (TransactionGenerator.avoid_self node_ids from_id to_id rs)
    as [[[to_id'|e] rs3]|] eqn:Ha; [|done..].
  destruct (avoid_self_spec _ _ _ Hrs _ _ _ (pick_elem _ _ _ Hr2 Ht) Ha)
    as (Hin & Hne & Hrs3 & Hlen3).
  destruct rs3 as [|r3 rs4]; [done|]. apply Forall_cons in Hrs3 as [Hr3 Hrs4].
  destruct (IH _ _ _ _ Hrs4 H) as (new & -> & Hlen & Hall & Hlen').
  exists ((from_id, to_id', py_int (r3 * inject_Z (TransactionGenerator.max_balance self - 1000 + 1))
           + 1000) :: new).
  split; [by rewrite <- app_assoc|]. split; [simpl; by rewrite Hlen|].
  split; [|simpl in *; lia].
  apply Forall_cons_2; [|done]. unfold generated. simpl.
  split; [apply (pick_elem _ _ _ Hr1 Hf)|]. split; [done|]. split; [congruence|].
  split; intros Hm.
  - pose proof (py_int_range r3 (TransactionGenerator.max_balance self - 1000 + 1) Hr3). lia.
  - pose proof (py_int_range_neg r3 (TransactionGenerator.max_balance self - 1000 + 1) Hr3). lia.
Qed.

(** X23: every transaction that [generate_transactions] returns has a
    sender and a receiver taken from [node_ids] and different from each
    other, and an amount between 1000 and [max_balance]; when [max_balance]
    is below 1000 the amount lies above [max_balance], up to 1000.  There
    are [num_transactions] of them, and each took at least three random
    numbers. *)
Theorem generated_transactions (self : TransactionGenerator.t) (node_ids : list string)
    (rs rs' : list Q) (txs : list (string * string * Z)) :
  Forall unit_interval rs →
  TransactionGenerator.generate_transactions self node_ids rs = Some (Ok txs, rs') →
  length txs = Z.to_nat (TransactionGenerator.num_transactions self)
  ∧ Forall (generated self node_ids) txs
  ∧ (length rs' + 3 * length txs ≤ length rs)%nat.
Proof.
  intros Hrs H. unfold TransactionGenerator.generate_transactions in H.
  destruct (generate_loop_spec _ _ _ _ _ _ _ Hrs H) as (new & -> & Hlen & Hall & Hcount).
  simpl. rewrite Hlen. done.
Qed.

Lemma generated_transactions_witness :
  TransactionGenerator.generate_transactions (TransactionGenerator.init 5000 2)
    ["A"; "B"; "C"] [1 # 4; 1 # 4; 1 # 2; 1 # 2; 3 # 4; 0; 0; 1 # 3]%Q
  = Some (Ok [("A", "B", 3000); ("C", "A", 1000)], [1 # 3]%Q)
  ∧ Forall (generated (TransactionGenerator.init 5000 2) ["A"; "B"; "C"])
      [("A", "B", 3000); ("C", "A", 1000)].
Proof.
  split; [reflexivity|].
  apply (generated_transactions (TransactionGenerator.init 5000 2) ["A"; "B"; "C"]
           [1 # 4; 1 # 4; 1 # 2; 1 # 2; 3 # 4; 0; 0; 1 # 3]%Q [1 # 3]%Q);
    [|reflexivity].
  repeat apply Forall_cons_2; try apply Forall_nil_2; split; done.
Defined.

Lemma avoid_self_single (node_ids : list string) (from_id : string) (rs : list Q) :
  (∀ x, x ∈ node_ids → x = from_id) → node_ids ≠ [] → Forall unit_interval rs →
  TransactionGenerator.avoid_self node_ids from_id from_id rs = None.
Proof.
  intros Hone Hne. induction 1 as [|r rs Hr Hrs IH]; simpl; rewrite decide_True by done; [done|].
  destruct (pick_nonempty node_ids r Hr Hne) as [t Ht]. rewrite Ht.
  by rewrite (Hone t (pick_elem _ _ _ Hr Ht)).
Qed.

(** X24: [generate_transactions] needs two different node ids.  Asked for
    at least one transaction, it raises [IndexError] on an empty list at
    its first draw, and on a list whose entries are all the same it never
    returns, whatever [random()] returns: the loop that avoids
    self-payments has nothing else to draw. *)
Theorem generate_transactions_needs_two (self : TransactionGenerator.t)
    (node_ids : list string) (r : Q) (rs : list Q) :
  0 < TransactionGenerator.num_transactions self →
  Forall unit_interval (r :: rs) →
  (node_ids = [] →
   TransactionGenerator.generate_transactions self node_ids (r :: rs)
   = Some (Raise IndexError, rs))
  ∧ (node_ids ≠ [] → (∀ x y, x ∈ node_ids → y ∈ node_ids → x = y) →
     TransactionGenerator.generate_transactions self node_ids (r :: rs) = None).
Proof.
  intros Hnum Hrs. unfold TransactionGenerator.generate_transactions.
  destruct (Z.to_nat (TransactionGenerator.num_transactions self)) as [|n] eqn:Hn; [lia|].
  simpl.
  cbv [mbind gen_bind TransactionGenerator.random_choice TransactionGenerator.randint
         random gen_lift mret gen_ret].
  apply Forall_cons in Hrs as [Hr Hrs]. split.
  - intros ->. by rewrite pick_empty.
  - intros Hne Hone. destruct (pick_nonempty node_ids r Hr Hne) as [from_id Hf]. rewrite Hf.
    destruct rs as [|r2 rs]; [done|]. apply Forall_cons in Hrs as [Hr2 Hrs].
    destruct (pick_nonempty node_ids r2 Hr2 Hne) as [to_id Ht]. rewrite Ht.
    rewrite (Hone to_id from_id (pick_elem _ _ _ Hr2 Ht) (pick_elem _ _ _ Hr Hf)).
    rewrite avoid_self_single; [done| |done..].
    intros x Hx. apply Hone; [done|]. apply (pick_elem _ _ _ Hr Hf).
Qed.

Lemma generate_transactions_needs_two_witness :
  TransactionGenerator.generate_transactions (TransactionGenerator.init 5000 1) []
    [1 # 2; 1 # 3]%Q = Some (Raise IndexError, [1 # 3]%Q)
  ∧ TransactionGenerator.generate_transactions (TransactionGenerator.init 5000 1) ["A"]
      [1 # 2; 1 # 3]%Q = None.
Proof.
  destruct (generate_transactions_needs_two (TransactionGenerator.init 5000 1) ["A"]
              (1 # 2)%Q [(1 # 3)%Q]) as [_ Hloop]; [reflexivity| |].
  { repeat apply Forall_cons_2; try apply Forall_nil_2; split; done. }
  split; [reflexivity|]. apply Hloop; [done|].
  intros x y ->%list_elem_of_singleton ->%list_elem_of_singleton. done.
Defined.



(** ** Changing the fees of a channel *)

Lemma reachable_consistent (net : Network.t) : reachable net → consistent net.
Proof.
  intros (ops & fuel & _ & Hrun). eapply run_consistent; [apply init_consistent|done].
Qed.

Lemma alist_get_absent {A} (k : string) (l : list (string * A)) :
  k ∉ l.*1 → alist_get k l = None.
Proof.
  induction l as [|[k1 a1] l IH]; simpl; [done|].
  intros [Hne Hnot]%not_elem_of_cons. rewrite decide_False by done. by apply IH.
Qed.

(** X22: the two endpoints of a channel share it.  On a network reached
    through the interface, [change_fee] on a node raises
    ValueError('Channel not found') when the other node is not among its
    neighbours; otherwise it sets the two fee parameters of the channel
    stored under the key of the pair, and of no other channel, and the same
    call made on the other node for this node does exactly the same. *)
Theorem change_fee_shared (net : Network.t) (u v : string) (node_u : Node.t)
    (new_base_fee : Z) (new_fee_rate : Q) :
  reachable net → Network.nodes net !! u = Some node_u →
  (v ∉ Node.get_neighbors node_u →
   change_fee node_u (Network.channels net) v new_base_fee new_fee_rate
   = Raise (ValueError "Channel not found"))
  ∧ (v ∈ Node.get_neighbors node_u →
     ∃ c node_v,
       Network.channels net !! channel_key u v = Some c
       ∧ Network.nodes net !! v = Some node_v
       ∧ change_fee node_u (Network.channels net) v new_base_fee new_fee_rate
         = Ok (<[channel_key u v := Channel.set_fees c new_base_fee new_fee_rate]>
                 (Network.channels net))
       ∧ change_fee node_v (Network.channels net) u new_base_fee new_fee_rate
         = change_fee node_u (Network.channels net) v new_base_fee new_fee_rate).
Proof.
  intros Hreach Hu. pose proof (reachable_consistent _ Hreach) as Hcs. split.
  - intros Hnot. unfold change_fee. by rewrite (alist_get_absent _ _ Hnot).
  - intros Hin. destruct (alist_get_elem _ _ Hin) as [cid Hcid].
    assert (adjacent (Network.nodes net) u v cid) as Hadj by (exists node_u; done).
    destruct (wf_adjacent _ (cs_wf _ Hcs) _ _ _ Hadj) as (_ & -> & c & Hc & _).
    destruct (cs_sym _ Hcs _ _ _ Hadj) as (node_v & Hv & Hback).
    exists c, node_v. unfold change_fee. by rewrite Hcid, Hback, Hc.
Qed.

Lemma change_fee_shared_witness :
  ∃ c, Network.channels scenario !! "A-B" = Some c
    ∧ change_fee (Node.mk "B" [("A", "A-B"); ("C", "B-C")]) (Network.channels scenario) "A" 7 (1 # 50)
      = Ok (<["A-B" := Channel.set_fees c 7 (1 # 50)]> (Network.channels scenario)).
Proof.
  destruct (change_fee_shared scenario "A" "B" (Node.mk "A" [("B", "A-B")]) 7 (1 # 50)
              scenario_reachable) as [_ Hshared]; [reflexivity|].
  destruct Hshared as (c & node_v & Hc & Hv & Hfee & Hsame).
  { apply list_elem_of_singleton. reflexivity. }
  exists c. split; [exact Hc|].
  vm_compute in Hv. injection Hv as <-. rewrite Hsame. exact Hfee.
Defined.
